(** * Random forest (package randomForest): a shallow embedding

    The Go source trains an ensemble of binary decision trees
    ([TrainRandomForest], [buildTree], [findBestSplit], ...) and predicts by
    traversing every tree ([PredictRandomForest], [traverseTree]).

    Modelling choices, all read off the source:
    - [float64] is an interface [Float64] with the operations the code uses.
      Two instances are given: [binary64] (IEEE 754 double precision, the
      kernel's primitive floats), the arithmetic the program runs in, and
      [exact] (rational arithmetic extended with the IEEE special values),
      the real arithmetic that binary64 rounds. The program is written
      once, over the interface, and the theorems about it are stated over
      the interface: what a proof needs of the arithmetic is a class of
      laws ([EqLaws], [NaNLaws], [WeightLaws]), proved of [binary64] from
      the specification of the primitive floats, and of [exact]. What is
      stated in [exact] alone (the section on the Gini impurity in exact
      arithmetic) records what the sum of the code is in real arithmetic,
      which binary64 follows up to rounding only.
    - [int] is [Z]; the only subtraction that could wrap ([depth-1]) has its
      wrap-around written out.
    - a slice is a [list]; an index out of range, a nil dereference, a
      negative [make] length and [rand.Intn] on a non-positive bound are the
      run-time panics of Go. The source declares no error value: a call
      returns or panics.
    - [map[float64]int] is an association list in insertion order; a [range]
      over it visits the entries in an order chosen by the run time, which
      is an oracle of the model ([iter_src]), like the global source of
      [math/rand] ([rand_src]). Every order has a code
      ([range_order_complete]).
    - [*Node] is [option Node]; trees are never mutated after being built.
    - [int(f)] on a float is its integer part when that is an [int]; when it
      is not, Go leaves the value to the implementation, which is a third
      oracle ([conv_src]). Slicing out of bounds is the panic of its own
      type [sliced].
    - the recursion of [buildTree] is bounded by a [fuel]; more fuel changes
      no outcome but [OutOfFuel] ([buildTree_more_fuel]), and [MaxDepth + 1]
      is enough when [MaxDepth >= 0] ([buildTree_enough_fuel]).

    The file has the program first (the methods of the forest and of the
    tree, then the functions of the package: [imputeMissingValues],
    [splitData], [evaluateRandomForest]), then the vocabulary of the
    statements and the concrete inputs, then the lemmas and theorems, then
    the concrete runs. [loadData] and [main] read a file and print: they are
    not part of the model. *)

From Stdlib Require Import String.
From Stdlib Require Import ZArith List Bool Lia Permutation Setoid.
From Stdlib Require Import Floats Uint63 QArith Qcanon.
Import ListNotations.

Close Scope Q_scope.
Close Scope Qc_scope.
Local Open Scope Z_scope.

Set Implicit Arguments.

(** ** float64 *)

Class Float64 (F : Type) : Type := {
  fadd : F -> F -> F;        (* x + y *)
  fsub : F -> F -> F;        (* x - y *)
  fmul : F -> F -> F;        (* x * y *)
  fdiv : F -> F -> F;        (* x / y *)
  fneg : F -> F;             (* -x *)
  flt : F -> F -> bool;      (* x < y *)
  feq : F -> F -> bool;      (* x == y *)
  of_int : Z -> F;           (* float64(n), and the constants 0.0, 1, 2 *)
  Inf : Z -> F;              (* math.Inf(sign) *)
  NaN : F;                   (* math.NaN() *)
  Pow2 : F -> F              (* math.Pow(x, 2) *)
}.

(** IEEE 754 binary64. *)
Module B64.

Definition of_int (z : Z) : float :=
  if z <? 0 then PrimFloat.opp (PrimFloat.of_uint63 (Uint63.of_Z (- z)))
  else PrimFloat.of_uint63 (Uint63.of_Z z).

Definition Inf (sign : Z) : float :=
  if sign >=? 0 then infinity else neg_infinity.

End B64.

#[export] Instance binary64 : Float64 float := {
  fadd := PrimFloat.add;
  fsub := PrimFloat.sub;
  fmul := PrimFloat.mul;
  fdiv := PrimFloat.div;
  fneg := PrimFloat.opp;
  flt := PrimFloat.ltb;
  feq := PrimFloat.eqb;
  of_int := B64.of_int;
  Inf := B64.Inf;
  NaN := nan;
  Pow2 := fun x => PrimFloat.mul x x
}.

(** Exact arithmetic: the rationals with +Inf, -Inf and NaN, the special
    values following IEEE 754 (signed zeros are not distinguished). *)
Module Exact.

Inductive xq : Type :=
| Fin (q : Qc)
| PInf
| NInf
| XNaN.

Definition sgn (q : Qc) : comparison := (q ?= Q2Qc 0)%Qc.

Definition add (x y : xq) : xq :=
  match x, y with
  | XNaN, _ | _, XNaN => XNaN
  | Fin a, Fin b => Fin (a + b)%Qc
  | PInf, NInf | NInf, PInf => XNaN
  | PInf, _ | _, PInf => PInf
  | NInf, _ | _, NInf => NInf
  end.

Definition neg (x : xq) : xq :=
  match x with
  | Fin a => Fin (- a)%Qc
  | PInf => NInf
  | NInf => PInf
  | XNaN => XNaN
  end.

Definition sub (x y : xq) : xq := add x (neg y).

(** Infinity of the sign of [c] (NaN when [c] is zero), negated by [flip]. *)
Definition signed_inf (c : comparison) (flip : bool) : xq :=
  match c with
  | Eq => XNaN
  | Gt => if flip then NInf else PInf
  | Lt => if flip then PInf else NInf
  end.

Definition mul (x y : xq) : xq :=
  match x, y with
  | XNaN, _ | _, XNaN => XNaN
  | Fin a, Fin b => Fin (a * b)%Qc
  | Fin a, PInf | PInf, Fin a => signed_inf (sgn a) false
  | Fin a, NInf | NInf, Fin a => signed_inf (sgn a) true
  | PInf, PInf | NInf, NInf => PInf
  | PInf, NInf | NInf, PInf => NInf
  end.

Definition div (x y : xq) : xq :=
  match x, y with
  | XNaN, _ | _, XNaN => XNaN
  | Fin a, Fin b =>
      match sgn b with
      | Eq => signed_inf (sgn a) false
      | _ => Fin (a / b)%Qc
      end
  | Fin _, _ => Fin (Q2Qc 0)
  | PInf, Fin b => match sgn b with Lt => NInf | _ => PInf end
  | NInf, Fin b => match sgn b with Lt => PInf | _ => NInf end
  | _, _ => XNaN
  end.

Definition ltb (x y : xq) : bool :=
  match x, y with
  | XNaN, _ | _, XNaN => false
  | Fin a, Fin b => match (a ?= b)%Qc with Lt => true | _ => false end
  | NInf, NInf | PInf, _ | _, NInf => false
  | _, _ => true
  end.

Definition eqb (x y : xq) : bool :=
  match x, y with
  | Fin a, Fin b => if Qc_eq_dec a b then true else false
  | PInf, PInf | NInf, NInf => true
  | _, _ => false
  end.

Definition of_int (z : Z) : xq := Fin (Q2Qc (inject_Z z)).

Definition Inf (sign : Z) : xq := if sign >=? 0 then PInf else NInf.

End Exact.

#[export] Instance exact : Float64 Exact.xq := {
  fadd := Exact.add;
  fsub := Exact.sub;
  fmul := Exact.mul;
  fdiv := Exact.div;
  fneg := Exact.neg;
  flt := Exact.ltb;
  feq := Exact.eqb;
  of_int := Exact.of_int;
  Inf := Exact.Inf;
  NaN := Exact.XNaN;
  Pow2 := fun x => Exact.mul x x
}.

(** ** Panics, results and the state of the run time *)

Inductive panic : Type :=
| IndexOutOfRange        (* runtime error: index out of range *)
| NilDereference         (* runtime error: invalid memory address or nil pointer dereference *)
| MakeSliceLen           (* runtime error: makeslice: len out of range *)
| IntnInvalidArgument.   (* panic: invalid argument to Intn *)

(** Result of code that neither draws random numbers nor ranges over a map. *)
Inductive res (A : Type) : Type :=
| Val (a : A)
| Fault (p : panic).
Arguments Val {A} a.
Arguments Fault {A} p.

Definition rbind {A B} (r : res A) (k : A -> res B) : res B :=
  match r with
  | Val a => k a
  | Fault p => Fault p
  end.

(** How many numbers have been drawn from the global source of [math/rand],
    and how many [range] loops over a map have been started. *)
Record World : Type := mkWorld { rand_pos : nat; iter_pos : nat }.

Inductive outcome (A : Type) : Type :=
| Ret (a : A) (w : World)
| Panic (p : panic)
| OutOfFuel.
Arguments Ret {A} a w.
Arguments Panic {A} p.
Arguments OutOfFuel {A}.

Definition M (A : Type) : Type := World -> outcome A.

Definition ret {A} (a : A) : M A := fun w => Ret a w.

Definition bind {A B} (m : M A) (k : A -> M B) : M B :=
  fun w =>
    match m w with
    | Ret a w' => k a w'
    | Panic p => Panic p
    | OutOfFuel => OutOfFuel
    end.

Definition throw {A} (p : panic) : M A := fun _ => Panic p.

Definition lift {A} (r : res A) : M A :=
  match r with
  | Val a => ret a
  | Fault p => throw p
  end.

Declare Scope go_scope.
Delimit Scope go_scope with go.
Notation "x <- m ;; k" := (bind m (fun x => k))
  (at level 100, m at next level, right associativity) : go_scope.
Notation "' p <- m ;; k" := (bind m (fun p => k))
  (at level 100, p pattern, m at next level, right associativity) : go_scope.
Notation "x <-! r ;; k" := (rbind r (fun x => k))
  (at level 100, r at next level, right associativity) : go_scope.
Notation "' p <-! r ;; k" := (rbind r (fun p => k))
  (at level 100, p pattern, r at next level, right associativity) : go_scope.
Local Open Scope go_scope.

(** Did the call end in a panic (or never end) instead of returning? *)
Definition failed {A} (o : outcome A) : bool :=
  match o with
  | Ret _ _ => false
  | _ => true
  end.

(** ** Slices *)

Definition len {A} (l : list A) : Z := Z.of_nat (length l).

(** [l[i]] *)
Definition index {A} (l : list A) (i : Z) : res A :=
  if i <? 0 then Fault IndexOutOfRange
  else match nth_error l (Z.to_nat i) with
       | Some a => Val a
       | None => Fault IndexOutOfRange
       end.

Fixpoint set_nth {A} (n : nat) (a : A) (l : list A) : list A :=
  match l, n with
  | [], _ => []
  | _ :: t, O => a :: t
  | x :: t, S n' => x :: set_nth n' a t
  end.

(** [l[i] = a] *)
Definition assign {A} (l : list A) (i : Z) (a : A) : res (list A) :=
  if (i <? 0) || (len l <=? i) then Fault IndexOutOfRange
  else Val (set_nth (Z.to_nat i) a l).

(** [make([]T, n)], filled with the zero value [z]. *)
Definition make {A} (z : A) (n : Z) : res (list A) :=
  if n <? 0 then Fault MakeSliceLen else Val (repeat z (Z.to_nat n)).

(** ** Oracles: map iteration order *)

Fixpoint remove_nth {A} (i : nat) (l : list A) : list A :=
  match l, i with
  | [], _ => []
  | _ :: t, O => t
  | x :: t, S j => x :: remove_nth j t
  end.

(** The order coded by [n] (factorial number system): the entry at position
    [n mod k] comes first, the remaining [k-1] follow in the order coded by
    [n / k]. Every order of the entries has a code. *)
Fixpoint permute {A} (fuel n : nat) (l : list A) : list A :=
  match fuel, l with
  | S fuel', d :: _ =>
      let k := length l in
      nth (n mod k) l d :: permute fuel' (n / k) (remove_nth (n mod k) l)
  | _, _ => []
  end.

Definition range_order {A} (n : nat) (l : list A) : list A :=
  permute (length l) n l.

(** ** The program *)

Section RandomForest.

Context {F : Type} {FO : Float64 F}.

(** [rand_src k] is the [k]-th number the global source of [math/rand]
    delivers; [iter_src k] codes the order in which the [k]-th [range] over a
    map visits its entries. *)
Variable rand_src : nat -> Z.
Variable iter_src : nat -> nat.

(** [rand.Intn(n)]: a number of [[0, n)], a panic when [n <= 0]. *)
Definition Intn (n : Z) : M Z :=
  fun w =>
    if n <=? 0 then Panic IntnInvalidArgument
    else Ret (rand_src (rand_pos w) mod n) (mkWorld (S (rand_pos w)) (iter_pos w)).

(** [for k, v := range m], the entries in the order they are visited. *)
Definition range_map {A} (m : list A) : M (list A) :=
  fun w =>
    Ret (range_order (iter_src (iter_pos w)) m) (mkWorld (rand_pos w) (S (iter_pos w))).

(** *** Types *)

Unset Elimination Schemes.
Inductive Node : Type := mkNode {
  FeatureIndex : Z;
  Threshold : F;
  Prediction : F;
  Left : option Node;
  Right : option Node
}.
Set Elimination Schemes.

Record DecisionTree : Type := mkDecisionTree {
  Root : option Node;
  dtMaxDepth : Z;
  dtMaxFeatures : Z;
  dtTask : string
}.

Record RandomForest : Type := mkRandomForest {
  Trees : list (option DecisionTree);
  NumTrees : Z;
  MaxDepth : Z;
  MaxFeatures : Z;
  Task : string
}.

Definition NewRandomForest (numTrees maxDepth maxFeatures : Z) (task : string)
  : res RandomForest :=
  trees <-! make None numTrees ;;
  Val (mkRandomForest trees numTrees maxDepth maxFeatures task).

Definition NewDecisionTree (maxDepth maxFeatures : Z) (task : string) : DecisionTree :=
  mkDecisionTree None maxDepth maxFeatures task.

(** *** Prediction in one tree *)

Fixpoint traverseNode (sample : list F) (node : Node) : res F :=
  match node with
  | mkNode featureIndex threshold prediction None None => Val prediction
  | mkNode featureIndex threshold prediction l r =>
      v <-! index sample featureIndex ;;
      if flt v threshold then
        match l with
        | Some n => traverseNode sample n
        | None => Fault NilDereference
        end
      else
        match r with
        | Some n => traverseNode sample n
        | None => Fault NilDereference
        end
  end.

Definition traverseTree (sample : list F) (node : option Node) : res F :=
  match node with
  | Some n => traverseNode sample n
  | None => Fault NilDereference
  end.

Definition PredictDecisionTree (dt : option DecisionTree) (sample : list F) : res F :=
  match dt with
  | Some t => traverseTree sample (Root t)
  | None => Fault NilDereference
  end.

(** *** Votes and means *)

(** [counts[k]++]. A key equal to [k] is overwritten by [k] (the run time
    updates float keys, since [+0 == -0]); a NaN is equal to no key and
    makes a new entry each time. *)
Fixpoint incr (k : F) (counts : list (F * Z)) : list (F * Z) :=
  match counts with
  | [] => [(k, 1)]
  | (k', c) :: rest =>
      if feq k' k then (k, c + 1) :: rest else (k', c) :: incr k rest
  end.

(** [for _, v := range l { counts[v]++ }] *)
Definition tally (l : list F) : list (F * Z) :=
  fold_left (fun counts v => incr v counts) l [].

(** The scan [if count > maxCount { maxCount = count; majorityPrediction =
    prediction }] over the entries as visited. *)
Definition scan_step (acc : F * Z) (e : F * Z) : F * Z :=
  if snd e >? snd acc then e else acc.

Definition scan_votes (entries : list (F * Z)) : F :=
  fst (fold_left scan_step entries (of_int 0, 0)).

Definition majorityVote (predictions : list F) : M F :=
  entries <- range_map (tally predictions) ;;
  ret (scan_votes entries).

Definition dt_majorityVote : list F -> M F := majorityVote.
Definition rf_majorityVote : list F -> M F := majorityVote.

Definition sum (l : list F) : F := fold_left fadd l (of_int 0).

Definition mean (y : list F) : F := fdiv (sum y) (of_int (len y)).

Definition dt_mean : list F -> F := mean.
Definition rf_mean : list F -> F := mean.

Definition getLeafPrediction (dt : DecisionTree) (y : list F) : M F :=
  if String.eqb (dtTask dt) "classification" then dt_majorityVote y
  else ret (dt_mean y).

(** *** Impurity *)

Definition gini_step (n : Z) (impurity : F) (e : F * Z) : F :=
  let prob := fdiv (of_int (snd e)) (of_int n) in
  fadd impurity (fmul prob (fsub (of_int 1) prob)).

Definition giniImpurity (y : list F) : M F :=
  entries <- range_map (tally y) ;;
  ret (fold_left (gini_step (len y)) entries (of_int 0)).

Definition meanSquaredError (y : list F) : F :=
  let mean := dt_mean y in
  let mse := fold_left (fun mse value => fadd mse (Pow2 (fsub value mean))) y (of_int 0) in
  fdiv mse (of_int (len y)).

Definition calculateScore (dt : DecisionTree) (leftY rightY : list F) : M F :=
  let leftSize := of_int (len leftY) in
  let rightSize := of_int (len rightY) in
  let totalSize := fadd leftSize rightSize in
  if String.eqb (dtTask dt) "classification" then
    leftGini <- giniImpurity leftY ;;
    rightGini <- giniImpurity rightY ;;
    let weightedGini :=
      fadd (fmul (fdiv leftSize totalSize) leftGini)
           (fmul (fdiv rightSize totalSize) rightGini) in
    ret (fneg weightedGini)
  else if String.eqb (dtTask dt) "regression" then
    let leftMSE := meanSquaredError leftY in
    let rightMSE := meanSquaredError rightY in
    let weightedMSE :=
      fadd (fmul (fdiv leftSize totalSize) leftMSE)
           (fmul (fdiv rightSize totalSize) rightMSE) in
    ret (fneg weightedMSE)
  else ret NaN.

(** *** Split search *)

Fixpoint mapR {A B} (f : A -> res B) (l : list A) : res (list B) :=
  match l with
  | [] => Val []
  | a :: t => b <-! f a ;; bs <-! mapR f t ;; Val (b :: bs)
  end.

(** [featureValues[i] = X[i][featureIndex]] *)
Definition column (X : list (list F)) (featureIndex : Z) : res (list F) :=
  mapR (fun row => index row featureIndex) X.

Definition isNaN (x : F) : bool := negb (feq x x).

(** [sort.Float64s]: ascending, the NaNs first. *)
Definition less (x y : F) : bool := flt x y || (isNaN x && negb (isNaN y)).

Fixpoint insert_sorted (x : F) (l : list F) : list F :=
  match l with
  | [] => [x]
  | h :: t => if less x h then x :: h :: t else h :: insert_sorted x t
  end.

Definition Float64s (l : list F) : list F := fold_right insert_sorted [] l.

(** [splitPoints[i] = (featureValues[i] + featureValues[i+1]) / 2] *)
Fixpoint midpoints (l : list F) : list F :=
  match l with
  | a :: (b :: _) as t => fdiv (fadd a b) (of_int 2) :: midpoints t
  | _ => []
  end.

(** The labels left ([<]) and right of [threshold]: [y[i]] goes with
    [X[i]], and is out of range when [y] is shorter than [X]. *)
Fixpoint partitionLabels (X : list (list F)) (y : list F) (featureIndex : Z)
  (threshold : F) : res (list F * list F) :=
  match X with
  | [] => Val ([], [])
  | value :: X' =>
      v <-! index value featureIndex ;;
      match y with
      | [] => Fault IndexOutOfRange
      | yi :: y' =>
          '(leftY, rightY) <-! partitionLabels X' y' featureIndex threshold ;;
          if flt v threshold then Val (yi :: leftY, rightY)
          else Val (leftY, yi :: rightY)
      end
  end.

(** The loop over the split points, [best = (bestThreshold, bestScore)]. *)
Fixpoint evaluateSplitPoints (dt : DecisionTree) (X : list (list F)) (y : list F)
  (featureIndex : Z) (splitPoints : list F) (best : F * F) : M (F * F) :=
  match splitPoints with
  | [] => ret best
  | threshold :: rest =>
      '(leftY, rightY) <- lift (partitionLabels X y featureIndex threshold) ;;
      score <- calculateScore dt leftY rightY ;;
      evaluateSplitPoints dt X y featureIndex rest
        (if flt (snd best) score then (threshold, score) else best)
  end.

Definition findBestSplitForFeature (dt : DecisionTree) (X : list (list F))
  (y : list F) (featureIndex : Z) : M (F * F) :=
  featureValues <- lift (column X featureIndex) ;;
  let featureValues := Float64s featureValues in
  _ <- lift (make (of_int 0) (len X - 1)) ;;
  let splitPoints := midpoints featureValues in
  evaluateSplitPoints dt X y featureIndex splitPoints (of_int 0, Inf (-1)).

(** The loop over the selected features,
    [best = (bestFeatureIndex, bestThreshold, bestScore)]. *)
Fixpoint evaluateFeatures (dt : DecisionTree) (X : list (list F)) (y : list F)
  (selectedFeatures : list Z) (best : Z * F * F) : M (Z * F * F) :=
  match selectedFeatures with
  | [] => ret best
  | featureIndex :: rest =>
      '(threshold, score) <- findBestSplitForFeature dt X y featureIndex ;;
      evaluateFeatures dt X y rest
        (if flt (snd best) score then (featureIndex, threshold, score) else best)
  end.

Definition findBestSplit (dt : DecisionTree) (X : list (list F)) (y : list F)
  (selectedFeatures : list Z) : M (Z * F) :=
  best <- evaluateFeatures dt X y selectedFeatures (-1, Inf 1, Inf (-1)) ;;
  ret (fst best).

Fixpoint repeatM {A} (n : nat) (m : M A) : M (list A) :=
  match n with
  | O => ret []
  | S n' => a <- m ;; rest <- repeatM n' m ;; ret (a :: rest)
  end.

Definition selectFeatures (dt : DecisionTree) (numFeatures : Z) : M (list Z) :=
  _ <- lift (make 0 (dtMaxFeatures dt)) ;;
  repeatM (Z.to_nat (dtMaxFeatures dt)) (Intn numFeatures).

(** *** Building a tree *)

Definition isSameClass (y : list F) : bool :=
  match y with
  | [] => true
  | y0 :: rest => forallb (fun yi => feq yi y0) rest
  end.

(** The inner loop of [isSameValue] on one row, from column [j] on. *)
Fixpoint sameFrom (x0 row : list F) (j : Z) : res bool :=
  match row with
  | [] => Val true
  | v :: row' =>
      v0 <-! index x0 j ;;
      if negb (feq v v0) then Val false else sameFrom x0 row' (j + 1)
  end.

Fixpoint sameRows (x0 : list F) (rows : list (list F)) : res bool :=
  match rows with
  | [] => Val true
  | row :: rows' =>
      same <-! sameFrom x0 (tl row) 1 ;;
      if same then sameRows x0 rows' else Val false
  end.

(** The two loops start at [i := 1] and at [j := 1]. *)
Definition isSameValue (X : list (list F)) : res bool :=
  match X with
  | [] => Val true
  | x0 :: rows => sameRows x0 rows
  end.

Fixpoint splitData (X : list (list F)) (y : list F) (featureIndex : Z) (threshold : F)
  : res (list (list F) * list F * list (list F) * list F) :=
  match X with
  | [] => Val ([], [], [], [])
  | row :: X' =>
      v <-! index row featureIndex ;;
      match y with
      | [] => Fault IndexOutOfRange
      | yi :: y' =>
          '(leftX, leftY, rightX, rightY) <-! splitData X' y' featureIndex threshold ;;
          if flt v threshold then Val (row :: leftX, yi :: leftY, rightX, rightY)
          else Val (leftX, leftY, row :: rightX, yi :: rightY)
      end
  end.

Definition min_int : Z := - 2 ^ 63.
Definition max_int : Z := 2 ^ 63 - 1.

(** [depth - 1] on a 64-bit [int]. *)
Definition pred_int (depth : Z) : Z :=
  if depth =? min_int then max_int else depth - 1.

Definition leaf (prediction : F) : Node :=
  mkNode 0 (of_int 0) prediction None None.

(** [fuel] bounds the nesting of the recursive calls. *)
Fixpoint buildTree (fuel : nat) (dt : DecisionTree) (X : list (list F)) (y : list F)
  (depth : Z) : M (option Node) :=
  match fuel with
  | O => fun _ => OutOfFuel
  | S fuel' =>
      if len y =? 0 then ret None
      else
        stop <- lift (if (depth =? 0) || isSameClass y then Val true else isSameValue X) ;;
        if (stop : bool) then
          prediction <- getLeafPrediction dt y ;;
          ret (Some (leaf prediction))
        else
          x0 <- lift (index X 0) ;;
          let numFeatures := len x0 in
          selectedFeatures <- selectFeatures dt numFeatures ;;
          '(bestFeatureIndex, bestThreshold) <- findBestSplit dt X y selectedFeatures ;;
          '(leftX, leftY, rightX, rightY) <-
            lift (splitData X y bestFeatureIndex bestThreshold) ;;
          leftNode <- buildTree fuel' dt leftX leftY (pred_int depth) ;;
          rightNode <- buildTree fuel' dt rightX rightY (pred_int depth) ;;
          ret (Some (mkNode bestFeatureIndex bestThreshold (of_int 0) leftNode rightNode))
  end.

Definition TrainDecisionTree (fuel : nat) (dt : DecisionTree) (X : list (list F))
  (y : list F) : M DecisionTree :=
  root <- buildTree fuel dt X y (dtMaxDepth dt) ;;
  ret (mkDecisionTree root (dtMaxDepth dt) (dtMaxFeatures dt) (dtTask dt)).

(** *** The forest *)

Definition bootstrapDraw (X : list (list F)) (y : list F) (numSamples : Z)
  : M (list F * F) :=
  i <- Intn numSamples ;;
  x <- lift (index X i) ;;
  v <- lift (index y i) ;;
  ret (x, v).

Definition bootstrapSample (X : list (list F)) (y : list F) (numSamples : Z)
  : M (list (list F) * list F) :=
  _ <- lift (make (of_int 0) numSamples) ;;
  rows <- repeatM (Z.to_nat numSamples) (bootstrapDraw X y numSamples) ;;
  ret (map fst rows, map snd rows).

Definition setTrees (rf : RandomForest) (trees : list (option DecisionTree)) : RandomForest :=
  mkRandomForest trees (NumTrees rf) (MaxDepth rf) (MaxFeatures rf) (Task rf).

(** [n] iterations of the training loop remain, the next one with index [i]. *)
Fixpoint trainLoop (fuel : nat) (X : list (list F)) (y : list F) (n : nat) (i : Z)
  (rf : RandomForest) : M RandomForest :=
  match n with
  | O => ret rf
  | S n' =>
      '(XSample, ySample) <- bootstrapSample X y (len X) ;;
      let tree := NewDecisionTree (MaxDepth rf) (MaxFeatures rf) (Task rf) in
      tree <- TrainDecisionTree fuel tree XSample ySample ;;
      trees <- lift (assign (Trees rf) i (Some tree)) ;;
      trainLoop fuel X y n' (i + 1) (setTrees rf trees)
  end.

Definition TrainRandomForest (fuel : nat) (rf : RandomForest) (X : list (list F))
  (y : list F) : M RandomForest :=
  trainLoop fuel X y (Z.to_nat (NumTrees rf)) 0 rf.

(** [for i, tree := range rf.Trees { predictions[i] = tree.PredictDecisionTree(sample) }] *)
Fixpoint predictLoop (sample : list F) (trees : list (option DecisionTree)) (i : Z)
  (predictions : list F) : res (list F) :=
  match trees with
  | [] => Val predictions
  | tree :: rest =>
      v <-! PredictDecisionTree tree sample ;;
      predictions <-! assign predictions i v ;;
      predictLoop sample rest (i + 1) predictions
  end.

Definition PredictRandomForest (rf : RandomForest) (sample : list F) : M F :=
  predictions <- lift (make (of_int 0) (NumTrees rf)) ;;
  predictions <- lift (predictLoop sample (Trees rf) 0 predictions) ;;
  if String.eqb (Task rf) "classification" then rf_majorityVote predictions
  else if String.eqb (Task rf) "regression" then ret (rf_mean predictions)
  else ret NaN.

End RandomForest.

Arguments mkNode {F} _ _ _ _ _.
Arguments mkDecisionTree {F} _ _ _ _.
Arguments mkRandomForest {F} _ _ _ _ _.

(** ** The functions of the package: preparing the data, evaluating *)

(** [int(f)]: the integer part of [f] when that is an [int]. When it is
    not (NaN, an infinity, a number beyond 64 bits) the conversion still
    succeeds, with a value that depends on the implementation. *)
Class IntConversion (F : Type) : Type := {
  integer_part : F -> option Z
}.

Definition is_int (z : Z) : bool := (min_int <=? z) && (z <=? max_int).

#[export] Instance binary64_int : IntConversion float := {
  integer_part f :=
    match Prim2SF f with
    | S754_zero _ => Some 0
    | S754_finite s m e =>
        let a := if e <? 0 then Z.pos m / 2 ^ (- e) else Z.pos m * 2 ^ e in
        let z := if s then - a else a in
        if is_int z then Some z else None
    | _ => None
    end
}.

#[export] Instance exact_int : IntConversion Exact.xq := {
  integer_part x :=
    match x with
    | Exact.Fin q =>
        let z := Z.quot (Qnum (this q)) (Z.pos (Qden (this q))) in
        if is_int z then Some z else None
    | _ => None
    end
}.

(** The outcome of slicing: [s[:n]] and [s[n:]] panic out of bounds. *)
Inductive sliced (A : Type) : Type :=
| Sliced (a : A)
| SliceBoundsOutOfRange.      (* runtime error: slice bounds out of range *)
Arguments Sliced {A} a.
Arguments SliceBoundsOutOfRange {A}.

Module Package.

Section Package.

Context {F : Type} {FO : Float64 F} {FI : IntConversion F}.

(** [conv_src f] is the [int] the implementation makes of a float [f]
    that has no integer part in [int]. *)
Variable conv_src : F -> Z.
Variable iter_src : nat -> nat.

Definition int (f : F) : Z :=
  match integer_part f with
  | Some z => z
  | None => conv_src f
  end.

(** *** imputeMissingValues *)

(** The loop over the rows for column [j], [acc = (sum, count)]. *)
Fixpoint columnSum (X : list (list F)) (j : Z) (acc : F * Z) : res (F * Z) :=
  match X with
  | [] => Val acc
  | row :: X' =>
      v <-! index row j ;;
      columnSum X' j (if negb (isNaN v) then (fadd (fst acc) v, snd acc + 1) else acc)
  end.

(** [n] columns remain, the next one is [j]. *)
Fixpoint columnMeans (X : list (list F)) (n : nat) (j : Z) : res (list F) :=
  match n with
  | O => Val []
  | S n' =>
      '(sum, count) <-! columnSum X j (of_int 0, 0) ;;
      means <-! columnMeans X n' (j + 1) ;;
      Val (fdiv sum (of_int count) :: means)
  end.

(** The loop over the columns of one row, the next one being [j] with the
    mean [means[j]] at the head of [means]. *)
Fixpoint imputeRow (means : list F) (j : Z) (row : list F) : res (list F) :=
  match means with
  | [] => Val row
  | m :: means' =>
      v <-! index row j ;;
      row' <-! (if isNaN v then assign row j m else Val row) ;;
      imputeRow means' (j + 1) row'
  end.

(** The rows are updated in place and the argument is returned; here the
    updated rows are the result. Rows are taken not to overlap in memory
    (as [loadData] makes them). *)
Definition imputeMissingValues (X : list (list F)) : res (list (list F)) :=
  x0 <-! index X 0 ;;
  let numCols := len x0 in
  _ <-! make (of_int 0) numCols ;;
  means <-! columnMeans X (Z.to_nat numCols) 0 ;;
  mapR (imputeRow means 0) X.

(** *** splitData (training and testing sets) *)

(** [X[:numTrain]] may reach beyond [len(X)] into the capacity of [X], but
    [X[numTrain:]] may not, and likewise for [y]: the four slices are made
    exactly when [0 <= numTrain <= len(X)] and [numTrain <= len(y)]. *)
Definition splitData (X : list (list F)) (y : list F) (splitRatio : F)
  : sliced (list (list F) * list F * list (list F) * list F) :=
  let numTrain := int (fmul (of_int (len X)) splitRatio) in
  if (numTrain <? 0) || (len X <? numTrain) || (len y <? numTrain)
  then SliceBoundsOutOfRange
  else
    let n := Z.to_nat numTrain in
    Sliced (firstn n X, firstn n y, skipn n X, skipn n y).

(** *** evaluateRandomForest *)

(** The loop over the test samples, the next one with index [i]. *)
Fixpoint evaluateLoop (rf : RandomForest (F:=F)) (XTest : list (list F)) (yTest : list F)
  (i : Z) (correct : Z) : M Z :=
  match XTest with
  | [] => ret correct
  | sample :: rest =>
      prediction <- PredictRandomForest iter_src rf sample ;;
      label <- lift (index yTest i) ;;
      evaluateLoop rf rest yTest (i + 1)
        (if feq prediction label then correct + 1 else correct)
  end.

Definition evaluateRandomForest (rf : RandomForest (F:=F)) (XTest : list (list F))
  (yTest : list F) : M F :=
  correct <- evaluateLoop rf XTest yTest 0 0 ;;
  ret (fdiv (of_int correct) (of_int (len XTest))).

End Package.

End Package.

(** ** Vocabulary of the statements *)

Section Vocabulary.

Context {F : Type} {FO : Float64 F}.

(** [path_edges n k]: some path from [n] down to a leaf has [k] edges. *)
Inductive path_edges : Node (F:=F) -> Z -> Prop :=
| path_leaf : forall n, Left n = None -> Right n = None -> path_edges n 0
| path_left : forall n l k, Left n = Some l -> path_edges l k -> path_edges n (k + 1)
| path_right : forall n r k, Right n = Some r -> path_edges r k -> path_edges n (k + 1).

(** [shaped X y node]: [node] is what a build step on the rows [X] with the
    labels [y] can return, as far as its shape goes: nil for no label, else
    a leaf, or a split node each of whose children has the shape for its
    side of the split the node stores. *)
Inductive shaped : list (list F) -> list F -> option (Node (F:=F)) -> Prop :=
| shaped_nil : forall X, shaped X [] None
| shaped_leaf : forall X y prediction,
    y <> [] -> shaped X y (Some (leaf prediction))
| shaped_split : forall X y featureIndex threshold leftX leftY rightX rightY l r,
    y <> [] ->
    splitData X y featureIndex threshold = Val (leftX, leftY, rightX, rightY) ->
    shaped leftX leftY l ->
    shaped rightX rightY r ->
    shaped X y (Some (mkNode featureIndex threshold (of_int 0) l r)).

(** The stopping rule of a build step, as the source evaluates it. *)
Definition stops (X : list (list F)) (y : list F) (depth : Z) : res bool :=
  if (depth =? 0) || isSameClass y then Val true else isSameValue X.

(** The number of labels of [l] equal ([==]) to [v]. *)
Definition count (v : F) (l : list F) : Z :=
  len (filter (fun x => feq x v) l).

(** [entries] lists the classes of [votes], each once, with its number of
    votes. *)
Definition vote_counts (votes : list F) (entries : list (F * Z)) : Prop :=
  (forall k c, In (k, c) entries -> In k votes /\ c = count k votes) /\
  (forall v, In v votes -> exists k c, In (k, c) entries /\ feq k v = true).

(** [v] is the class of the first entry of greatest count, scanning
    [entries] from its head. *)
Definition first_max (entries : list (F * Z)) (v : F) : Prop :=
  exists before c after,
    entries = before ++ (v, c) :: after /\
    Forall (fun e => snd e < c) before /\
    Forall (fun e => snd e <= c) after.

(** The most frequent label, ties to the label met first in row order. *)
Definition firstMostFrequent (y : list F) : F := scan_votes (tally y).

(** All the rows are equal, column by column. *)
Definition rows_identical (X : list (list F)) : Prop :=
  match X with
  | [] => True
  | x0 :: rows => Forall (fun row => Forall2 (fun a b => feq a b = true) row x0) rows
  end.

(** The laws of [==] on numbers that are not NaN. *)
Class EqLaws : Prop := {
  feq_sym : forall a b : F, feq a b = feq b a;
  feq_trans : forall a b c : F, feq a b = true -> feq b c = true -> feq a c = true
}.

(** [x] is a number, neither NaN nor an infinity: [x - x] is 0 for those
    only. *)
Definition finite_value (x : F) : bool := feq (fsub x x) (of_int 0).

(** What the score relies on about the floats of the sizes of the sides
    ([float64(n)] for [0 < n <= max_int], and [0.0]), and about sums that
    start from [0.0]. *)
Class WeightLaws : Prop := {
  fadd_zero_size : forall n, 0 < n <= max_int -> fadd (of_int 0) (of_int n) = of_int n;
  fadd_size_zero : forall n, 0 < n <= max_int -> fadd (of_int n) (of_int 0) = of_int n;
  fdiv_zero_size : forall n, 0 < n <= max_int -> fdiv (of_int 0) (of_int n) = of_int 0;
  fdiv_size_size : forall n, 0 < n <= max_int -> fdiv (of_int n) (of_int n) = of_int 1;
  fsub_one_one : fsub (of_int 1) (of_int 1) = of_int 0;
  fmul_one_l : forall x : F, fmul (of_int 1) x = x;
  fmul_zero_zero : fmul (of_int 0) (of_int 0) = of_int 0;
  fadd_zero_zero : fadd (of_int 0) (of_int 0) = of_int 0;
  fadd_zero_sum : forall acc t : F,
    fadd (of_int 0) acc = acc -> fadd (of_int 0) (fadd acc t) = fadd acc t;
  fadd_zero_r : forall x : F, fadd (of_int 0) x = x -> fadd x (of_int 0) = x;
  fmul_weight_zero : forall c a b,
    0 < c <= max_int -> 0 < a <= max_int -> 0 < b <= max_int ->
    fmul (fdiv (of_int c) (fadd (of_int a) (of_int b))) (of_int 0) = of_int 0;
  finite_value_zero : finite_value (of_int 0) = true;
  finite_value_fneg : forall x : F, finite_value x = true -> finite_value (fneg x) = true
}.

(** The tree of the data model: a node is a Leaf or an Internal node with
    both children. *)
Inductive Tree : Type :=
| Leaf (prediction : F)
| Internal (featureIndex : Z) (threshold : F) (left right : Tree).

(** The tree a [Node] stands for, when each of its nodes has no child or
    both. *)
Fixpoint tree_of (node : Node (F:=F)) : option Tree :=
  match node with
  | mkNode _ _ prediction None None => Some (Leaf prediction)
  | mkNode featureIndex threshold _ (Some l) (Some r) =>
      match tree_of l, tree_of r with
      | Some tl, Some tr => Some (Internal featureIndex threshold tl tr)
      | _, _ => None
      end
  | _ => None
  end.

(** Every feature index of the tree is an index of the sample. *)
Fixpoint covers (sample : list F) (t : Tree) : Prop :=
  match t with
  | Leaf _ => True
  | Internal featureIndex _ l r =>
      0 <= featureIndex < len sample /\ covers sample l /\ covers sample r
  end.

(** Root to leaf, left exactly when [sample[featureIndex] < threshold]. *)
Fixpoint descend (sample : list F) (t : Tree) : F :=
  match t with
  | Leaf prediction => prediction
  | Internal featureIndex threshold l r =>
      if flt (nth (Z.to_nat featureIndex) sample (of_int 0)) threshold
      then descend sample l
      else descend sample r
  end.

(** [slot] holds a trained tree that stands for [t]. *)
Definition holds_tree (slot : option (DecisionTree (F:=F))) (t : Tree) : Prop :=
  exists dt root, slot = Some dt /\ Root dt = Some root /\ tree_of root = Some t.

(** Two oracles agree from position [p] on. *)
Definition agree_from {A} (p : nat) (f g : nat -> A) : Prop :=
  forall n, (p <= n)%nat -> f n = g n.


(** A computation that never reports [OutOfFuel]. *)
Definition fueled {A} (m : M A) : Prop := forall w, m w <> OutOfFuel.

(** [o2] is the outcome [o1], or [o1] ran out of fuel. *)
Definition up_to_fuel {A} (o1 o2 : outcome A) : Prop :=
  o1 = OutOfFuel \/ o1 = o2.

(** No two entries have equal keys. *)
Definition keys_distinct (counts : list (F * Z)) : Prop :=
  ForallOrdPairs (fun e1 e2 => feq (fst e1) (fst e2) = false) counts.

(** The state of the tally after the labels [processed]. *)
Record tallied (processed : list F) (counts : list (F * Z)) : Prop := {
  tallied_sound : forall k c,
    In (k, c) counts -> In k processed /\ c = count k processed /\ 1 <= c;
  tallied_complete : forall v,
    In v processed -> exists k c, In (k, c) counts /\ feq k v = true;
  tallied_distinct : keys_distinct counts
}.

(** [m1] under the oracles [rs1], [is1] and [m2] under [rs2], [is2] do the
    same from every state from which the random sources agree and, when
    [maps] is set, the orders of map iteration agree; and a run only moves
    forward in both oracles. *)
Definition same_run (rs1 rs2 : nat -> Z) (is1 is2 : nat -> nat) {A} (maps : bool)
  (m1 m2 : M A) : Prop :=
  forall w,
    agree_from (rand_pos w) rs1 rs2 ->
    (maps = true -> agree_from (iter_pos w) is1 is2) ->
    m1 w = m2 w /\
    forall a w', m1 w = Ret a w' ->
                 (rand_pos w <= rand_pos w')%nat /\ (iter_pos w <= iter_pos w')%nat.

(** Does the task make the tree range over maps? *)
Definition uses_maps (task : string) : bool := String.eqb task "classification".

End Vocabulary.

(** ** Vocabulary of the two arithmetics *)

(** The value a binary64 number compares as: none for a NaN, the two zeros
    the same. *)
Definition compared_as (f : spec_float) : option spec_float :=
  match f with
  | S754_nan => None
  | S754_zero _ => Some (S754_zero false)
  | _ => Some f
  end.

Definition qz (z : Z) : Qc := Q2Qc (inject_Z z).

Definition xq_eq_dec (a b : Exact.xq) : {a = b} + {a <> b}.
Proof. decide equality. apply Qc_eq_dec. Defined.

(** A label that is a number (or an infinity), not NaN. *)
Definition is_number (v : Exact.xq) : Prop := v <> Exact.XNaN.

(** The classes present among the labels [y]. *)
Definition classes (y : list Exact.xq) : list Exact.xq := nodup xq_eq_dec y.

(** [p_c], the proportion of the labels [y] that are of class [c]. *)
Definition proportion (y : list Exact.xq) (c : Exact.xq) : Qc :=
  (qz (count c y) / qz (len y))%Qc.

Definition qsum (l : list Qc) : Qc := fold_right Qcplus (Q2Qc 0) l.

(** [1 - Σ p_c²], over the classes present. *)
Definition gini (y : list Exact.xq) : Qc :=
  (1 - qsum (map (fun c => proportion y c * proportion y c) (classes y)))%Qc.

(** The relative size of [part] in the split into [part] and [other]. *)
Definition weight (part other : list Exact.xq) : Qc :=
  (qz (len part) / (qz (len part) + qz (len other)))%Qc.

(** The sum of the counts of a map. *)
Definition total {F} (counts : list (F * Z)) : Z :=
  fold_right (fun e s => snd e + s) 0 counts.

(** One term of the sum of the code, [p (1 - p)] for the count [c] among
    [n] labels. *)
Definition gini_term (n c : Z) : Qc :=
  (qz c / qz n * (1 - qz c / qz n))%Qc.

(** The impurity the code computes for one side: 0 on no label. *)
Definition side_impurity (y : list Exact.xq) : Qc :=
  if len y =? 0 then Q2Qc 0 else gini y.

(** The floats of the sizes and of their sums: finite and positive, of
    exponent [hi] at most. *)
Definition count_float (x : spec_float) (hi : Z) : Prop :=
  exists m e, x = S754_finite false m e /\
    -52 <= e <= hi /\ 1 <= Z.pos (digits2_pos m) + e <= 53 + hi /\
    Z.pos (digits2_pos m) <= 53.

Section Impurity.

Context {F : Type} {FO : Float64 F}.





End Impurity.

(** ** Vocabulary of the further properties *)

Section Properties.

Context {F : Type} {FO : Float64 F}.

(** Does the row [fst e] go left of [threshold] on feature [featureIndex]? *)
Definition goes_left (featureIndex : Z) (threshold : F) (e : list F * F) : bool :=
  match index (fst e) featureIndex with
  | Val v => flt v threshold
  | Fault _ => false
  end.

(** Has every row the feature [featureIndex]? *)
Definition has_feature (featureIndex : Z) (X : list (list F)) : bool :=
  forallb (fun row : list F => (0 <=? featureIndex) && (featureIndex <? len row)) X.

(** [t] is halfway between two values that feature [featureIndex] takes
    in [X]. *)
Definition midpoint_of (X : list (list F)) (featureIndex : Z) (t : F) : Prop :=
  exists col a b,
    column X featureIndex = Val col /\ In a col /\ In b col /\
    t = fdiv (fadd a b) (of_int 2).

(** The number of leaves (nodes without children) below [node]. *)
Fixpoint leaves (node : Node (F:=F)) : nat :=
  match node with
  | mkNode _ _ _ None None => 1
  | mkNode _ _ _ l r =>
      (match l with Some n => leaves n | None => 0 end) +
      (match r with Some n => leaves n | None => 0 end)
  end.

Definition leaves_of (node : option (Node (F:=F))) : nat :=
  match node with
  | Some n => leaves n
  | None => 0
  end.

(** [predicts n v]: [v] is the prediction of a leaf of the tree [n]. *)
Inductive predicts : Node (F:=F) -> F -> Prop :=
| predicts_leaf : forall n, Left n = None -> Right n = None -> predicts n (Prediction n)
| predicts_left : forall n l v, Left n = Some l -> predicts l v -> predicts n v
| predicts_right : forall n r v, Right n = Some r -> predicts r v -> predicts n v.

(** The row the [k]-th draw of a bootstrap sample of [n] rows takes, the
    run being in state [w]. *)
Definition drawn (rand_src : nat -> Z) (w : World) (n : Z) (k : nat) : nat :=
  Z.to_nat (rand_src (rand_pos w + k)%nat mod n).

(** [slot] holds the tree that [rf] builds from a bootstrap sample of
    [X], [y]. *)
Definition trained_on (rand_src : nat -> Z) (iter_src : nat -> nat) (fuel : nat)
  (rf : RandomForest (F:=F)) (X : list (list F)) (y : list F)
  (slot : option (DecisionTree (F:=F))) : Prop :=
  exists XSample ySample w w1 root w2,
    bootstrapSample rand_src X y (len X) w = Ret (XSample, ySample) w1 /\
    buildTree rand_src iter_src fuel
      (NewDecisionTree (MaxDepth rf) (MaxFeatures rf) (Task rf)) XSample ySample
      (MaxDepth rf) w1 = Ret root w2 /\
    slot = Some (mkDecisionTree root (MaxDepth rf) (MaxFeatures rf) (Task rf)).

(** The values of column [j] that are not NaN, in row order. *)
Definition observed (X : list (list F)) (j : nat) : list F :=
  filter (fun v => negb (isNaN v)) (map (fun row => nth j row (of_int 0)) X).

(** [row] with each NaN among its first [length means] values replaced by
    the mean of its column. *)
Fixpoint fill (means row : list F) : list F :=
  match means, row with
  | m :: means', v :: row' => (if isNaN v then m else v) :: fill means' row'
  | _, _ => row
  end.

(** The means of the columns [j], [j+1], ..., [j+n-1], over the values
    that are not NaN. *)
Definition column_means (X : list (list F)) (n j : nat) : list F :=
  map (fun k => mean (observed X k)) (seq j n).

(** The predictions of the forest for the samples, one after the other,
    each from the state its predecessor left. *)
Fixpoint predictions (iter_src : nat -> nat) (rf : RandomForest (F:=F))
  (samples : list (list F)) : M (list F) :=
  match samples with
  | [] => ret []
  | sample :: rest =>
      p <- PredictRandomForest iter_src rf sample ;;
      ps <- predictions iter_src rf rest ;;
      ret (p :: ps)
  end.

(** How many of the predictions equal ([==]) the label at their place. *)
Definition correct_predictions (ps labels : list F) : Z :=
  len (filter (fun e => feq (fst e) (snd e)) (combine ps labels)).

(** What the code relies on about NaN, [0/0] and [-Inf]. *)
Class NaNLaws : Prop := {
  isNaN_NaN : isNaN NaN = true;
  isNaN_zero_div_zero : isNaN (fdiv (of_int 0) (of_int 0)) = true;
  isNaN_fadd_l : forall a b : F, isNaN a = true -> isNaN (fadd a b) = true;
  isNaN_fadd_r : forall a b : F, isNaN b = true -> isNaN (fadd a b) = true;
  isNaN_fmul_r : forall a b : F, isNaN b = true -> isNaN (fmul a b) = true;
  isNaN_fneg : forall a : F, isNaN a = true -> isNaN (fneg a) = true;
  flt_NaN_r : forall a b : F, isNaN b = true -> flt a b = false;
  feq_NaN_l : forall a b : F, isNaN a = true -> feq a b = false;
  flt_neg_Inf : forall a : F, flt a (Inf (-1)) = false
}.

End Properties.

(** ** Concrete inputs *)

Definition w0 : World := mkWorld 0 0.

(** An oracle that always answers [a]. *)
Definition always {A} (a : A) : nat -> A := fun _ => a.

Definition classifier (maxDepth maxFeatures : Z) : DecisionTree (F:=float) :=
  NewDecisionTree maxDepth maxFeatures "classification".

(** Two rows that differ in their second column only. *)
Definition X_const0 : list (list float) := [[5; 0]; [5; 1]]%float.
Definition y_01 : list float := [0; 1]%float.

(** Five rows of two features, and four labels. *)
Definition X_five : list (list float) := [[0; 0]; [1; 1]; [2; 0]; [3; 1]; [4; 0]]%float.
Definition y_four : list float := [0; 1; 0; 1]%float.

(** One tree, [MaxDepth = -1], [MaxFeatures = 3] for two features. *)
Definition forest_unvalidated : RandomForest (F:=float) :=
  mkRandomForest [None] 1 (-1) 3 "classification".

(** The random source 0, 1, 2, 3, 0, 1, ... *)
Definition cycle4 (n : nat) : Z := Z.of_nat (n mod 4).

(** Four rows of two features, the labels following the first feature. *)
Definition X_four : list (list float) := [[1; 0]; [2; 1]; [3; 0]; [4; 1]]%float.
Definition y_0011 : list float := [0; 0; 1; 1]%float.

(** The random source 1, 4, 7, 10, ... *)
Definition step3 (n : nat) : Z := Z.of_nat (n * 3 + 1).

Definition stump : Node (F:=float) :=
  mkNode 0 2.5%float 0%float (Some (leaf 0%float)) (Some (leaf 1%float)).

(** The forest of two trees that training makes of [X_four], [y_0011]. *)
Definition forest_trained : RandomForest (F:=float) :=
  mkRandomForest
    [Some (mkDecisionTree (Some stump) 2 2 "classification");
     Some (mkDecisionTree (Some stump) 2 2 "classification")]
    2 2 2 "classification".

(** The random source 0, 1, 2, ... *)
Definition counting (n : nat) : Z := Z.of_nat n.

(** A tree for a task that is neither classification nor regression. *)
Definition ranker (maxDepth maxFeatures : Z) : DecisionTree (F:=float) :=
  NewDecisionTree maxDepth maxFeatures "ranking".

Definition regressor (maxDepth maxFeatures : Z) : DecisionTree (F:=float) :=
  NewDecisionTree maxDepth maxFeatures "regression".

(** A forest of one leaf, for the task "ranking". *)
Definition forest_ranking : RandomForest (F:=float) :=
  mkRandomForest [Some (mkDecisionTree (Some (leaf 1%float)) 0 1 "ranking")] 1 0 1 "ranking".

(** Two rows with a missing value, and two rows whose second column is
    missing altogether. *)
Definition X_missing : list (list float) := [[1; nan]; [3; 4]]%float.
Definition X_unobserved : list (list float) := [[1; nan]; [3; nan]]%float.

(** Four rows of one feature. *)
Definition X_single : list (list float) := [[1]; [2]; [3]; [4]]%float.

(** The implementation's [int] of a float without integer part: 0. *)
Definition conv_zero {F} (f : F) : Z := 0.


(** ** Reasoning about runs *)

Lemma bind_Ret {A B} (m : M A) (k : A -> M B) w b w' :
  bind m k w = Ret b w' ->
  exists a w1, m w = Ret a w1 /\ k a w1 = Ret b w'.
Proof.
  unfold bind. destruct (m w) as [a w1| |]; try discriminate.
  intros H. exists a, w1. auto.
Qed.

Lemma lift_Ret {A} (r : res A) w a w' :
  lift r w = Ret a w' -> r = Val a /\ w' = w.
Proof.
  destruct r; simpl; unfold ret, throw; intros H; inversion H; auto.
Qed.

Lemma ret_Ret {A} (x : A) w a w' : ret x w = Ret a w' -> a = x /\ w' = w.
Proof. unfold ret. intros H; inversion H; auto. Qed.

Lemma rbind_Val {A B} (r : res A) (k : A -> res B) b :
  rbind r k = Val b -> exists a, r = Val a /\ k a = Val b.
Proof. destruct r; simpl; intros H; try discriminate. eauto. Qed.


Lemma fueled_ret {A} (a : A) : fueled (ret a).
Proof. intros w; discriminate. Qed.

Lemma fueled_lift {A} (r : res A) : fueled (lift r).
Proof. intros w; destruct r; discriminate. Qed.

Lemma fueled_bind {A B} (m : M A) (k : A -> M B) :
  fueled m -> (forall a, fueled (k a)) -> fueled (bind m k).
Proof.
  intros Hm Hk w. unfold bind. specialize (Hm w).
  destruct (m w) as [a w1| |]; try discriminate; [apply Hk | congruence].
Qed.

Ltac inv_run H :=
  lazymatch type of H with
  | bind _ _ _ = Ret _ _ =>
      let a := fresh "a" in
      let w := fresh "w" in
      let H1 := fresh "Hrun" in
      let H2 := fresh "Hrun" in
      apply bind_Ret in H; destruct H as (a & w & H1 & H2);
      inv_run H1; inv_run H2
  | lift _ _ = Ret _ _ =>
      let E := fresh "E" in
      apply lift_Ret in H; destruct H as (E & ->)
  | ret _ _ = Ret _ _ =>
      let E := fresh "E" in
      apply ret_Ret in H; destruct H as (E & ->); try subst
  | _ => idtac
  end.

Section Structure.

Context {F : Type} {FO : Float64 F}.
Variable rand_src : nat -> Z.
Variable iter_src : nat -> nat.


(** One unfolding of [buildTree]. *)
Lemma buildTree_step fuel (dt : DecisionTree) X (y : list F) depth :
  buildTree rand_src iter_src (S fuel) dt X y depth =
  if len y =? 0 then ret None
  else
    (stop <- lift (stops X y depth) ;;
     if (stop : bool) then
       prediction <- getLeafPrediction iter_src dt y ;;
       ret (Some (leaf prediction))
     else
       x0 <- lift (index X 0) ;;
       selectedFeatures <- selectFeatures rand_src dt (len x0) ;;
       '(bestFeatureIndex, bestThreshold) <- findBestSplit iter_src dt X y selectedFeatures ;;
       '(leftX, leftY, rightX, rightY) <-
         lift (splitData X y bestFeatureIndex bestThreshold) ;;
       leftNode <- buildTree rand_src iter_src fuel dt leftX leftY (pred_int depth) ;;
       rightNode <- buildTree rand_src iter_src fuel dt rightX rightY (pred_int depth) ;;
       ret (Some (mkNode bestFeatureIndex bestThreshold (of_int 0) leftNode rightNode))).
Proof. reflexivity. Qed.

Lemma len_zero {A} (l : list A) : (len l =? 0) = true <-> l = [].
Proof.
  unfold len. destruct l; simpl; split; intros H; try reflexivity; discriminate.
Qed.

Lemma len_nonzero {A} (l : list A) : (len l =? 0) = false <-> l <> [].
Proof.
  rewrite <- len_zero. destruct (len l =? 0); split; congruence.
Qed.

Lemma stops_false_depth X (y : list F) depth :
  stops X y depth = Val false -> depth <> 0.
Proof.
  unfold stops. destruct (depth =? 0) eqn:E; simpl; [discriminate|].
  intros _. apply Z.eqb_neq. exact E.
Qed.

Lemma pred_int_pos depth : 0 < depth -> pred_int depth = depth - 1.
Proof.
  intros H. unfold pred_int, min_int.
  destruct (depth =? - 2 ^ 63) eqn:E; [apply Z.eqb_eq in E; lia | reflexivity].
Qed.

(** What a build step that returns went through. *)
Inductive build_case (fuel : nat) (dt : DecisionTree) (X : list (list F)) (y : list F)
  (depth : Z) (w : World) (node : option Node) (w' : World) : Prop :=
| build_nil : y = [] -> node = None -> w' = w -> build_case fuel dt X y depth w node w'
| build_leaf : forall prediction,
    y <> [] -> stops X y depth = Val true ->
    getLeafPrediction iter_src dt y w = Ret prediction w' ->
    node = Some (leaf prediction) ->
    build_case fuel dt X y depth w node w'
| build_split : forall featureIndex threshold leftX leftY rightX rightY l r w1 w2,
    y <> [] -> stops X y depth = Val false ->
    splitData X y featureIndex threshold = Val (leftX, leftY, rightX, rightY) ->
    buildTree rand_src iter_src fuel dt leftX leftY (pred_int depth) w1 = Ret l w2 ->
    buildTree rand_src iter_src fuel dt rightX rightY (pred_int depth) w2 = Ret r w' ->
    node = Some (mkNode featureIndex threshold (of_int 0) l r) ->
    build_case fuel dt X y depth w node w'.

Lemma buildTree_cases fuel dt X y depth w node w' :
  buildTree rand_src iter_src (S fuel) dt X y depth w = Ret node w' ->
  build_case fuel dt X y depth w node w'.
Proof.
  rewrite buildTree_step. destruct (len y =? 0) eqn:Ey.
  - intros H. inv_run H. apply build_nil; auto. now apply len_zero.
  - apply len_nonzero in Ey. intros H.
    apply bind_Ret in H. destruct H as (stop & w0 & Hs & H).
    inv_run Hs. destruct stop.
    + inv_run H. eapply build_leaf; eauto.
    + apply bind_Ret in H. destruct H as (x0 & w1 & _ & H).
      apply bind_Ret in H. destruct H as (sel & w2 & _ & H).
      apply bind_Ret in H. destruct H as ([fi thr] & w3 & _ & H).
      apply bind_Ret in H. destruct H as ([[[lX lY] rX] rY] & w4 & Hsplit & H).
      inv_run Hsplit.
      apply bind_Ret in H. destruct H as (l & w5 & Hl & H).
      apply bind_Ret in H. destruct H as (r & w6 & Hr & H).
      inv_run H. eapply build_split; eauto.
Qed.

(** *** Fuel is only spent by the recursion of [buildTree] *)

Lemma fueled_Intn n : fueled (Intn rand_src n).
Proof. intros w. unfold Intn. destruct (n <=? 0); discriminate. Qed.

Lemma fueled_range_map {A} (m : list A) : fueled (range_map iter_src m).
Proof. intros w. discriminate. Qed.

Lemma fueled_majorityVote (l : list F) : fueled (majorityVote iter_src l).
Proof.
  unfold majorityVote. apply fueled_bind; [apply fueled_range_map | intros; apply fueled_ret].
Qed.

Lemma fueled_getLeafPrediction dt (y : list F) : fueled (getLeafPrediction iter_src dt y).
Proof.
  unfold getLeafPrediction, dt_majorityVote.
  destruct (String.eqb _ _); [apply fueled_majorityVote | apply fueled_ret].
Qed.

Lemma fueled_giniImpurity (y : list F) : fueled (giniImpurity iter_src y).
Proof.
  unfold giniImpurity. apply fueled_bind; [apply fueled_range_map | intros; apply fueled_ret].
Qed.

Lemma fueled_calculateScore dt (l r : list F) : fueled (calculateScore iter_src dt l r).
Proof.
  unfold calculateScore. destruct (String.eqb _ _).
  - repeat (apply fueled_bind; [apply fueled_giniImpurity | intros]). apply fueled_ret.
  - destruct (String.eqb _ _); apply fueled_ret.
Qed.

Lemma fueled_evaluateSplitPoints dt X (y : list F) featureIndex splitPoints best :
  fueled (evaluateSplitPoints iter_src dt X y featureIndex splitPoints best).
Proof.
  revert best. induction splitPoints as [|t rest IH]; intros best; simpl.
  - apply fueled_ret.
  - apply fueled_bind; [apply fueled_lift | intros [l r]].
    apply fueled_bind; [apply fueled_calculateScore | intros score]. apply IH.
Qed.

Lemma fueled_findBestSplitForFeature dt X (y : list F) featureIndex :
  fueled (findBestSplitForFeature iter_src dt X y featureIndex).
Proof.
  unfold findBestSplitForFeature.
  apply fueled_bind; [apply fueled_lift | intros].
  apply fueled_bind; [apply fueled_lift | intros].
  apply fueled_evaluateSplitPoints.
Qed.

Lemma fueled_evaluateFeatures dt X (y : list F) selectedFeatures best :
  fueled (evaluateFeatures iter_src dt X y selectedFeatures best).
Proof.
  revert best. induction selectedFeatures as [|f rest IH]; intros best; simpl.
  - apply fueled_ret.
  - apply fueled_bind; [apply fueled_findBestSplitForFeature | intros [t s]]. apply IH.
Qed.

Lemma fueled_findBestSplit dt X (y : list F) selectedFeatures :
  fueled (findBestSplit iter_src dt X y selectedFeatures).
Proof.
  unfold findBestSplit.
  apply fueled_bind; [apply fueled_evaluateFeatures | intros; apply fueled_ret].
Qed.

Lemma fueled_repeatM {A} n (m : M A) : fueled m -> fueled (repeatM n m).
Proof.
  intros Hm. induction n as [|n IH]; simpl.
  - apply fueled_ret.
  - apply fueled_bind; [exact Hm | intros].
    apply fueled_bind; [exact IH | intros; apply fueled_ret].
Qed.

Lemma fueled_selectFeatures (dt : DecisionTree (F:=F)) numFeatures :
  fueled (selectFeatures rand_src dt numFeatures).
Proof.
  unfold selectFeatures.
  apply fueled_bind; [apply fueled_lift | intros].
  apply fueled_repeatM, fueled_Intn.
Qed.

(** With more fuel than [depth], the recursion reaches its end. *)
Lemma buildTree_enough_fuel fuel dt X y depth :
  0 <= depth -> (Z.to_nat depth < fuel)%nat ->
  fueled (buildTree rand_src iter_src fuel dt X y depth).
Proof.
  revert X y depth. induction fuel as [|fuel IH]; intros X y depth Hd Hf; [lia|].
  rewrite buildTree_step. destruct (len y =? 0); [apply fueled_ret|].
  destruct (stops X y depth) as [[|]|p] eqn:Es; intros w; unfold bind at 1; simpl.
  - revert w. apply fueled_bind; [apply fueled_getLeafPrediction | intros; apply fueled_ret].
  - apply stops_false_depth in Es.
    assert (Hp : pred_int depth = depth - 1) by (apply pred_int_pos; lia).
    rewrite Hp. revert w.
    apply fueled_bind; [apply fueled_lift | intros x0].
    apply fueled_bind; [apply fueled_selectFeatures | intros sel].
    apply fueled_bind; [apply fueled_findBestSplit | intros [fi thr]].
    apply fueled_bind; [apply fueled_lift | intros [[[lX lY] rX] rY]].
    apply fueled_bind; [apply IH; lia | intros l].
    apply fueled_bind; [apply IH; lia | intros r]. apply fueled_ret.
  - discriminate.
Qed.

(** More fuel changes no outcome but [OutOfFuel]. *)
Lemma up_to_fuel_bind {A B} (m1 m2 : M A) (k1 k2 : A -> M B) w :
  up_to_fuel (m1 w) (m2 w) ->
  (forall a w1, up_to_fuel (k1 a w1) (k2 a w1)) ->
  up_to_fuel (bind m1 k1 w) (bind m2 k2 w).
Proof.
  intros [Hm | Hm] Hk; unfold bind.
  - left. now rewrite Hm.
  - rewrite <- Hm. destruct (m1 w) as [a w1| |]; [apply Hk | now right | now left].
Qed.

Lemma up_to_fuel_refl {A} (o : outcome A) : up_to_fuel o o.
Proof. now right. Qed.

Lemma buildTree_more_fuel fuel fuel' dt X y depth w :
  (fuel <= fuel')%nat ->
  up_to_fuel (buildTree rand_src iter_src fuel dt X y depth w)
             (buildTree rand_src iter_src fuel' dt X y depth w).
Proof.
  revert fuel' X y depth w.
  induction fuel as [|fuel IH]; intros fuel' X y depth w Hle; [now left|].
  destruct fuel' as [|fuel']; [lia|].
  rewrite !buildTree_step. destruct (len y =? 0); [apply up_to_fuel_refl|].
  apply up_to_fuel_bind; [apply up_to_fuel_refl | intros [|] w1].
  - apply up_to_fuel_refl.
  - apply up_to_fuel_bind; [apply up_to_fuel_refl | intros x0 w2].
    apply up_to_fuel_bind; [apply up_to_fuel_refl | intros sel w3].
    apply up_to_fuel_bind; [apply up_to_fuel_refl | intros [fi thr] w4].
    apply up_to_fuel_bind; [apply up_to_fuel_refl | intros [[[lX lY] rX] rY] w5].
    apply up_to_fuel_bind; [apply IH; lia | intros l w6].
    apply up_to_fuel_bind; [apply IH; lia | intros r w7].
    apply up_to_fuel_refl.
Qed.

Lemma TrainRandomForest_more_fuel fuel fuel' rf X (y : list F) w :
  (fuel <= fuel')%nat ->
  up_to_fuel (TrainRandomForest rand_src iter_src fuel rf X y w)
             (TrainRandomForest rand_src iter_src fuel' rf X y w).
Proof.
  intros Hle. unfold TrainRandomForest.
  generalize (Z.to_nat (NumTrees rf)) as n. generalize 0 as i. intros i n.
  revert i rf w. induction n as [|n IH]; intros i rf w; simpl; [apply up_to_fuel_refl|].
  apply up_to_fuel_bind; [apply up_to_fuel_refl | intros [XS yS] w1].
  apply up_to_fuel_bind.
  - unfold TrainDecisionTree.
    apply up_to_fuel_bind; [now apply buildTree_more_fuel | intros root w2].
    apply up_to_fuel_refl.
  - intros tree w2.
    apply up_to_fuel_bind; [apply up_to_fuel_refl | intros trees w3]. apply IH.
Qed.

(** *** Depth *)

Lemma path_edges_leaf (p : F) k : path_edges (leaf p) k -> k = 0.
Proof. intros H. inversion H; subst; simpl in *; congruence. Qed.

Lemma buildTree_path_bound fuel dt X y depth w node w' :
  0 <= depth ->
  buildTree rand_src iter_src fuel dt X y depth w = Ret (Some node) w' ->
  forall k, path_edges node k -> k <= depth.
Proof.
  revert X y depth w node w'.
  induction fuel as [|fuel IH]; intros X y depth w node w' Hd H k Hk; [discriminate|].
  apply buildTree_cases in H.
  destruct H as [_ E _ | p _ _ _ E | fi thr lX lY rX rY l r w1 w2 _ Es _ Hl Hr E].
  - discriminate.
  - inversion E; subst. apply path_edges_leaf in Hk. lia.
  - inversion E; subst; clear E. apply stops_false_depth in Es.
    assert (Hp : pred_int depth = depth - 1) by (apply pred_int_pos; lia).
    rewrite Hp in Hl, Hr.
    inversion Hk as [n Hn1 Hn2 | n c k' Hc Hk' | n c k' Hc Hk']; subst; simpl in *.
    + lia.
    + subst l. assert (k' <= depth - 1) by (eapply IH; [| exact Hl | exact Hk']; lia). lia.
    + subst r. assert (k' <= depth - 1) by (eapply IH; [| exact Hr | exact Hk']; lia). lia.
Qed.

(** C9. A tree built by [TrainDecisionTree] with [MaxDepth >= 0] has at
    most [MaxDepth] edges on every path from its root to a leaf; and the
    call does return or panic (its recursion is no deeper than
    [MaxDepth]). *)
Theorem TrainDecisionTree_depth_bound fuel dt X y w :
  0 <= dtMaxDepth dt ->
  (forall dt' w' root k,
      TrainDecisionTree rand_src iter_src fuel dt X y w = Ret dt' w' ->
      Root dt' = Some root ->
      path_edges root k ->
      k <= dtMaxDepth dt) /\
  ((Z.to_nat (dtMaxDepth dt) < fuel)%nat ->
   TrainDecisionTree rand_src iter_src fuel dt X y w <> OutOfFuel).
Proof.
  intros Hd. split.
  - intros dt' w' root k H Hroot Hk. unfold TrainDecisionTree in H.
    apply bind_Ret in H. destruct H as (r & w1 & Hb & H). inv_run H.
    simpl in Hroot. subst r.
    eapply buildTree_path_bound; eauto.
  - intros Hf. unfold TrainDecisionTree.
    apply fueled_bind; [now apply buildTree_enough_fuel | intros; apply fueled_ret].
Qed.

(** *** Shape *)

Lemma buildTree_shaped fuel dt X y depth w node w' :
  buildTree rand_src iter_src fuel dt X y depth w = Ret node w' -> shaped X y node.
Proof.
  revert X y depth w node w'.
  induction fuel as [|fuel IH]; intros X y depth w node w' H; [discriminate|].
  apply buildTree_cases in H.
  destruct H as [Ey E _ | p Hy _ _ E | fi thr lX lY rX rY l r w1 w2 Hy _ Hs Hl Hr E]; subst.
  - constructor.
  - now constructor.
  - econstructor; eauto.
Qed.

Lemma shaped_nil_iff X (y : list F) node : shaped X y node -> (node = None <-> y = []).
Proof. intros H. destruct H; split; congruence. Qed.

(** C4, as the code has it. A build step on an empty label vector returns
    nil at once, whatever the rows, the depth and the tree's parameters:
    no node and no failure, no random number drawn, no map visited. And a
    build step returns nil only then. *)
Theorem buildTree_empty_returns_nil fuel dt X depth w :
  buildTree rand_src iter_src (S fuel) dt X [] depth w = Ret None w /\
  forall y node w',
    buildTree rand_src iter_src (S fuel) dt X y depth w = Ret node w' ->
    (node = None <-> y = []).
Proof.
  split; [reflexivity|].
  intros y node w' H. apply buildTree_shaped in H. now apply shaped_nil_iff in H.
Qed.

Lemma splitData_lengths X (y : list F) featureIndex threshold leftX leftY rightX rightY :
  splitData X y featureIndex threshold = Val (leftX, leftY, rightX, rightY) ->
  length leftX = length leftY /\ length rightX = length rightY /\
  (length leftY + length rightY = length X)%nat.
Proof.
  revert y leftX leftY rightX rightY.
  induction X as [|row X IH]; intros y lX lY rX rY H; simpl in H.
  - inversion H; subst. simpl. auto.
  - apply rbind_Val in H. destruct H as (v & _ & H).
    destruct y as [|yi y]; [discriminate|].
    apply rbind_Val in H. destruct H as ([[[lX' lY'] rX'] rY'] & Hrec & H).
    apply IH in Hrec. destruct Hrec as (H1 & H2 & H3).
    destruct (flt v threshold); inversion H; subst; simpl; repeat split; lia.
Qed.

Lemma stops_false_rows X (y : list F) depth : stops X y depth = Val false -> X <> [].
Proof.
  unfold stops. destruct ((depth =? 0) || isSameClass y); [discriminate|].
  destruct X; [discriminate | congruence].
Qed.

(** C3, as the code has it. A node returned by the builder is a leaf made
    by the stopping rule, or a split node that has its left (right) child
    exactly when the split it stores sends a row of the node's partition to
    the left (right): one child at least, and nil on a side that receives
    no row. The same holds of every node below it ([shaped]). *)
Theorem buildTree_children fuel dt X y depth w node w' :
  buildTree rand_src iter_src fuel dt X y depth w = Ret node w' ->
  shaped X y node /\
  (node = None <-> y = []) /\
  forall featureIndex threshold prediction l r,
    node = Some (mkNode featureIndex threshold prediction l r) ->
    (l = None /\ r = None /\ stops X y depth = Val true) \/
    (exists leftX leftY rightX rightY,
        stops X y depth = Val false /\
        splitData X y featureIndex threshold = Val (leftX, leftY, rightX, rightY) /\
        shaped leftX leftY l /\ shaped rightX rightY r /\
        (l = None <-> leftY = []) /\
        (r = None <-> rightY = []) /\
        (l <> None \/ r <> None)).
Proof.
  intros H. pose proof (buildTree_shaped _ _ _ _ _ _ H) as Hsh.
  split; [exact Hsh|]. split; [now apply shaped_nil_iff with (X := X)|].
  intros fi thr p l r E. destruct fuel as [|fuel]; [discriminate|].
  apply buildTree_cases in H.
  destruct H as [_ E' _ | p' _ Hs _ E' | fi' thr' lX lY rX rY l' r' w1 w2 _ Hs Hsp Hl Hr E'];
    rewrite E in E'; [discriminate | |].
  - left. inversion E'; subst. auto.
  - right. inversion E'; subst. exists lX, lY, rX, rY.
    apply buildTree_shaped in Hl, Hr.
    pose proof (shaped_nil_iff Hl) as Il. pose proof (shaped_nil_iff Hr) as Ir.
    repeat split; try tauto.
    apply splitData_lengths in Hsp. destruct Hsp as (_ & _ & Hlen).
    apply stops_false_rows in Hs.
    destruct lY as [|a lY].
    + right. intros Hn. apply Ir in Hn. subst rY. simpl in Hlen.
      destruct X; [congruence | discriminate].
    + left. intros Hn. apply Il in Hn. discriminate.
Qed.

End Structure.

(** ** Map iteration and votes *)

Lemma remove_nth_length {A} (l : list A) i :
  (i < length l)%nat -> length (remove_nth i l) = Nat.pred (length l).
Proof.
  revert i. induction l as [|a l IH]; intros i Hi; simpl in *; [lia|].
  destruct i as [|j]; [reflexivity|]. simpl. rewrite IH by lia.
  destruct l; simpl in *; lia.
Qed.

Lemma nth_remove_nth_perm {A} (l : list A) i d :
  (i < length l)%nat -> Permutation (nth i l d :: remove_nth i l) l.
Proof.
  revert i. induction l as [|a l IH]; intros i Hi; simpl in *; [lia|].
  destruct i as [|j]; [apply Permutation_refl|].
  eapply Permutation_trans; [apply perm_swap|]. apply perm_skip, IH. lia.
Qed.

Lemma permute_perm {A} fuel n (l : list A) :
  length l = fuel -> Permutation (permute fuel n l) l.
Proof.
  revert n l. induction fuel as [|fuel IH]; intros n l Hl.
  - destruct l; [constructor | discriminate].
  - destruct l as [|d t]; [discriminate|].
    cbn [permute].
    set (k := length (d :: t)).
    assert (Hk : (n mod k < k)%nat) by (apply Nat.mod_upper_bound; subst k; discriminate).
    eapply Permutation_trans; [|apply (nth_remove_nth_perm (d :: t) d Hk)].
    apply perm_skip, IH. rewrite remove_nth_length by exact Hk.
    subst k. simpl in *. lia.
Qed.

(** A [range] over a map visits every entry once. *)
Lemma range_order_perm {A} n (l : list A) : Permutation (range_order n l) l.
Proof. unfold range_order. now apply permute_perm. Qed.

(** And every order of the entries is the order of some code. *)
Lemma range_order_complete {A} (l l' : list A) :
  Permutation l' l -> exists n, range_order n l = l'.
Proof.
  revert l. induction l' as [|x l' IH]; intros l Hp.
  - apply Permutation_nil in Hp. subst l. exists O. reflexivity.
  - destruct l as [|d t]; [apply Permutation_sym, Permutation_nil in Hp; discriminate|].
    assert (Hin : In x (d :: t)) by (apply (Permutation_in _ Hp); simpl; auto).
    destruct (In_nth _ _ d Hin) as (i & Hi & Hx).
    pose proof (nth_remove_nth_perm (d :: t) d Hi) as Hq. rewrite Hx in Hq.
    assert (Hrest : Permutation l' (remove_nth i (d :: t))).
    { apply (Permutation_cons_inv (a := x)).
      eapply Permutation_trans; [exact Hp | apply Permutation_sym, Hq]. }
    destruct (IH _ Hrest) as (n' & Hn').
    simpl length in Hi.
    exists (i + n' * S (length t))%nat.
    assert (Hmod : ((i + n' * S (length t)) mod S (length t) = i)%nat)
      by (rewrite Nat.Div0.mod_add; now apply Nat.mod_small).
    assert (Hdiv : ((i + n' * S (length t)) / S (length t) = n')%nat)
      by (rewrite Nat.div_add by discriminate; rewrite Nat.div_small by exact Hi; lia).
    unfold range_order in *. simpl length. cbn [permute]. simpl length.
    rewrite Hmod, Hdiv, Hx. f_equal.
    rewrite remove_nth_length in Hn' by exact Hi. exact Hn'.
Qed.

Section Votes.

Context {F : Type} {FO : Float64 F}.

(** The scan keeps the first entry whose count is the greatest. *)
Lemma scan_fold (entries : list (F * Z)) acc :
  (fold_left scan_step entries acc = acc /\ Forall (fun e => snd e <= snd acc) entries) \/
  (exists before v c after,
      entries = before ++ (v, c) :: after /\
      fold_left scan_step entries acc = (v, c) /\
      snd acc < c /\
      Forall (fun e => snd e < c) before /\
      Forall (fun e => snd e <= c) after).
Proof.
  revert acc. induction entries as [|e es IH]; intros acc; simpl.
  - left. split; [reflexivity | constructor].
  - replace (scan_step acc e) with (if snd e >? snd acc then e else acc) by reflexivity.
    destruct (snd e >? snd acc) eqn:E.
    + apply Z.gtb_lt in E. right. destruct (IH e) as [[Hr Hall] | (b & v & c & a & He & Hr & Hc & Hb & Ha)].
      * exists [], (fst e), (snd e), es. simpl. rewrite Hr.
        repeat split; auto; now destruct e.
      * exists (e :: b), v, c, a. subst es. simpl. repeat split; auto; try lia.
    + assert (snd e <= snd acc) by (rewrite Z.gtb_ltb in E; apply Z.ltb_ge in E; lia).
      destruct (IH acc) as [[Hr Hall] | (b & v & c & a & He & Hr & Hc & Hb & Ha)].
      * left. split; auto.
      * right. exists (e :: b), v, c, a. subst es. simpl. repeat split; auto.
        constructor; [lia | auto].
Qed.

Lemma scan_votes_first_max (entries : list (F * Z)) :
  entries <> [] ->
  Forall (fun e => 1 <= snd e) entries ->
  first_max entries (scan_votes entries).
Proof.
  intros Hne Hpos. unfold scan_votes.
  destruct (scan_fold entries (of_int 0, 0)) as [[_ Hall] | (b & v & c & a & He & Hr & _ & Hb & Ha)].
  - destruct entries as [|e es]; [congruence|].
    inversion Hall; subst. inversion Hpos; subst. simpl in *. lia.
  - rewrite Hr. simpl. exists b, c, a. auto.
Qed.

(** On no entry the scan returns the zero value. *)
Lemma scan_votes_nil : scan_votes ([] : list (F * Z)) = of_int 0.
Proof. reflexivity. Qed.

Lemma first_max_in (entries : list (F * Z)) v :
  first_max entries v ->
  exists c, In (v, c) entries /\ Forall (fun e => snd e <= c) entries.
Proof.
  intros (b & c & a & E & Hb & Ha). exists c. subst entries. split.
  - apply in_or_app. right. left. reflexivity.
  - apply Forall_app. split.
    + eapply Forall_impl; [|exact Hb]. simpl. intros; lia.
    + constructor; [simpl; lia | exact Ha].
Qed.

(** *** The tally *)

Context {EL : EqLaws (F:=F)}.

Lemma count_snoc (v x : F) l :
  count v (l ++ [x]) = count v l + (if feq x v then 1 else 0).
Proof.
  unfold count, len. rewrite filter_app, length_app. simpl.
  destruct (feq x v); simpl; lia.
Qed.

Lemma count_feq (a b : F) l : feq a b = true -> count a l = count b l.
Proof.
  intros H. unfold count. f_equal. apply filter_ext. intros x.
  destruct (feq x a) eqn:Ea, (feq x b) eqn:Eb; try reflexivity.
  - rewrite (feq_trans _ _ _ Ea H) in Eb. discriminate.
  - rewrite feq_sym in H. rewrite (feq_trans _ _ _ Eb H) in Ea. discriminate.
Qed.

Lemma count_nonneg (v : F) l : 0 <= count v l.
Proof. unfold count, len. lia. Qed.

Lemma count_zero (v : F) l :
  Forall (fun x => feq x v = false) l -> count v l = 0.
Proof.
  intros H. unfold count. induction H as [|x l Hx _ IH]; simpl; [reflexivity|].
  rewrite Hx. exact IH.
Qed.

(** What [counts[v]++] does: the first entry of a key equal to [v] gets the
    key [v] and one more; with no such entry, [(v, 1)] is added. *)
Lemma incr_cases (v : F) counts :
  (exists before k c after,
      counts = before ++ (k, c) :: after /\
      feq k v = true /\
      Forall (fun e => feq (fst e) v = false) before /\
      incr v counts = before ++ (v, c + 1) :: after) \/
  (Forall (fun e => feq (fst e) v = false) counts /\
   incr v counts = counts ++ [(v, 1)]).
Proof.
  induction counts as [|[k c] rest IH]; simpl.
  - right. split; [constructor | reflexivity].
  - destruct (feq k v) eqn:E.
    + left. exists [], k, c, rest. simpl. repeat split; auto.
    + destruct IH as [(b & k' & c' & a & Hc & Hk & Hb & Hi) | [Hall Hi]].
      * left. exists ((k, c) :: b), k', c', a. subst rest. rewrite Hi. simpl.
        repeat split; auto.
      * right. rewrite Hi. split; auto.
Qed.


Lemma ForallOrdPairs_app_cons {A} (R : A -> A -> Prop) before x after :
  ForallOrdPairs R (before ++ x :: after) <->
  ForallOrdPairs R before /\ ForallOrdPairs R after /\
  Forall (fun a => R a x) before /\ Forall (R x) after /\
  Forall (fun a => Forall (R a) after) before.
Proof.
  induction before as [|b before IH]; simpl.
  - split.
    + intros H. inversion H; subst. repeat split; auto; constructor.
    + intros (_ & Ha & _ & Hx & _). now constructor.
  - split.
    + intros H. inversion H as [|? ? Hb Hrest]; subst.
      apply IH in Hrest. destruct Hrest as (H1 & H2 & H3 & H4 & H5).
      apply Forall_app in Hb. destruct Hb as [Hb1 Hb2].
      inversion Hb2; subst.
      repeat split; auto; constructor; auto.
    + intros (H1 & H2 & H3 & H4 & H5).
      inversion H1; subst. inversion H3; subst. inversion H5; subst.
      constructor.
      * apply Forall_app. split; auto.
      * apply IH. repeat split; auto.
Qed.


Lemma feq_false_trans (a b c : F) : feq a b = true -> feq a c = false -> feq b c = false.
Proof.
  intros Hab Hac. destruct (feq b c) eqn:E; [|reflexivity].
  rewrite (feq_trans _ _ _ Hab E) in Hac. discriminate.
Qed.

Lemma incr_tallied processed counts (v : F) :
  feq v v = true ->
  tallied processed counts ->
  tallied (processed ++ [v]) (incr v counts).
Proof.
  intros Hv [Hs Hc Hd].
  destruct (incr_cases v counts)
    as [(b & k & c & a & E & Hk & Hb & Hi) | [Hall Hi]]; rewrite Hi; clear Hi.
  - (* the entry of [k] is overwritten *)
    subst counts. unfold keys_distinct in Hd.
    apply ForallOrdPairs_app_cons in Hd. destruct Hd as (D1 & D2 & D3 & D4 & D5).
    assert (Hvk : feq v k = true) by (rewrite feq_sym; exact Hk).
    assert (Hother : forall k2 c2, In (k2, c2) (b ++ a) -> feq v k2 = false).
    { intros k2 c2 Hin. apply in_app_or in Hin. destruct Hin as [Hin | Hin].
      - rewrite Forall_forall in Hb. rewrite feq_sym. apply (Hb _ Hin).
      - rewrite Forall_forall in D4. apply (feq_false_trans _ _ _ Hk).
        apply (D4 _ Hin). }
    constructor.
    + intros k2 c2 Hin. apply in_app_or in Hin. simpl in Hin.
      assert (Hold : In (k2, c2) (b ++ a) ->
                     In k2 (processed ++ [v]) /\ c2 = count k2 (processed ++ [v]) /\ 1 <= c2).
      { intros Hin'. destruct (Hs k2 c2) as (H1 & H2 & H3).
        - apply in_app_or in Hin'. apply in_or_app. simpl. tauto.
        - rewrite count_snoc, (Hother _ _ Hin'). repeat split; auto.
          + apply in_or_app. auto.
          + lia. }
      destruct Hin as [Hin | [Hin | Hin]].
      * apply Hold. apply in_or_app. auto.
      * inversion Hin; subst k2 c2. destruct (Hs k c) as (H1 & H2 & H3).
        { apply in_or_app. simpl. auto. }
        rewrite count_snoc, Hv, (count_feq _ _ _ Hvk). repeat split; try lia.
        apply in_or_app. simpl. auto.
      * apply Hold. apply in_or_app. auto.
    + intros u Hu. apply in_app_or in Hu. simpl in Hu. destruct Hu as [Hu | [Hu | []]].
      * destruct (Hc u Hu) as (k2 & c2 & Hin & Hf).
        apply in_app_or in Hin. simpl in Hin. destruct Hin as [Hin | [Hin | Hin]].
        -- exists k2, c2. split; [apply in_or_app; auto | exact Hf].
        -- inversion Hin; subst k2 c2. exists v, (c + 1).
           split; [apply in_or_app; simpl; auto | exact (feq_trans _ _ _ Hvk Hf)].
        -- exists k2, c2. split; [apply in_or_app; simpl; auto | exact Hf].
      * subst u. exists v, (c + 1). split; [apply in_or_app; simpl; auto | exact Hv].
    + unfold keys_distinct. apply ForallOrdPairs_app_cons.
      repeat split; auto.
      rewrite Forall_forall in *. intros e He. simpl.
      specialize (D4 e He). simpl in D4. apply (feq_false_trans _ _ _ Hk D4).
  - (* a new entry *)
    constructor.
    + intros k2 c2 Hin. apply in_app_or in Hin. simpl in Hin.
      destruct Hin as [Hin | [Hin | []]].
      * destruct (Hs k2 c2 Hin) as (H1 & H2 & H3).
        rewrite Forall_forall in Hall. specialize (Hall _ Hin). simpl in Hall.
        rewrite count_snoc, feq_sym, Hall. repeat split; auto; try lia.
        apply in_or_app. auto.
      * inversion Hin; subst k2 c2. rewrite count_snoc, Hv.
        rewrite count_zero; [repeat split; try lia; apply in_or_app; simpl; auto|].
        rewrite Forall_forall. intros x Hx.
        destruct (Hc x Hx) as (k2 & c2 & Hin2 & Hf).
        rewrite Forall_forall in Hall. specialize (Hall _ Hin2). simpl in Hall.
        apply (feq_false_trans _ _ _ Hf Hall).
    + intros u Hu. apply in_app_or in Hu. simpl in Hu. destruct Hu as [Hu | [Hu | []]].
      * destruct (Hc u Hu) as (k2 & c2 & Hin & Hf). exists k2, c2.
        split; [apply in_or_app; auto | exact Hf].
      * subst u. exists v, 1. split; [apply in_or_app; simpl; auto | exact Hv].
    + unfold keys_distinct in *.
      replace (counts ++ [(v, 1)]) with (counts ++ (v, 1) :: []) by reflexivity.
      apply ForallOrdPairs_app_cons. repeat split; auto; try constructor.
      rewrite Forall_forall in *. intros e He. constructor.
Qed.

Lemma tally_snoc (l : list F) v : tally (l ++ [v]) = incr v (tally l).
Proof. unfold tally. now rewrite fold_left_app. Qed.

Lemma tally_tallied (l : list F) :
  Forall (fun v => feq v v = true) l -> tallied l (tally l).
Proof.
  induction l as [|v l IH] using rev_ind; intros Hl.
  - constructor; simpl; try tauto. constructor.
  - apply Forall_app in Hl. destruct Hl as [Hl Hv]. inversion Hv; subst.
    rewrite tally_snoc. apply incr_tallied; auto.
Qed.

(** The tally lists the classes with their numbers of votes, and so does
    any order of visiting it. *)
Lemma tally_vote_counts (l : list F) entries :
  Forall (fun v => feq v v = true) l ->
  Permutation entries (tally l) ->
  vote_counts l entries /\ Forall (fun e => 1 <= snd e) entries.
Proof.
  intros Hl Hp. destruct (tally_tallied Hl) as [Hs Hc _].
  split; [split|].
  - intros k c Hin. apply (Permutation_in _ Hp) in Hin.
    destruct (Hs k c Hin) as (H1 & H2 & _). auto.
  - intros v Hv. destruct (Hc v Hv) as (k & c & Hin & Hf).
    exists k, c. split; [|exact Hf].
    apply (Permutation_in _ (Permutation_sym Hp)). exact Hin.
  - rewrite Forall_forall. intros [k c] Hin. apply (Permutation_in _ Hp) in Hin.
    destruct (Hs k c Hin) as (_ & _ & H3). exact H3.
Qed.

Lemma tally_nonempty (l : list F) : l <> [] -> tally l <> [].
Proof.
  destruct l as [|v l] using rev_ind; [congruence|]. intros _.
  rewrite tally_snoc. destruct (tally l) as [|[k c] rest]; simpl; [discriminate|].
  destruct (feq k v); discriminate.
Qed.

(** The class of an entry of greatest count is a most frequent label. *)
Lemma first_max_most_frequent (votes : list F) entries v :
  vote_counts votes entries ->
  first_max entries v ->
  In v votes /\ forall u, In u votes -> count u votes <= count v votes.
Proof.
  intros [Hs Hc] Hfm. destruct (first_max_in Hfm) as (c & Hin & Hall).
  destruct (Hs v c Hin) as [Hv Hcount]. split; [exact Hv|].
  intros u Hu. destruct (Hc u Hu) as (k & c' & Hin' & Hf).
  destruct (Hs k c' Hin') as [_ Hc'].
  rewrite Forall_forall in Hall. specialize (Hall _ Hin'). simpl in Hall.
  rewrite feq_sym in Hf. rewrite (count_feq _ _ _ Hf). lia.
Qed.

(** The vote: the class of the first entry of greatest count, in the order
    in which the run time visits the map of the counts. *)
Lemma majorityVote_first_max iter_src (votes : list F) w :
  votes <> [] ->
  Forall (fun v => feq v v = true) votes ->
  exists entries,
    entries = range_order (iter_src (iter_pos w)) (tally votes) /\
    vote_counts votes entries /\
    first_max entries (scan_votes entries) /\
    majorityVote iter_src votes w
      = Ret (scan_votes entries) (mkWorld (rand_pos w) (S (iter_pos w))).
Proof.
  intros Hne Hl. eexists. split; [reflexivity|].
  pose proof (range_order_perm (iter_src (iter_pos w)) (tally votes)) as Hp.
  destruct (tally_vote_counts Hl Hp) as [Hvc Hpos].
  split; [exact Hvc|]. split; [|reflexivity].
  apply scan_votes_first_max; [|exact Hpos].
  intros E. rewrite E in Hp. apply Permutation_nil in Hp.
  now apply tally_nonempty in Hp.
Qed.

End Votes.

(** ** Leaves and prediction *)

Lemma index_app_middle {A} (before : list A) x after :
  index (before ++ x :: after) (len before) = Val x.
Proof.
  unfold index, len. destruct (Z.of_nat (length before) <? 0) eqn:E.
  - apply Z.ltb_lt in E. lia.
  - rewrite Nat2Z.id, nth_error_app2 by lia. now rewrite Nat.sub_diag.
Qed.

Lemma index_nth {A} (l : list A) i d :
  0 <= i < len l -> index l i = Val (nth (Z.to_nat i) l d).
Proof.
  unfold index, len. intros H. destruct (i <? 0) eqn:E.
  - apply Z.ltb_lt in E. lia.
  - destruct (nth_error l (Z.to_nat i)) eqn:En.
    + now rewrite (nth_error_nth _ _ d En).
    + apply nth_error_None in En. lia.
Qed.

Lemma index_app_l {A} (l extra : list A) i a :
  index l i = Val a -> index (l ++ extra) i = Val a.
Proof.
  unfold index. destruct (i <? 0); [discriminate|].
  destruct (nth_error l (Z.to_nat i)) eqn:E; [|discriminate].
  intros H. rewrite nth_error_app1; [now rewrite E|].
  apply nth_error_Some. congruence.
Qed.

Lemma len_app {A} (l1 l2 : list A) : len (l1 ++ l2) = len l1 + len l2.
Proof. unfold len. rewrite length_app. lia. Qed.

Lemma set_nth_app_middle {A} (before : list A) x y after :
  set_nth (length before) y (before ++ x :: after) = before ++ y :: after.
Proof. induction before as [|b before IH]; simpl; [reflexivity | now rewrite IH]. Qed.

Lemma assign_app_middle {A} (before : list A) x y after :
  assign (before ++ x :: after) (len before) y = Val (before ++ y :: after).
Proof.
  unfold assign. rewrite len_app. unfold len. simpl length.
  destruct (Z.of_nat (length before) <? 0) eqn:E1; [apply Z.ltb_lt in E1; lia|].
  destruct (_ <=? _) eqn:E2; [apply Z.leb_le in E2; lia|].
  simpl. now rewrite Nat2Z.id, set_nth_app_middle.
Qed.

Section Leaves.

Context {F : Type} {FO : Float64 F}.

Lemma isSameClass_all_equal (y : list F) :
  (forall a b, In a y -> In b y -> feq a b = true) -> isSameClass y = true.
Proof.
  destruct y as [|y0 rest]; [reflexivity|]. intros H. simpl.
  apply forallb_forall. intros v Hv. apply H; simpl; auto.
Qed.

Lemma sameFrom_identical (before x0 row : list F) :
  Forall2 (fun a b => feq a b = true) row x0 ->
  sameFrom (before ++ x0) row (len before) = Val true.
Proof.
  intros H. revert before. induction H as [|a b row x0 Hab _ IH]; intros before; simpl.
  - reflexivity.
  - rewrite index_app_middle. simpl. rewrite Hab. simpl.
    replace (before ++ b :: x0) with ((before ++ [b]) ++ x0)
      by (rewrite <- app_assoc; reflexivity).
    replace (len before + 1) with (len (before ++ [b])) by (rewrite len_app; reflexivity).
    apply IH.
Qed.

Lemma rows_identical_isSameValue (X : list (list F)) :
  rows_identical X -> isSameValue X = Val true.
Proof.
  destruct X as [|x0 rows]; [reflexivity|]. simpl.
  induction 1 as [|row rows Hrow _ IH]; simpl; [reflexivity|].
  assert (E : sameFrom x0 (tl row) 1 = Val true).
  { destruct Hrow as [|a b row x0 Hab Hrest]; [reflexivity|]. simpl.
    apply (sameFrom_identical [b] Hrest). }
  rewrite E. simpl. exact IH.
Qed.

(** The stopping rule holds in each of the three cases of the claim. *)
Lemma stops_true X (y : list F) depth :
  depth = 0 \/ (forall a b, In a y -> In b y -> feq a b = true) \/ rows_identical X ->
  stops X y depth = Val true.
Proof.
  unfold stops. intros [H | [H | H]].
  - subst. reflexivity.
  - rewrite (isSameClass_all_equal _ H). now rewrite orb_true_r.
  - destruct (_ || _); [reflexivity | now apply rows_identical_isSameValue].
Qed.

(** *** One tree *)

Lemma traverse_descend sample (t : Tree (F:=F)) :
  forall node,
    tree_of node = Some t -> covers sample t ->
    traverseNode sample node = Val (descend sample t).
Proof.
  induction t as [p | fi thr tl IHl tr IHr]; intros [fi' thr' p' [l|] [r|]] H Hc;
    simpl in H; try discriminate.
  - destruct (tree_of l), (tree_of r); discriminate.
  - inversion H. reflexivity.
  - destruct (tree_of l) as [tl'|] eqn:El; [|discriminate].
    destruct (tree_of r) as [tr'|] eqn:Er; [|discriminate].
    inversion H; subst. destruct Hc as (Hfi & Hcl & Hcr).
    simpl. rewrite (index_nth _ (of_int 0) Hfi). simpl.
    destruct (flt _ thr); [now apply IHl | now apply IHr].
Qed.

Lemma predictLoop_descend sample trees (ts : list (Tree (F:=F))) :
  Forall2 holds_tree trees ts ->
  Forall (covers sample) ts ->
  forall done rest,
    length rest = length trees ->
    predictLoop sample trees (len done) (done ++ rest)
      = Val (done ++ map (descend sample) ts).
Proof.
  induction 1 as [|slot t trees ts Hslot _ IH]; intros Hc done rest Hlen.
  - destruct rest; [|discriminate]. reflexivity.
  - destruct rest as [|r0 rest]; [discriminate|].
    inversion Hc; subst.
    destruct Hslot as (dt & root & -> & Hroot & Ht).
    cbn [predictLoop PredictDecisionTree]. rewrite Hroot. unfold traverseTree.
    rewrite (traverse_descend _ _ Ht) by assumption. cbn [rbind].
    rewrite assign_app_middle. cbn [rbind].
    replace (done ++ descend sample t :: rest)
      with ((done ++ [descend sample t]) ++ rest) by (rewrite <- app_assoc; reflexivity).
    replace (len done + 1) with (len (done ++ [descend sample t]))
      by (rewrite len_app; reflexivity).
    rewrite IH; auto. simpl. now rewrite <- app_assoc.
Qed.

Context {EL : EqLaws (F:=F)}.
Variable rand_src : nat -> Z.
Variable iter_src : nat -> nat.

(** C6, as the code has it. A build step on labels [y], not empty, returns
    a Leaf when [depth == 0], or all the labels are equal, or all the rows
    are identical. For classification its prediction is the most frequent
    label, a tie going to the label whose count is met first in the order
    in which the run time visits the map of the counts (the labels being
    numbers, none NaN); otherwise it is the sum of the labels divided by
    their number. *)
Theorem buildTree_leaf fuel dt X y depth w :
  y <> [] ->
  depth = 0 \/ (forall a b, In a y -> In b y -> feq a b = true) \/ rows_identical X ->
  exists prediction w',
    buildTree rand_src iter_src (S fuel) dt X y depth w
      = Ret (Some (leaf prediction)) w' /\
    if String.eqb (dtTask dt) "classification" then
      Forall (fun v => feq v v = true) y ->
      (forall v, In v y -> count v y <= count prediction y) /\
      exists entries,
        entries = range_order (iter_src (iter_pos w)) (tally y) /\
        vote_counts y entries /\
        first_max entries prediction
    else
      prediction = fdiv (sum y) (of_int (len y)) /\ w' = w.
Proof.
  intros Hne Hstop.
  rewrite buildTree_step.
  apply len_nonzero in Hne. rewrite Hne. apply len_nonzero in Hne.
  rewrite (stops_true _ _ Hstop).
  unfold getLeafPrediction, dt_majorityVote, dt_mean, mean.
  destruct (String.eqb (dtTask dt) "classification").
  - exists (scan_votes (range_order (iter_src (iter_pos w)) (tally y))),
      (mkWorld (rand_pos w) (S (iter_pos w))).
    split; [reflexivity|]. intros Hnum.
    destruct (majorityVote_first_max iter_src w Hne Hnum)
      as (entries & He & Hvc & Hfm & _).
    subst entries. split.
    + apply (first_max_most_frequent Hvc Hfm).
    + eexists. split; [reflexivity | auto].
  - exists (fdiv (sum y) (of_int (len y))), w. split; [reflexivity | auto].
Qed.

(** On a forest whose slots hold trees of the data model (every node with
    no child or both), and a sample that has every feature the trees test,
    the prediction descends each tree from the root, left exactly when
    [sample[featureIndex] < threshold], and aggregates the leaf values: for
    classification the class of the first entry of greatest count, scanning
    the vote counts in the order the run time visits them; for regression
    their sum divided by their number. *)
Lemma PredictRandomForest_aggregates rf sample ts w :
  NumTrees rf = len (Trees rf) ->
  Forall2 holds_tree (Trees rf) ts ->
  Forall (covers sample) ts ->
  ts <> [] ->
  let votes := map (descend sample) ts in
  Forall (fun v => feq v v = true) votes ->
  if String.eqb (Task rf) "classification" then
    exists entries,
      entries = range_order (iter_src (iter_pos w)) (tally votes) /\
      vote_counts votes entries /\
      first_max entries (scan_votes entries) /\
      PredictRandomForest iter_src rf sample w
        = Ret (scan_votes entries) (mkWorld (rand_pos w) (S (iter_pos w)))
  else if String.eqb (Task rf) "regression" then
    PredictRandomForest iter_src rf sample w
      = Ret (fdiv (sum votes) (of_int (len votes))) w
  else
    PredictRandomForest iter_src rf sample w = Ret NaN w.
Proof.
  intros Hn Htrees Hc Hne votes Hnum.
  assert (Hloop : predictLoop sample (Trees rf) 0 (repeat (of_int 0) (Z.to_nat (NumTrees rf)))
                  = Val votes).
  { apply predictLoop_descend with (done := []); auto.
    rewrite repeat_length, Hn. unfold len. now rewrite Nat2Z.id. }
  assert (Hmake : make (of_int 0) (NumTrees rf)
                  = Val (repeat (of_int 0) (Z.to_nat (NumTrees rf)))).
  { unfold make. destruct (NumTrees rf <? 0) eqn:E; [|reflexivity].
    apply Z.ltb_lt in E. unfold len in Hn. lia. }
  assert (Hrun : PredictRandomForest iter_src rf sample w
                 = (if String.eqb (Task rf) "classification" then rf_majorityVote iter_src votes
                    else if String.eqb (Task rf) "regression" then ret (rf_mean votes)
                    else ret NaN) w).
  { unfold PredictRandomForest, bind. rewrite Hmake. simpl. rewrite Hloop. reflexivity. }
  rewrite Hrun. clear Hrun.
  destruct (String.eqb (Task rf) "classification").
  - assert (Hv : votes <> []) by (subst votes; destruct ts; [congruence | discriminate]).
    destruct (majorityVote_first_max iter_src w Hv Hnum)
      as (entries & He & Hvc & Hfm & Hrun).
    exists entries. auto.
  - destruct (String.eqb (Task rf) "regression"); reflexivity.
Qed.

End Leaves.

(** ** The laws of [==] hold in both arithmetics *)

#[export] Instance exact_EqLaws : EqLaws (F:=Exact.xq).
Proof.
  split.
  - intros [a| | |] [b| | |]; simpl; try reflexivity.
    destruct (Qc_eq_dec a b), (Qc_eq_dec b a); congruence.
  - intros [a| | |] [b| | |] [c| | |]; simpl; try discriminate; try reflexivity.
    destruct (Qc_eq_dec a b), (Qc_eq_dec b c), (Qc_eq_dec a c); congruence.
Qed.


Lemma finite_compare_eq m1 m2 e1 e2 :
  match e1 ?= e2 with
  | Eq => Pos.compare_cont Eq m1 m2
  | Lt => Lt
  | Gt => Gt
  end = Eq <-> m1 = m2 /\ e1 = e2.
Proof.
  destruct (Z.compare_spec e1 e2) as [E | E | E].
  - subst e2. change (Pos.compare_cont Eq m1 m2) with (Pos.compare m1 m2).
    rewrite Pos.compare_eq_iff. tauto.
  - split; [discriminate | intros [_ H]; lia].
  - split; [discriminate | intros [_ H]; lia].
Qed.

Lemma finite_compare_opp_eq m1 m2 e1 e2 :
  match e1 ?= e2 with
  | Eq => CompOpp (Pos.compare_cont Eq m1 m2)
  | Lt => Gt
  | Gt => Lt
  end = Eq <-> m1 = m2 /\ e1 = e2.
Proof.
  destruct (Z.compare_spec e1 e2) as [E | E | E].
  - subst e2. change (Pos.compare_cont Eq m1 m2) with (Pos.compare m1 m2).
    rewrite <- Pos.compare_eq_iff. destruct (Pos.compare m1 m2); simpl; split; intros H;
      try discriminate; try tauto; destruct H; discriminate.
  - split; [discriminate | intros [_ H]; lia].
  - split; [discriminate | intros [_ H]; lia].
Qed.

Lemma comparison_eq_true (c : comparison) :
  match c with Eq => true | _ => false end = true <-> c = Eq.
Proof. destruct c; split; congruence. Qed.

Lemma SFeqb_compared_as f1 f2 :
  SFeqb f1 f2 = true <-> compared_as f1 = compared_as f2 /\ compared_as f1 <> None.
Proof.
  unfold SFeqb.
  destruct f1 as [s1|s1| |s1 m1 e1], f2 as [s2|s2| |s2 m2 e2]; simpl;
    try (destruct s1); try (destruct s2);
    try solve [split; [discriminate | intros [H1 H2]; congruence]];
    try solve [split; [intros _; split; congruence | reflexivity]].
  - rewrite comparison_eq_true, finite_compare_opp_eq. split.
    + intros [-> ->]. split; congruence.
    + intros [H _]. inversion H. auto.
  - rewrite comparison_eq_true, finite_compare_eq. split.
    + intros [-> ->]. split; congruence.
    + intros [H _]. inversion H. auto.
Qed.

#[export] Instance binary64_EqLaws : EqLaws (F:=float).
Proof.
  split; simpl.
  - intros a b. rewrite !FloatAxioms.eqb_spec. apply eq_true_iff_eq.
    rewrite !SFeqb_compared_as. split; intros [H1 H2]; split; congruence.
  - intros a b c. rewrite !FloatAxioms.eqb_spec, !SFeqb_compared_as.
    intros [H1 H2] [H3 H4]. split; congruence.
Qed.

(** ** No validation at the entry points *)

Lemma bind_ext {A B} (m1 m2 : M A) (k1 k2 : A -> M B) w :
  m1 w = m2 w ->
  (forall a w1, m1 w = Ret a w1 -> k1 a w1 = k2 a w1) ->
  bind m1 k1 w = bind m2 k2 w.
Proof.
  intros Hm Hk. unfold bind. rewrite <- Hm.
  destruct (m1 w) as [a w1| |]; auto.
Qed.

Lemma repeatM_ext {A} n (m1 m2 : M A) :
  (forall w, m1 w = m2 w) -> forall w, repeatM n m1 w = repeatM n m2 w.
Proof.
  intros Hm. induction n as [|n IH]; intros w; simpl; [reflexivity|].
  apply bind_ext; [apply Hm | intros a w1 _].
  apply bind_ext; [apply IH | reflexivity].
Qed.

Lemma index_firstn_rows {A B} (X : list A) (y : list B) i x :
  index X i = Val x -> index (firstn (length X) y) i = index y i.
Proof.
  unfold index. destruct (i <? 0); [reflexivity|].
  destruct (nth_error X (Z.to_nat i)) eqn:E; [|discriminate]. intros _.
  assert (Z.to_nat i < length X)%nat by (apply nth_error_Some; congruence).
  now rewrite nth_error_firstn, (proj2 (Nat.ltb_lt _ _) H).
Qed.

Section EntryPoints.

Context {F : Type} {FO : Float64 F}.
Variable rand_src : nat -> Z.
Variable iter_src : nat -> nat.

Lemma Node_induction (P : Node (F:=F) -> Prop) :
  (forall featureIndex threshold prediction l r,
      (forall n, l = Some n -> P n) ->
      (forall n, r = Some n -> P n) ->
      P (mkNode featureIndex threshold prediction l r)) ->
  forall node, P node.
Proof.
  intros H.
  refine (fix IH node :=
            match node with
            | mkNode fi thr p l r => H fi thr p l r (fun n E => _) (fun n E => _)
            end).
  - destruct l as [l'|]; [|discriminate]. injection E as <-. apply IH.
  - destruct r as [r'|]; [|discriminate]. injection E as <-. apply IH.
Qed.

(** Columns beyond those a tree tests are never read. *)
Lemma traverseNode_extend (sample extra : list F) node v :
  traverseNode sample node = Val v ->
  traverseNode (sample ++ extra) node = Val v.
Proof.
  revert v. induction node as [fi thr p l r IHl IHr] using Node_induction.
  intros v H.
  assert (Hstep : forall s,
             traverseNode s (mkNode fi thr p l r) =
             match l, r with
             | None, None => Val p
             | _, _ =>
                 x <-! index s fi ;;
                 if flt x thr then
                   match l with Some n => traverseNode s n | None => Fault NilDereference end
                 else
                   match r with Some n => traverseNode s n | None => Fault NilDereference end
             end).
  { intros s. destruct l, r; reflexivity. }
  rewrite Hstep in *.
  destruct l as [ln|], r as [rn|]; try exact H;
    apply rbind_Val in H; destruct H as (x & Hx & H);
    rewrite (@index_app_l _ sample extra fi x Hx); simpl;
    destruct (flt x thr); try discriminate; eauto.
Qed.

Lemma predictLoop_extend (sample extra : list F) trees :
  forall i predictions result,
    predictLoop sample trees i predictions = Val result ->
    predictLoop (sample ++ extra) trees i predictions = Val result.
Proof.
  induction trees as [|tree trees IH]; intros i predictions result H; simpl in *; [exact H|].
  apply rbind_Val in H. destruct H as (v & Hv & H).
  apply rbind_Val in H. destruct H as (ps & Hps & H).
  assert (Hv' : PredictDecisionTree tree (sample ++ extra) = Val v).
  { destruct tree as [dt|]; [|discriminate]. simpl in *.
    destruct (Root dt) as [root|]; [|discriminate]. simpl in *.
    now apply traverseNode_extend. }
  rewrite Hv'. simpl. rewrite Hps. simpl. now apply IH.
Qed.

Lemma selectFeatures_draws n numFeatures w :
  0 < numFeatures ->
  exists selected w',
    repeatM n (Intn rand_src numFeatures) w = Ret selected w' /\
    length selected = n /\
    Forall (fun f => 0 <= f < numFeatures) selected.
Proof.
  intros Hn. revert w. induction n as [|n IH]; intros w; simpl.
  - exists [], w. repeat split. constructor.
  - unfold bind at 1. unfold Intn at 1.
    destruct (numFeatures <=? 0) eqn:E; [apply Z.leb_le in E; lia|].
    destruct (IH (mkWorld (S (rand_pos w)) (iter_pos w))) as (sel & w' & Hr & Hl & Hf).
    unfold bind. rewrite Hr. eexists. eexists. split; [reflexivity|].
    simpl. split; [lia|]. constructor; [|exact Hf].
    apply Z.mod_pos_bound. lia.
Qed.

(** C1, as the code has it. Training checks neither the hyperparameters
    nor the dataset. With [NumTrees <= 0] it returns at once and leaves the
    forest as it was. Only the first [len(X)] labels are read: the run on
    [y] is the run on [y] cut to the number of rows. [MaxFeatures] greater
    than the number of features is accepted: that many features are drawn,
    with repetition. *)
Theorem TrainRandomForest_unvalidated fuel rf X (y : list F) w :
  (NumTrees rf <= 0 ->
   TrainRandomForest rand_src iter_src fuel rf X y w = Ret rf w) /\
  TrainRandomForest rand_src iter_src fuel rf X y w
    = TrainRandomForest rand_src iter_src fuel rf X (firstn (length X) y) w /\
  (forall (dt : DecisionTree (F:=F)) numFeatures,
      0 < numFeatures <= dtMaxFeatures dt ->
      exists selected w',
        selectFeatures rand_src dt numFeatures w = Ret selected w' /\
        len selected = dtMaxFeatures dt /\
        Forall (fun f => 0 <= f < numFeatures) selected).
Proof.
  split; [|split].
  - intros Hn. unfold TrainRandomForest.
    replace (Z.to_nat (NumTrees rf)) with O by lia. reflexivity.
  - unfold TrainRandomForest.
    generalize (Z.to_nat (NumTrees rf)) as n. generalize 0 as i. revert rf w.
    intros rf w i n. revert rf w i.
    induction n as [|n IH]; intros rf w i; simpl; [reflexivity|].
    apply bind_ext.
    + unfold bootstrapSample.
      apply bind_ext; [reflexivity | intros _ w1 _].
      apply bind_ext; [|reflexivity].
      apply repeatM_ext. intros w2. unfold bootstrapDraw.
      apply bind_ext; [reflexivity | intros j w3 _].
      destruct (index X j) as [x|p] eqn:Ex; [|reflexivity].
      unfold bind at 1 3. simpl.
      rewrite (@index_firstn_rows _ _ X y j x Ex). reflexivity.
    + intros [XS yS] w1 _.
      apply bind_ext; [reflexivity | intros tree w2 _].
      apply bind_ext; [reflexivity | intros trees w3 _]. apply IH.
  - intros dt numFeatures [Hn Hm]. unfold selectFeatures, make.
    destruct (dtMaxFeatures dt <? 0) eqn:E; [apply Z.ltb_lt in E; lia|].
    unfold bind at 1. simpl.
    destruct (selectFeatures_draws (Z.to_nat (dtMaxFeatures dt)) w Hn)
      as (sel & w' & Hr & Hl & Hf).
    exists sel, w'. split; [exact Hr|]. split; [|exact Hf].
    unfold len. rewrite Hl. lia.
Qed.

(** C2, as the code has it. Prediction checks neither that the forest is
    trained nor the length of the sample. On a forest made for
    [numTrees > 0] trees and not trained it panics on a nil pointer; on a
    forest of no tree it returns the zero value (classification) or [0/0]
    (regression); and a sample on which it returns a value may be extended
    by any further columns without changing that value. *)
Theorem PredictRandomForest_unvalidated numTrees maxDepth maxFeatures task rf
  (sample extra : list F) w :
  NewRandomForest numTrees maxDepth maxFeatures task = Val rf ->
  (0 < numTrees -> PredictRandomForest iter_src rf sample w = Panic NilDereference) /\
  (numTrees = 0 ->
   PredictRandomForest iter_src rf sample w =
   if String.eqb task "classification"
   then Ret (of_int 0) (mkWorld (rand_pos w) (S (iter_pos w)))
   else if String.eqb task "regression"
   then Ret (fdiv (of_int 0) (of_int 0)) w
   else Ret NaN w) /\
  (forall (trained : RandomForest (F:=F)) v w',
      PredictRandomForest iter_src trained sample w = Ret v w' ->
      PredictRandomForest iter_src trained (sample ++ extra) w = Ret v w').
Proof.
  intros Hnew. unfold NewRandomForest, make in Hnew.
  destruct (numTrees <? 0) eqn:E; [discriminate|]. apply Z.ltb_ge in E.
  simpl in Hnew. inversion Hnew; subst rf; clear Hnew.
  split; [|split].
  - intros Hn. unfold PredictRandomForest, make. simpl.
    destruct (numTrees <? 0) eqn:E'; [apply Z.ltb_lt in E'; lia|].
    unfold bind. simpl.
    destruct (Z.to_nat numTrees) as [|n] eqn:En; [lia|]. reflexivity.
  - intros ->. unfold PredictRandomForest. simpl.
    destruct (String.eqb task "classification"); [reflexivity|].
    destruct (String.eqb task "regression"); reflexivity.
  - intros trained v w' H. unfold PredictRandomForest in *.
    apply bind_Ret in H. destruct H as (ps & w1 & Hmake & H).
    apply bind_Ret in H. destruct H as (ps' & w2 & Hloop & H).
    inv_run Hmake. inv_run Hloop.
    unfold bind. rewrite E0. simpl.
    rewrite (@predictLoop_extend sample extra _ _ _ _ E1). simpl. exact H.
Qed.

End EntryPoints.

(** ** What a run depends on *)

Section Determinism.

Context {F : Type} {FO : Float64 F}.
Variables rs1 rs2 : nat -> Z.
Variables is1 is2 : nat -> nat.


Lemma agree_from_le {A} p q (f g : nat -> A) :
  (p <= q)%nat -> agree_from p f g -> agree_from q f g.
Proof. intros Hpq H n Hn. apply H. lia. Qed.

Lemma same_run_ret {A} maps (a : A) : same_run rs1 rs2 is1 is2 maps (ret a) (ret a).
Proof.
  intros w _ _. split; [reflexivity|]. intros a' w' H. inv_run H. lia.
Qed.

Lemma same_run_lift {A} maps (r : res A) : same_run rs1 rs2 is1 is2 maps (lift r) (lift r).
Proof.
  intros w _ _. split; [reflexivity|]. intros a' w' H. inv_run H. lia.
Qed.

Lemma same_run_bind {A B} maps (m1 m2 : M A) (k1 k2 : A -> M B) :
  same_run rs1 rs2 is1 is2 maps m1 m2 ->
  (forall a, same_run rs1 rs2 is1 is2 maps (k1 a) (k2 a)) ->
  same_run rs1 rs2 is1 is2 maps (bind m1 k1) (bind m2 k2).
Proof.
  intros Hm Hk w Hr Hi. destruct (Hm w Hr Hi) as [Em Hmono].
  unfold bind. rewrite <- Em. destruct (m1 w) as [a w1| |] eqn:E1.
  - destruct (Hmono a w1 eq_refl) as [Hr1 Hi1].
    destruct (Hk a w1) as [Ek Hkmono].
    + eapply agree_from_le; eauto.
    + intros Hmaps. eapply agree_from_le; eauto.
    + split; [exact Ek|]. intros b w' H.
      destruct (Hkmono b w' H). lia.
  - split; [reflexivity | discriminate].
  - split; [reflexivity | discriminate].
Qed.

Lemma same_run_Intn maps n : same_run rs1 rs2 is1 is2 maps (Intn rs1 n) (Intn rs2 n).
Proof.
  intros w Hr _. unfold Intn. destruct (n <=? 0).
  - split; [reflexivity | discriminate].
  - rewrite (Hr (rand_pos w)) by lia. split; [reflexivity|].
    intros a w' H. inversion H; subst. simpl. lia.
Qed.

Lemma same_run_range_map {A} (m : list A) :
  same_run rs1 rs2 is1 is2 true (range_map is1 m) (range_map is2 m).
Proof.
  intros w _ Hi. unfold range_map. rewrite (Hi eq_refl (iter_pos w)) by lia.
  split; [reflexivity|]. intros a w' H. inversion H; subst. simpl. lia.
Qed.

Lemma same_run_repeatM {A} maps n (m1 m2 : M A) :
  same_run rs1 rs2 is1 is2 maps m1 m2 -> same_run rs1 rs2 is1 is2 maps (repeatM n m1) (repeatM n m2).
Proof.
  intros Hm. induction n as [|n IH]; simpl.
  - apply same_run_ret.
  - apply same_run_bind; [exact Hm | intros a].
    apply same_run_bind; [exact IH | intros rest]. apply same_run_ret.
Qed.


Lemma same_run_majorityVote (l : list F) :
  same_run rs1 rs2 is1 is2 true (majorityVote is1 l) (majorityVote is2 l).
Proof.
  unfold majorityVote.
  apply same_run_bind; [apply same_run_range_map | intros; apply same_run_ret].
Qed.

Lemma same_run_getLeafPrediction dt (y : list F) :
  same_run rs1 rs2 is1 is2 (uses_maps (dtTask dt)) (getLeafPrediction is1 dt y) (getLeafPrediction is2 dt y).
Proof.
  unfold getLeafPrediction, uses_maps, dt_majorityVote.
  destruct (String.eqb (dtTask dt) "classification").
  - apply same_run_majorityVote.
  - apply same_run_ret.
Qed.

Lemma same_run_giniImpurity (y : list F) :
  same_run rs1 rs2 is1 is2 true (giniImpurity is1 y) (giniImpurity is2 y).
Proof.
  unfold giniImpurity.
  apply same_run_bind; [apply same_run_range_map | intros; apply same_run_ret].
Qed.

Lemma same_run_calculateScore dt (l r : list F) :
  same_run rs1 rs2 is1 is2 (uses_maps (dtTask dt)) (calculateScore is1 dt l r) (calculateScore is2 dt l r).
Proof.
  unfold calculateScore, uses_maps.
  destruct (String.eqb (dtTask dt) "classification").
  - apply same_run_bind; [apply same_run_giniImpurity | intros lg].
    apply same_run_bind; [apply same_run_giniImpurity | intros rg]. apply same_run_ret.
  - destruct (String.eqb (dtTask dt) "regression"); apply same_run_ret.
Qed.

Lemma same_run_evaluateSplitPoints dt X (y : list F) featureIndex splitPoints best :
  same_run rs1 rs2 is1 is2 (uses_maps (dtTask dt))
    (evaluateSplitPoints is1 dt X y featureIndex splitPoints best)
    (evaluateSplitPoints is2 dt X y featureIndex splitPoints best).
Proof.
  revert best. induction splitPoints as [|t rest IH]; intros best; simpl.
  - apply same_run_ret.
  - apply same_run_bind; [apply same_run_lift | intros [l r]].
    apply same_run_bind; [apply same_run_calculateScore | intros score]. apply IH.
Qed.

Lemma same_run_findBestSplitForFeature dt X (y : list F) featureIndex :
  same_run rs1 rs2 is1 is2 (uses_maps (dtTask dt))
    (findBestSplitForFeature is1 dt X y featureIndex)
    (findBestSplitForFeature is2 dt X y featureIndex).
Proof.
  unfold findBestSplitForFeature.
  apply same_run_bind; [apply same_run_lift | intros values].
  apply same_run_bind; [apply same_run_lift | intros _].
  apply same_run_evaluateSplitPoints.
Qed.

Lemma same_run_evaluateFeatures dt X (y : list F) selectedFeatures best :
  same_run rs1 rs2 is1 is2 (uses_maps (dtTask dt))
    (evaluateFeatures is1 dt X y selectedFeatures best)
    (evaluateFeatures is2 dt X y selectedFeatures best).
Proof.
  revert best. induction selectedFeatures as [|f rest IH]; intros best; simpl.
  - apply same_run_ret.
  - apply same_run_bind; [apply same_run_findBestSplitForFeature | intros [t s]].
    apply IH.
Qed.

Lemma same_run_findBestSplit dt X (y : list F) selectedFeatures :
  same_run rs1 rs2 is1 is2 (uses_maps (dtTask dt))
    (findBestSplit is1 dt X y selectedFeatures)
    (findBestSplit is2 dt X y selectedFeatures).
Proof.
  unfold findBestSplit.
  apply same_run_bind; [apply same_run_evaluateFeatures | intros; apply same_run_ret].
Qed.

Lemma same_run_selectFeatures maps (dt : DecisionTree (F:=F)) numFeatures :
  same_run rs1 rs2 is1 is2 maps (selectFeatures rs1 dt numFeatures) (selectFeatures rs2 dt numFeatures).
Proof.
  unfold selectFeatures.
  apply same_run_bind; [apply same_run_lift | intros _].
  apply same_run_repeatM, same_run_Intn.
Qed.

Lemma same_run_buildTree fuel dt X (y : list F) depth :
  same_run rs1 rs2 is1 is2 (uses_maps (dtTask dt))
    (buildTree rs1 is1 fuel dt X y depth) (buildTree rs2 is2 fuel dt X y depth).
Proof.
  revert X y depth. induction fuel as [|fuel IH]; intros X y depth.
  - intros w _ _. split; [reflexivity | discriminate].
  - rewrite !buildTree_step. destruct (len y =? 0); [apply same_run_ret|].
    apply same_run_bind; [apply same_run_lift | intros [|]].
    + apply same_run_bind; [apply same_run_getLeafPrediction | intros; apply same_run_ret].
    + apply same_run_bind; [apply same_run_lift | intros x0].
      apply same_run_bind; [apply same_run_selectFeatures | intros sel].
      apply same_run_bind; [apply same_run_findBestSplit | intros [fi thr]].
      apply same_run_bind; [apply same_run_lift | intros [[[lX lY] rX] rY]].
      apply same_run_bind; [apply IH | intros l].
      apply same_run_bind; [apply IH | intros r]. apply same_run_ret.
Qed.

Lemma same_run_bootstrapSample maps X (y : list F) numSamples :
  same_run rs1 rs2 is1 is2 maps (bootstrapSample rs1 X y numSamples) (bootstrapSample rs2 X y numSamples).
Proof.
  unfold bootstrapSample.
  apply same_run_bind; [apply same_run_lift | intros _].
  apply same_run_bind; [|intros; apply same_run_ret].
  apply same_run_repeatM. unfold bootstrapDraw.
  apply same_run_bind; [apply same_run_Intn | intros i].
  apply same_run_bind; [apply same_run_lift | intros x].
  apply same_run_bind; [apply same_run_lift | intros v]. apply same_run_ret.
Qed.

Lemma same_run_trainLoop fuel X (y : list F) n i rf :
  same_run rs1 rs2 is1 is2 (uses_maps (Task rf))
    (trainLoop rs1 is1 fuel X y n i rf) (trainLoop rs2 is2 fuel X y n i rf).
Proof.
  revert i rf. induction n as [|n IH]; intros i rf; simpl.
  - apply same_run_ret.
  - apply same_run_bind; [apply same_run_bootstrapSample | intros [XS yS]].
    apply same_run_bind.
    + unfold TrainDecisionTree.
      apply same_run_bind; [|intros root].
      { apply (same_run_buildTree fuel
                 (NewDecisionTree (MaxDepth rf) (MaxFeatures rf) (Task rf)) XS yS). }
      apply same_run_ret.
    + intros tree. apply same_run_bind; [apply same_run_lift | intros trees].
      apply (IH (i + 1) (setTrees rf trees)).
Qed.

(** C5, as the code has it. Training takes no seed: it draws from the
    global source of [math/rand] and, for classification, ranges over maps.
    Two trainings on the same inputs end alike (same ensemble, or same
    panic) when the random source delivers the same numbers from the
    current state on and, for classification only, the maps are visited in
    the same orders; for any other task the orders are immaterial. *)
Theorem TrainRandomForest_deterministic fuel rf X (y : list F) w :
  agree_from (rand_pos w) rs1 rs2 ->
  (Task rf = "classification"%string -> agree_from (iter_pos w) is1 is2) ->
  TrainRandomForest rs1 is1 fuel rf X y w = TrainRandomForest rs2 is2 fuel rf X y w.
Proof.
  intros Hr Hi. unfold TrainRandomForest.
  apply (same_run_trainLoop fuel X y (Z.to_nat (NumTrees rf)) 0 rf w Hr).
  unfold uses_maps. intros E. apply Hi. now apply String.eqb_eq.
Qed.

End Determinism.

(** ** Gini impurity *)

Section TallyTotal.

Context {F : Type} {FO : Float64 F}.

Lemma total_incr (v : F) counts : total (incr v counts) = total counts + 1.
Proof.
  induction counts as [|[k c] rest IH]; simpl; [reflexivity|].
  destruct (feq k v); simpl; [lia|]. fold (total (incr v rest)). rewrite IH.
  fold (total rest). lia.
Qed.

Lemma total_tally (l : list F) : total (tally l) = len l.
Proof.
  induction l as [|v l IH] using rev_ind; [reflexivity|].
  rewrite tally_snoc, total_incr, IH, len_app. reflexivity.
Qed.

(** In every arithmetic the impurity of no label is the empty sum. *)
Lemma giniImpurity_nil iter_src w :
  giniImpurity iter_src ([] : list F) w
    = Ret (of_int 0) (mkWorld (rand_pos w) (S (iter_pos w))).
Proof. reflexivity. Qed.

Lemma total_map (f : F -> Z) cs :
  total (map (fun c => (c, f c)) cs) = fold_right Z.add 0 (map f cs).
Proof.
  induction cs as [|c cs IH]; simpl; [reflexivity|].
  fold (total (map (fun c => (c, f c)) cs)). now rewrite IH.
Qed.

Lemma total_perm (m m' : list (F * Z)) : Permutation m m' -> total m = total m'.
Proof.
  induction 1; simpl; lia.
Qed.

End TallyTotal.

Section Gini.
Context {F : Type} {FO : Float64 F} {EL : EqLaws}.
Variable iter_src : nat -> nat.


Lemma feq_refl_l (a b : F) : feq a b = true -> feq a a = true.
Proof.
  intros H. apply feq_trans with b; [exact H|]. rewrite feq_sym. exact H.
Qed.

Lemma feq_refl_r (a b : F) : feq a b = true -> feq b b = true.
Proof. intros H. rewrite feq_sym in H. now apply feq_refl_l with a. Qed.

Lemma feq_NaN_false (a b : F) : feq b b = false -> feq a b = false.
Proof.
  intros Hb. destruct (feq a b) eqn:E; [|reflexivity].
  rewrite (feq_refl_r _ _ E) in Hb. discriminate.
Qed.







End Gini.

(** ** The arithmetic of the sizes of the sides, in binary64 *)

(** What [WeightLaws] asks of binary64, from the specification of the
    primitive floats: [float64(n)] is a finite positive float for
    [0 < n <= max_int] ([binary64_of_int_pos]); a finite float over itself
    is 1 ([SFdiv_self]); 1 times a float is that float ([SFmul_one_l]); a
    sum is the negative zero only when both terms are ([SFadd_neg_zero]);
    the sum of two sizes, and the quotient of a size by such a sum, are
    finite ([SFadd_count], [SFdiv_count]). *)

(** The number of binary digits of a mantissa. *)
Lemma digits2_pos_bounds (p : positive) :
  2 ^ (Z.pos (digits2_pos p) - 1) <= Z.pos p < 2 ^ Z.pos (digits2_pos p).
Proof.
  induction p as [p IH|p IH|]; cbn [digits2_pos].
  - rewrite Pos2Z.inj_succ. replace (Z.succ (Z.pos (digits2_pos p)) - 1) with (Z.pos (digits2_pos p)) by lia.
    rewrite Z.pow_succ_r by lia.
    replace (Z.pos (digits2_pos p)) with (Z.succ (Z.pos (digits2_pos p) - 1)) at 1 by lia.
    rewrite Z.pow_succ_r by lia. lia.
  - rewrite Pos2Z.inj_succ. replace (Z.succ (Z.pos (digits2_pos p)) - 1) with (Z.pos (digits2_pos p)) by lia.
    rewrite Z.pow_succ_r by lia.
    replace (Z.pos (digits2_pos p)) with (Z.succ (Z.pos (digits2_pos p) - 1)) at 1 by lia.
    rewrite Z.pow_succ_r by lia. lia.
  - simpl. lia.
Qed.

Lemma Zdigits2_unique (m d : Z) :
  0 < d -> 2 ^ (d - 1) <= m < 2 ^ d -> Zdigits2 m = d.
Proof.
  intros Hd [Hlo Hhi].
  assert (0 < m) by (pose proof (Z.pow_pos_nonneg 2 (d - 1)); lia).
  destruct m as [|p|p]; try lia. simpl.
  pose proof (digits2_pos_bounds p) as [Blo Bhi].
  set (d' := Z.pos (digits2_pos p)) in *.
  destruct (Z.lt_trichotomy d' d) as [L | [E | G]]; [|exact E|].
  - assert (2 ^ d' <= 2 ^ (d - 1)) by (apply Z.pow_le_mono_r; lia). lia.
  - assert (2 ^ d <= 2 ^ (d' - 1)) by (apply Z.pow_le_mono_r; lia). lia.
Qed.

(** Shifting a mantissa to the right. *)
Lemma shr_1_m mrs : 0 <= shr_m mrs -> shr_m (shr_1 mrs) = shr_m mrs / 2.
Proof.
  destruct mrs as [m r s]. simpl. intros Hm.
  destruct m as [|[p|p|]|p]; simpl; try lia; try reflexivity.
  - apply Z.div_unique with (r := 1); lia.
  - apply Z.div_unique with (r := 0); lia.
Qed.

Lemma shr_1_nonneg mrs : 0 <= shr_m mrs -> 0 <= shr_m (shr_1 mrs).
Proof. intros H. rewrite shr_1_m by exact H. apply Z.div_pos; lia. Qed.

Lemma iter_pos_shr_1_m (k : positive) mrs :
  0 <= shr_m mrs -> shr_m (SpecFloat.iter_pos shr_1 k mrs) = shr_m mrs / 2 ^ Z.pos k.
Proof.
  revert mrs. induction k as [k IH|k IH|]; intros mrs Hm; cbn [SpecFloat.iter_pos].
  - assert (H1 := shr_1_nonneg mrs Hm).
    assert (H2 : 0 <= shr_m (SpecFloat.iter_pos shr_1 k (shr_1 mrs)))
      by (rewrite IH by exact H1; apply Z.div_pos; lia).
    rewrite (IH _ H2), (IH _ H1), (shr_1_m mrs Hm).
    rewrite !Z.div_div by lia. f_equal.
    replace (Z.pos k~1) with (Z.pos k + Z.pos k + 1) by lia.
    rewrite !Z.pow_add_r by lia. change (2 ^ 1) with 2. ring.
  - assert (H2 : 0 <= shr_m (SpecFloat.iter_pos shr_1 k mrs))
      by (rewrite IH by exact Hm; apply Z.div_pos; lia).
    rewrite (IH _ H2), (IH _ Hm).
    rewrite !Z.div_div by lia. f_equal.
    replace (Z.pos k~0) with (Z.pos k + Z.pos k) by lia.
    rewrite !Z.pow_add_r by lia. ring.
  - rewrite shr_1_m by assumption. reflexivity.
Qed.

Lemma Zdigits2_bounds (m : Z) :
  0 < m -> 0 < Zdigits2 m /\ 2 ^ (Zdigits2 m - 1) <= m < 2 ^ Zdigits2 m.
Proof.
  destruct m as [|p|p]; try lia. intros _. simpl. split; [lia|].
  apply digits2_pos_bounds.
Qed.

(** [shr_fexp] in the range of the normal numbers: the mantissa stays
    positive, and what was shifted out is added to the exponent. *)
Lemma shr_fexp_normal (m e : Z) (l : location) :
  0 < m -> -1074 <= Zdigits2 m + e - 53 ->
  exists mrs e', shr_fexp prec emax m e l = (mrs, e') /\
    0 < shr_m mrs <= m /\
    e' = Z.max e (Zdigits2 m + e - 53) /\
    Zdigits2 (shr_m mrs) + e' = Zdigits2 m + e.
Proof.
  intros Hm Hn. destruct (@Zdigits2_bounds m Hm) as (Hd & Hlo & Hhi).
  set (d := Zdigits2 m) in *.
  unfold shr_fexp. fold d.
  assert (Ef : fexp prec emax (d + e) = d + e - 53).
  { unfold fexp, emin, prec, emax. lia. }
  rewrite Ef. unfold shr.
  assert (Em : shr_m (shr_record_of_loc m l) = m) by (destruct l as [|[]]; reflexivity).
  destruct (d + e - 53 - e) as [|k|k] eqn:Ek.
  - eexists _, _. split; [reflexivity|]. rewrite Em. fold d. repeat split; lia.
  - eexists _, _. split; [reflexivity|].
    rewrite iter_pos_shr_1_m by (rewrite Em; lia). rewrite Em.
    assert (Hk : Z.pos k = d - 53) by lia.
    assert (Hp : 2 ^ d = 2 ^ 53 * 2 ^ Z.pos k).
    { rewrite <- Z.pow_add_r by lia. f_equal. lia. }
    assert (Hp' : 2 ^ (d - 1) = 2 ^ 52 * 2 ^ Z.pos k).
    { rewrite <- Z.pow_add_r by lia. f_equal. lia. }
    assert (Hpos : 0 < 2 ^ Z.pos k) by (apply Z.pow_pos_nonneg; lia).
    assert (Hq : 2 ^ 52 <= m / 2 ^ Z.pos k < 2 ^ 53).
    { split.
      - apply Z.div_le_lower_bound; lia.
      - apply Z.div_lt_upper_bound; lia. }
    assert (Hle : m / 2 ^ Z.pos k <= m).
    { apply Z.div_le_upper_bound; [lia|]. nia. }
    rewrite (@Zdigits2_unique (m / 2 ^ Z.pos k) 53) by (simpl; lia).
    repeat split; try lia.
  - eexists _, _. split; [reflexivity|]. rewrite Em. fold d. repeat split; lia.
Qed.

Lemma round_nearest_even_bounds m l :
  m <= round_nearest_even m l <= m + 1.
Proof.
  destruct l as [|[]]; simpl; try lia. destruct (Z.even m); lia.
Qed.

Lemma Zdigits2_succ (m m' : Z) :
  0 < m -> m <= m' <= m + 1 -> Zdigits2 m <= Zdigits2 m' <= Zdigits2 m + 1.
Proof.
  intros Hm Hb. destruct (@Zdigits2_bounds m Hm) as (Hd & Hlo & Hhi).
  destruct (Z_lt_le_dec m' (2 ^ Zdigits2 m)) as [L | G].
  - rewrite (@Zdigits2_unique m' (Zdigits2 m)); lia.
  - assert (m' = 2 ^ Zdigits2 m) by lia.
    rewrite (@Zdigits2_unique m' (Zdigits2 m + 1)); try lia.
    replace (Zdigits2 m + 1 - 1) with (Zdigits2 m) by lia.
    rewrite Z.pow_add_r by lia. change (2 ^ 1) with 2. lia.
Qed.

(** Rounding a positive number of the normal range gives a finite number,
    with the sign asked for. *)
Lemma binary_round_aux_normal (sx : bool) (mx ex : Z) (lx : location) :
  0 < mx -> -1074 <= Zdigits2 mx + ex - 53 -> Zdigits2 mx + ex - 53 < 971 ->
  ex < 971 ->
  exists m e, binary_round_aux prec emax sx mx ex lx = S754_finite sx m e /\
    ex <= e <= Z.max ex (Zdigits2 mx + ex - 53) + 1 /\
    Zdigits2 mx + ex <= Z.pos (digits2_pos m) + e <= Zdigits2 mx + ex + 1.
Proof.
  intros Hm Hlo Hhi He. unfold binary_round_aux.
  destruct (@shr_fexp_normal mx ex lx Hm Hlo) as (mrs1 & e1 & -> & Hm1 & He1 & Hd1).
  pose proof (round_nearest_even_bounds (shr_m mrs1) (loc_of_shr_record mrs1)) as Hr.
  set (m2 := round_nearest_even (shr_m mrs1) (loc_of_shr_record mrs1)) in *.
  pose proof (@Zdigits2_succ (shr_m mrs1) m2 (proj1 Hm1) Hr) as Hd2.
  assert (Hm2 : 0 < m2) by lia.
  destruct (@shr_fexp_normal m2 e1 loc_Exact Hm2) as (mrs2 & e2 & -> & Hm3 & He2 & Hd3); [lia|].
  destruct (shr_m mrs2) as [|m|m] eqn:Em; try lia.
  assert (Hle : (e2 <=? emax - prec) = true) by (apply Z.leb_le; unfold emax, prec; lia).
  rewrite Hle. exists m, e2. split; [reflexivity|].
  cbn [Zdigits2] in Hd3. split; lia.
Qed.

Lemma digits2_pos_iter_xO (p k : positive) :
  Z.pos (digits2_pos (Pos.iter xO p k)) = Z.pos (digits2_pos p) + Z.pos k.
Proof.
  induction k as [|k IH] using Pos.peano_ind.
  - simpl. lia.
  - rewrite Pos.iter_succ. cbn [digits2_pos]. rewrite Pos2Z.inj_succ, IH. lia.
Qed.

(** Aligning keeps the number of digits plus the exponent. *)
Lemma shl_align_digits (mx : positive) (ex ex' : Z) :
  Z.pos (digits2_pos (fst (shl_align mx ex ex'))) + snd (shl_align mx ex ex')
  = Z.pos (digits2_pos mx) + ex /\
  snd (shl_align mx ex ex') = Z.min ex ex'.
Proof.
  unfold shl_align. destruct (ex' - ex) as [|d|d] eqn:E; cbn [fst snd]; try lia.
  rewrite digits2_pos_iter_xO. lia.
Qed.

(** A positive integer below [2^63] rounds to a finite positive number. *)
Lemma binary_round_int (p : positive) :
  Z.pos p < 2 ^ 63 ->
  exists m e, binary_round prec emax false p 0 = S754_finite false m e /\
    -52 <= e <= 11 /\ 1 <= Z.pos (digits2_pos m) + e <= 64.
Proof.
  intros Hp. unfold binary_round.
  pose proof (digits2_pos_bounds p) as [Hlo Hhi].
  set (d := Z.pos (digits2_pos p)) in *.
  assert (Hd : 1 <= d <= 63).
  { split; [unfold d; lia|].
    destruct (Z_le_gt_dec d 63) as [L|G]; [exact L|].
    assert (2 ^ 63 <= 2 ^ (d - 1)) by (apply Z.pow_le_mono_r; lia). lia. }
  pose proof (shl_align_digits p 0 (fexp prec emax (d + 0))) as [Hs He].
  fold d in Hs.
  destruct (shl_align p 0 (fexp prec emax (d + 0))) as [mz ez]. cbn [fst snd] in Hs, He.
  assert (Ef : fexp prec emax (d + 0) = d - 53) by (unfold fexp, emin, prec, emax; lia).
  rewrite Ef in He.
  destruct (@binary_round_aux_normal false (Z.pos mz) ez loc_Exact) as (m & e & -> & Hb & Hdm);
    cbn [Zdigits2]; try lia.
  exists m, e. split; [reflexivity|]. cbn [Zdigits2] in Hb, Hdm. lia.
Qed.

Lemma of_uint63_finite (n : Z) :
  0 < n < 2 ^ 63 ->
  exists m e, Prim2SF (of_uint63 (Uint63.of_Z n)) = S754_finite false m e /\
    -52 <= e <= 11 /\ 1 <= Z.pos (digits2_pos m) + e <= 64.
Proof.
  intros Hn. rewrite FloatAxioms.of_uint63_spec.
  assert (E : Uint63Axioms.to_Z (Uint63.of_Z n) = n).
  { rewrite Uint63.of_Z_spec. apply Z.mod_small.
    change Uint63.wB with (2 ^ 63). lia. }
  rewrite E. destruct n as [|p|p]; try lia. cbn [binary_normalize].
  apply binary_round_int. lia.
Qed.

(** [x / x = 1] on a finite number that is not zero. *)
Lemma SFdiv_self (s : bool) (m : positive) (e : Z) :
  SFdiv prec emax (S754_finite s m e) (S754_finite s m e) = Prim2SF 1.
Proof.
  cbn [SFdiv]. unfold SFdiv_core_binary.
  replace (Zdigits2 (Z.pos m) + e - (Zdigits2 (Z.pos m) + e)) with 0 by lia.
  replace (e - e) with 0 by lia.
  change (Z.min (fexp prec emax 0) 0) with (-53).
  change (0 - -53) with 53.
  cbv zeta. cbv iota.
  assert (E : Z.div_eucl (Z.shiftl (Z.pos m) 53) (Z.pos m) = (2 ^ 53, 0)).
  { rewrite Z.shiftl_mul_pow2 by lia.
    pose proof (Z.div_eucl_eq (Z.pos m * 2 ^ 53) (Z.pos m)) as H.
    pose proof (Z.mod_pos_bound (Z.pos m * 2 ^ 53) (Z.pos m)) as Hb.
    unfold Z.modulo, Z.div in *.
    destruct (Z.div_eucl (Z.pos m * 2 ^ 53) (Z.pos m)) as [q r].
    specialize (H ltac:(lia)). specialize (Hb ltac:(lia)).
    assert (q = 2 ^ 53) by nia. assert (r = 0) by nia. congruence. }
  rewrite E.
  assert (L : new_location (Z.pos m) 0 = loc_Exact).
  { unfold new_location. destruct (Z.even (Z.pos m)); reflexivity. }
  rewrite L. destruct s; vm_compute; reflexivity.
Qed.

(** [1 * x = x], on every float. *)
Lemma SFmul_one_l (x : spec_float) :
  SpecFloat.valid_binary prec emax x = true -> SFmul prec emax (Prim2SF 1) x = x.
Proof.
  intros Hv. change (Prim2SF 1) with (S754_finite false 4503599627370496 (-52)).
  destruct x as [s|s| |s m e]; cbn [SFmul xorb]; try reflexivity.
  cbn [SpecFloat.valid_binary] in Hv. unfold bounded, canonical_mantissa in Hv.
  apply andb_true_iff in Hv. destruct Hv as [Hc He].
  apply Z.eqb_eq in Hc.
  change (4503599627370496 * m)%positive with (Pos.iter xO m 52).
  unfold binary_round_aux.
  assert (E1 : shr_fexp prec emax (Z.pos (Pos.iter xO m 52)) (-52 + e) loc_Exact
               = ({| shr_m := Z.pos m; shr_r := false; shr_s := false |}, e)).
  { unfold shr_fexp. cbn [Zdigits2]. rewrite digits2_pos_iter_xO.
    replace (Z.pos (digits2_pos m) + 52 + (-52 + e)) with (Z.pos (digits2_pos m) + e) by lia.
    rewrite Hc. replace (e - (-52 + e)) with 52 by lia.
    unfold shr. f_equal. lia. }
  rewrite E1. cbn [shr_m loc_of_shr_record round_nearest_even].
  assert (E2 : shr_fexp prec emax (Z.pos m) e loc_Exact
               = ({| shr_m := Z.pos m; shr_r := false; shr_s := false |}, e)).
  { unfold shr_fexp. cbn [Zdigits2]. rewrite Hc, Z.sub_diag. reflexivity. }
  rewrite E2. cbn [shr_m]. rewrite He. reflexivity.
Qed.

(** A finite float has at most 53 digits and an exponent of the format. *)
Lemma valid_finite (s : bool) (m : positive) (e : Z) :
  SpecFloat.valid_binary prec emax (S754_finite s m e) = true ->
  Z.pos (digits2_pos m) <= 53 /\ -1074 <= e <= 971.
Proof.
  cbn [SpecFloat.valid_binary]. unfold bounded, canonical_mantissa. intros H.
  apply andb_true_iff in H. destruct H as [Hc He].
  apply Z.eqb_eq in Hc. apply Z.leb_le in He.
  unfold fexp, emin, prec, emax in *. lia.
Qed.

(** Rounding never loses a mantissa whose exponent is one of the format. *)
Lemma shr_fexp_pos (m e : Z) (l : location) :
  0 < m -> -1074 <= e ->
  exists mrs e', shr_fexp prec emax m e l = (mrs, e') /\ 0 < shr_m mrs /\ e <= e'.
Proof.
  intros Hm He.
  destruct (Z_le_gt_dec (-1074) (Zdigits2 m + e - 53)) as [Hn | Hs].
  - destruct (@shr_fexp_normal m e l Hm Hn) as (mrs & e' & E & Hp & He' & _).
    exists mrs, e'. split; [exact E|]. lia.
  - unfold shr_fexp.
    assert (Ef : fexp prec emax (Zdigits2 m + e) = -1074)
      by (unfold fexp, emin, prec, emax; lia).
    rewrite Ef. unfold shr.
    assert (Em : shr_m (shr_record_of_loc m l) = m) by (destruct l as [|[]]; reflexivity).
    destruct (-1074 - e) as [|k|k] eqn:Ek; try lia;
      eexists _, _; (split; [reflexivity|]); rewrite Em; lia.
Qed.

Lemma binary_round_aux_signed (sx : bool) (mx ex : Z) (lx : location) :
  0 < mx -> -1074 <= ex ->
  (exists m e, binary_round_aux prec emax sx mx ex lx = S754_finite sx m e) \/
  binary_round_aux prec emax sx mx ex lx = S754_infinity sx.
Proof.
  intros Hm He. unfold binary_round_aux.
  destruct (@shr_fexp_pos mx ex lx Hm He) as (mrs1 & e1 & -> & Hm1 & He1).
  pose proof (round_nearest_even_bounds (shr_m mrs1) (loc_of_shr_record mrs1)) as Hr.
  set (m2 := round_nearest_even (shr_m mrs1) (loc_of_shr_record mrs1)) in *.
  destruct (@shr_fexp_pos m2 e1 loc_Exact) as (mrs2 & e2 & -> & Hm2 & He2); try lia.
  destruct (shr_m mrs2) as [|m|m]; try lia.
  destruct (e2 <=? emax - prec); [left; eauto | right; reflexivity].
Qed.

Lemma binary_round_signed (sx : bool) (mx : positive) (ex : Z) :
  -1074 <= ex ->
  (exists m e, binary_round prec emax sx mx ex = S754_finite sx m e) \/
  binary_round prec emax sx mx ex = S754_infinity sx.
Proof.
  intros He. unfold binary_round.
  pose proof (shl_align_digits mx ex (fexp prec emax (Z.pos (digits2_pos mx) + ex))) as [_ Hs].
  destruct (shl_align mx ex (fexp prec emax (Z.pos (digits2_pos mx) + ex))) as [mz ez].
  cbn [snd] in Hs. apply binary_round_aux_signed; [lia|].
  unfold fexp, emin, prec, emax in Hs. lia.
Qed.

(** A sum is the negative zero only when both terms are. *)
Lemma SFadd_neg_zero (x y : spec_float) :
  SpecFloat.valid_binary prec emax x = true -> SpecFloat.valid_binary prec emax y = true ->
  SFadd prec emax x y = S754_zero true -> x = S754_zero true /\ y = S754_zero true.
Proof.
  intros Hx Hy.
  destruct x as [sx|sx| |sx mx ex], y as [sy|sy| |sy my ey]; cbn [SFadd];
    try discriminate; try (destruct sx, sy; simpl; intuition congruence).
  destruct (@valid_finite _ _ _ Hx) as [_ Hex], (@valid_finite _ _ _ Hy) as [_ Hey].
  set (ez := Z.min ex ey).
  set (total := cond_Zopp sx (Z.pos (fst (shl_align mx ex ez)))
                + cond_Zopp sy (Z.pos (fst (shl_align my ey ez)))).
  assert (Hez : -1074 <= ez) by (unfold ez; lia).
  destruct total as [|p|p]; cbn [binary_normalize]; try discriminate.
  - destruct (@binary_round_signed false p ez Hez) as [(m & e & ->) | ->]; discriminate.
  - destruct (@binary_round_signed true p ez Hez) as [(m & e & ->) | ->]; discriminate.
Qed.

(** [0 + x] is [x] but on the negative zero. *)
Lemma SFadd_zero_l (x : spec_float) :
  SFadd prec emax (S754_zero false) x = x <-> x <> S754_zero true.
Proof.
  destruct x as [[]|s| |s m e]; cbn [SFadd]; split; intros H; congruence.
Qed.

Lemma SFadd_zero_r (x : spec_float) :
  x <> S754_zero true -> SFadd prec emax x (S754_zero false) = x.
Proof.
  destruct x as [[]|[]| |s m e]; cbn [SFadd]; intros H; congruence.
Qed.

Lemma Zdigits2_le (a b : Z) : 0 < a -> a <= b -> Zdigits2 a <= Zdigits2 b.
Proof.
  intros Ha Hab.
  destruct (@Zdigits2_bounds a Ha) as (Hda & Hla & Hha).
  destruct (@Zdigits2_bounds b ltac:(lia)) as (Hdb & Hlb & Hhb).
  destruct (Z_le_gt_dec (Zdigits2 a) (Zdigits2 b)) as [L|G]; [exact L|].
  assert (2 ^ Zdigits2 b <= 2 ^ (Zdigits2 a - 1)) by (apply Z.pow_le_mono_r; lia). lia.
Qed.

Lemma Zdigits2_add (a b : Z) :
  0 < a -> 0 < b -> Zdigits2 (a + b) <= Z.max (Zdigits2 a) (Zdigits2 b) + 1.
Proof.
  intros Ha Hb.
  destruct (@Zdigits2_bounds a Ha) as (Hda & Hla & Hha).
  destruct (@Zdigits2_bounds b Hb) as (Hdb & Hlb & Hhb).
  destruct (@Zdigits2_bounds (a + b) ltac:(lia)) as (Hd & Hl & Hh).
  set (d := Z.max (Zdigits2 a) (Zdigits2 b)) in *.
  assert (2 ^ Zdigits2 a <= 2 ^ d) by (apply Z.pow_le_mono_r; lia).
  assert (2 ^ Zdigits2 b <= 2 ^ d) by (apply Z.pow_le_mono_r; lia).
  destruct (Z_le_gt_dec (Zdigits2 (a + b)) (d + 1)) as [L|G]; [exact L|].
  assert (2 ^ (d + 1) <= 2 ^ (Zdigits2 (a + b) - 1)) by (apply Z.pow_le_mono_r; lia).
  rewrite Z.pow_add_r in * by lia. change (2 ^ 1) with 2 in *. lia.
Qed.

Lemma count_float_valid (x : float) s m e :
  Prim2SF x = S754_finite s m e -> Z.pos (digits2_pos m) <= 53 /\ -1074 <= e <= 971.
Proof.
  intros E. apply (@valid_finite s). rewrite <- E. apply FloatAxioms.Prim2SF_valid.
Qed.

Lemma of_uint63_count (n : Z) :
  0 < n < 2 ^ 63 -> count_float (Prim2SF (of_uint63 (Uint63.of_Z n))) 11.
Proof.
  intros Hn. destruct (@of_uint63_finite n Hn) as (m & e & E & He & Hd).
  exists m, e. split; [exact E|]. destruct (@count_float_valid _ _ _ _ E). lia.
Qed.

(** The sum of two counts is a finite positive float. *)
Lemma SFadd_count (x y : spec_float) :
  SpecFloat.valid_binary prec emax (SFadd prec emax x y) = true ->
  count_float x 11 -> count_float y 11 -> count_float (SFadd prec emax x y) 13.
Proof.
  intros Hv (mx & ex & -> & Hex & Hdx & Hpx) (my & ey & -> & Hey & Hdy & Hpy).
  revert Hv. cbn [SFadd cond_Zopp].
  set (ez := Z.min ex ey).
  pose proof (shl_align_digits mx ex ez) as [Hax Hsx].
  pose proof (shl_align_digits my ey ez) as [Hay Hsy].
  destruct (shl_align mx ex ez) as [ax ex']. destruct (shl_align my ey ez) as [ay ey'].
  cbn [fst snd] in *.
  assert (Ex : ex' = ez) by (unfold ez in *; lia).
  assert (Ey : ey' = ez) by (unfold ez in *; lia).
  subst ex' ey'.
  change (Z.pos ax + Z.pos ay) with (Z.pos (ax + ay)). cbn [binary_normalize].
  unfold binary_round.
  pose proof (@Zdigits2_add (Z.pos ax) (Z.pos ay) ltac:(lia) ltac:(lia)) as Hadd.
  pose proof (@Zdigits2_le (Z.pos ax) (Z.pos ax + Z.pos ay) ltac:(lia) ltac:(lia)) as Hge.
  change (Z.pos ax + Z.pos ay) with (Z.pos (ax + ay)) in Hadd, Hge.
  cbn [Zdigits2] in Hadd, Hge.
  set (ds := Z.pos (digits2_pos (ax + ay))) in *.
  pose proof (shl_align_digits (ax + ay) ez (fexp prec emax (ds + ez))) as [Hs He].
  fold ds in Hs.
  destruct (shl_align (ax + ay) ez (fexp prec emax (ds + ez))) as [mz ez2].
  cbn [fst snd] in Hs, He.
  assert (Ef : fexp prec emax (ds + ez) = ds + ez - 53) by (unfold fexp, emin, prec, emax; lia).
  rewrite Ef in He.
  destruct (@binary_round_aux_normal false (Z.pos mz) ez2 loc_Exact) as (m & e & -> & Hb & Hdm);
    cbn [Zdigits2]; try lia.
  intros Hv. destruct (@valid_finite _ _ _ Hv) as [Hm53 _].
  exists m, e. split; [reflexivity|]. cbn [Zdigits2] in Hb, Hdm. lia.
Qed.

(** The quotient of two counts is a finite positive float. *)
Lemma SFdiv_count (x y : spec_float) :
  count_float x 11 -> count_float y 13 ->
  exists m e, SFdiv prec emax x y = S754_finite false m e.
Proof.
  intros (mx & ex & -> & Hex & Hdx & Hpx) (my & ey & -> & Hey & Hdy & Hpy).
  cbn [SFdiv xorb]. unfold SFdiv_core_binary. cbn [Zdigits2].
  set (dx := Z.pos (digits2_pos mx)) in *. set (dy := Z.pos (digits2_pos my)) in *.
  assert (Ef : fexp prec emax (dx + ex - (dy + ey)) = dx + ex - (dy + ey) - 53)
    by (unfold fexp, emin, prec, emax; lia).
  rewrite Ef.
  assert (Emin : Z.min (dx + ex - (dy + ey) - 53) (ex - ey) = dx + ex - (dy + ey) - 53) by lia.
  rewrite Emin.
  replace (ex - ey - (dx + ex - (dy + ey) - 53)) with (53 - dx + dy) by lia.
  destruct (53 - dx + dy) as [|k|k] eqn:Ek; try lia.
  cbv zeta. rewrite Z.shiftl_mul_pow2 by lia.
  pose proof (digits2_pos_bounds mx) as [Hlx Hhx]. fold dx in Hlx, Hhx.
  pose proof (digits2_pos_bounds my) as [Hly Hhy]. fold dy in Hly, Hhy.
  pose proof (Z.div_eucl_eq (Z.pos mx * 2 ^ Z.pos k) (Z.pos my) ltac:(lia)) as Hq.
  pose proof (Z.mod_pos_bound (Z.pos mx * 2 ^ Z.pos k) (Z.pos my) ltac:(lia)) as Hr.
  unfold Z.modulo in Hr.
  destruct (Z.div_eucl (Z.pos mx * 2 ^ Z.pos k) (Z.pos my)) as [q r].
  assert (Hk : Z.pos k = 53 - dx + dy) by lia.
  assert (P1 : 2 ^ (dx - 1) * 2 ^ Z.pos k = 2 ^ 52 * 2 ^ dy).
  { rewrite <- !Z.pow_add_r by lia. f_equal. lia. }
  assert (P2 : 2 ^ dx * 2 ^ Z.pos k = 2 ^ 54 * 2 ^ (dy - 1)).
  { rewrite <- !Z.pow_add_r by lia. f_equal. lia. }
  assert (Hpk : 0 < 2 ^ Z.pos k) by (apply Z.pow_pos_nonneg; lia).
  assert (Hpy1 : 0 < 2 ^ (dy - 1)) by (apply Z.pow_pos_nonneg; lia).
  assert (Hqlo : 2 ^ 52 <= q).
  { assert (2 ^ 52 * 2 ^ dy <= Z.pos mx * 2 ^ Z.pos k) by (rewrite <- P1; nia).
    assert (2 ^ 52 * Z.pos my < Z.pos my * q + Z.pos my) by nia.
    nia. }
  assert (Hqhi : q < 2 ^ 54).
  { assert (Z.pos mx * 2 ^ Z.pos k < 2 ^ 54 * 2 ^ (dy - 1)) by (rewrite <- P2; nia).
    assert (Z.pos my * q < 2 ^ 54 * Z.pos my) by nia.
    nia. }
  assert (Hdq : 53 <= Zdigits2 q <= 54).
  { destruct (Z_lt_le_dec q (2 ^ 53)).
    - rewrite (@Zdigits2_unique q 53); simpl; lia.
    - rewrite (@Zdigits2_unique q 54); simpl; lia. }
  destruct (@binary_round_aux_normal false q (dx + ex - (dy + ey) - 53)
              (new_location (Z.pos my) r)) as (m & e & -> & _); try lia.
  eauto.
Qed.

Lemma binary64_of_int_pos (n : Z) :
  0 < n <= max_int -> count_float (Prim2SF (of_int n)) 11.
Proof.
  intros Hn. cbn [of_int binary64]. unfold B64.of_int.
  assert (E : (n <? 0) = false) by (apply Z.ltb_ge; lia). rewrite E.
  apply of_uint63_count. unfold max_int in Hn. lia.
Qed.

Lemma binary64_plain (x : float) :
  fadd (of_int 0) x = x <-> Prim2SF x <> S754_zero true.
Proof.
  rewrite <- SFadd_zero_l. cbn [fadd binary64]. split; intros H.
  - rewrite <- H at 2. rewrite FloatAxioms.add_spec. reflexivity.
  - apply Prim2SF_inj. rewrite FloatAxioms.add_spec. exact H.
Qed.

Lemma binary64_finite_value (x : float) :
  finite_value x = true <->
  (exists s, Prim2SF x = S754_zero s) \/ (exists s m e, Prim2SF x = S754_finite s m e).
Proof.
  unfold finite_value. cbn [feq fsub binary64].
  rewrite FloatAxioms.eqb_spec, FloatAxioms.sub_spec.
  change (Prim2SF (of_int 0)) with (S754_zero false).
  destruct (Prim2SF x) as [s|s| |s m e].
  - split; [eauto|]. intros _. destruct s; reflexivity.
  - split; [destruct s; discriminate|].
    intros [[s' H] | (s' & m & e & H)]; discriminate.
  - split; [discriminate|].
    intros [[s' H] | (s' & m & e & H)]; discriminate.
  - split; [eauto 6|]. intros _. unfold SF64sub. cbn [SFsub].
    rewrite Z.sub_diag. reflexivity.
Qed.

#[export] Instance binary64_WeightLaws : WeightLaws (F:=float).
Proof.
  split.
  - intros n Hn. apply binary64_plain.
    destruct (binary64_of_int_pos Hn) as (m & e & -> & _). discriminate.
  - intros n Hn. apply Prim2SF_inj. cbn [fadd binary64]. rewrite FloatAxioms.add_spec.
    destruct (binary64_of_int_pos Hn) as (m & e & -> & _). reflexivity.
  - intros n Hn. apply Prim2SF_inj. cbn [fdiv binary64]. rewrite FloatAxioms.div_spec.
    destruct (binary64_of_int_pos Hn) as (m & e & -> & _). reflexivity.
  - intros n Hn. apply Prim2SF_inj. cbn [fdiv binary64]. rewrite FloatAxioms.div_spec.
    destruct (binary64_of_int_pos Hn) as (m & e & -> & _). apply SFdiv_self.
  - vm_compute. reflexivity.
  - intros x. apply Prim2SF_inj. cbn [fmul binary64]. rewrite FloatAxioms.mul_spec.
    apply SFmul_one_l. apply FloatAxioms.Prim2SF_valid.
  - vm_compute. reflexivity.
  - vm_compute. reflexivity.
  - intros acc t Hacc. apply binary64_plain. apply binary64_plain in Hacc.
    cbn [fadd binary64]. rewrite FloatAxioms.add_spec. intros H.
    apply SFadd_neg_zero in H; try apply FloatAxioms.Prim2SF_valid.
    destruct H as [H _]. contradiction.
  - intros x Hx. apply binary64_plain in Hx. apply Prim2SF_inj.
    cbn [fadd binary64]. rewrite FloatAxioms.add_spec. apply SFadd_zero_r. exact Hx.
  - intros c a b Hc Ha Hb. apply Prim2SF_inj. cbn [fmul fdiv fadd binary64].
    rewrite FloatAxioms.mul_spec, FloatAxioms.div_spec.
    assert (Hs : count_float (Prim2SF (of_int a + of_int b)%float) 13).
    { rewrite FloatAxioms.add_spec. apply SFadd_count.
      - rewrite <- FloatAxioms.add_spec. apply FloatAxioms.Prim2SF_valid.
      - apply binary64_of_int_pos. exact Ha.
      - apply binary64_of_int_pos. exact Hb. }
    destruct (SFdiv_count (binary64_of_int_pos Hc) Hs) as (m & e & E).
    cbn [of_int binary64] in E |- *. unfold SF64div. rewrite E. reflexivity.
  - vm_compute. reflexivity.
  - intros x Hx. apply binary64_finite_value in Hx. apply binary64_finite_value.
    cbn [fneg binary64]. rewrite FloatAxioms.opp_spec.
    destruct Hx as [[s ->] | (s & m & e & ->)]; cbn [SFopp]; eauto 6.
Qed.

(** ** Gini impurity, in exact arithmetic *)

Section ExactGini.

Variable iter_src : nat -> nat.

Lemma qz_add a b : qz (a + b) = (qz a + qz b)%Qc.
Proof.
  unfold qz, Qcplus. apply Q2Qc_eq_iff. cbn [this Q2Qc].
  rewrite !Qred_correct, inject_Z_plus. reflexivity.
Qed.

Lemma qz_zero_iff n : qz n = Q2Qc 0 <-> n = 0.
Proof.
  unfold qz. rewrite Q2Qc_eq_iff. split.
  - intros H. apply (inject_Z_injective n 0). exact H.
  - intros ->. reflexivity.
Qed.

Lemma sgn_Eq q : Exact.sgn q = Eq <-> q = Q2Qc 0.
Proof. unfold Exact.sgn. symmetry. apply Qceq_alt. Qed.

Lemma div_Fin a b : b <> Q2Qc 0 -> Exact.div (Exact.Fin a) (Exact.Fin b) = Exact.Fin (a / b)%Qc.
Proof.
  intros Hb. unfold Exact.div. destruct (Exact.sgn b) eqn:E; try reflexivity.
  apply sgn_Eq in E. contradiction.
Qed.


Lemma gini_step_Fin n a (e : Exact.xq * Z) :
  n <> 0 -> gini_step n (Exact.Fin a) e = Exact.Fin (a + gini_term n (snd e))%Qc.
Proof.
  intros Hn. unfold gini_step. cbv zeta.
  assert (E : fdiv (of_int (snd e)) (of_int n) = Exact.Fin (qz (snd e) / qz n)%Qc).
  { apply div_Fin. rewrite qz_zero_iff. exact Hn. }
  rewrite E. reflexivity.
Qed.

Lemma gini_fold n (entries : list (Exact.xq * Z)) a :
  n <> 0 ->
  fold_left (gini_step n) entries (Exact.Fin a)
    = Exact.Fin (a + qsum (map (fun e => gini_term n (snd e)) entries))%Qc.
Proof.
  intros Hn. revert a. induction entries as [|e es IH]; intros a; cbn [fold_left map].
  - f_equal. unfold qsum. cbn [fold_right]. ring.
  - rewrite gini_step_Fin by exact Hn. rewrite IH. f_equal.
    unfold qsum. cbn [fold_right]. ring.
Qed.

Lemma qsum_perm l l' : Permutation l l' -> qsum l = qsum l'.
Proof.
  unfold qsum. induction 1; simpl; try congruence. ring.
Qed.

(** In exact arithmetic [==] is equality, but on NaN. *)
Lemma eqb_true_eq a b : Exact.eqb a b = true -> a = b.
Proof.
  destruct a, b; simpl; try discriminate; try reflexivity.
  destruct (Qc_eq_dec q q0); [congruence | discriminate].
Qed.

Lemma eqb_refl_number a : is_number a -> Exact.eqb a a = true.
Proof.
  unfold is_number. destruct a; simpl; try reflexivity; try congruence.
  destruct (Qc_eq_dec q q); congruence.
Qed.

Lemma numbers_reflexive (y : list Exact.xq) :
  Forall is_number y -> Forall (fun v => feq v v = true) y.
Proof. apply Forall_impl. intros a. apply eqb_refl_number. Qed.

Lemma keys_distinct_NoDup (counts : list (Exact.xq * Z)) :
  keys_distinct counts ->
  Forall (fun e => is_number (fst e)) counts ->
  NoDup counts.
Proof.
  induction 1 as [|e rest He _ IH]; intros Hnum; constructor.
  - inversion Hnum as [|? ? Hn _]; subst. intros Hin.
    rewrite Forall_forall in He. specialize (He e Hin). simpl in He.
    rewrite (eqb_refl_number Hn) in He. discriminate.
  - apply IH. now inversion Hnum.
Qed.

(** The map of the counts has one entry for each class present, with the
    number of its labels. *)
Lemma tally_classes (y : list Exact.xq) :
  Forall is_number y ->
  Permutation (tally y) (map (fun c => (c, count c y)) (classes y)).
Proof.
  intros Hnum. pose proof (tally_tallied (numbers_reflexive Hnum)) as [Hs Hc Hd].
  apply NoDup_Permutation.
  - apply keys_distinct_NoDup; [exact Hd|].
    rewrite Forall_forall. intros [k c] Hin. simpl.
    destruct (Hs k c Hin) as (Hk & _). rewrite Forall_forall in Hnum. now apply Hnum.
  - apply Finite.Injective_map_NoDup; [|apply NoDup_nodup].
    intros a b E. now inversion E.
  - intros [k c]. rewrite in_map_iff. split.
    + intros Hin. destruct (Hs k c Hin) as (Hk & Hcount & _).
      exists k. split; [now rewrite Hcount | now apply nodup_In].
    + intros (k' & E & Hin). inversion E; subst k' c. apply nodup_In in Hin.
      destruct (Hc k Hin) as (k2 & c2 & Hin2 & Hf).
      simpl in Hf. apply eqb_true_eq in Hf. subst k2.
      destruct (Hs k c2 Hin2) as (_ & -> & _). exact Hin2.
Qed.

Lemma qsum_gini_terms n (cs : list Z) :
  n <> 0 ->
  qsum (map (gini_term n) cs)
    = (qz (fold_right Z.add 0%Z cs) / qz n
       - qsum (map (fun c => qz c / qz n * (qz c / qz n)) cs))%Qc.
Proof.
  intros Hn. assert (Hq : qz n <> Q2Qc 0) by (rewrite qz_zero_iff; exact Hn).
  induction cs as [|c cs IH]; simpl.
  - unfold qsum. simpl. change (qz 0) with (Q2Qc 0). field. exact Hq.
  - unfold qsum in *. simpl. rewrite IH, qz_add. unfold gini_term. field. exact Hq.
Qed.

(** The sum of the code is [1 - Σ p_c²] on labels that are not empty, and 0
    on no label. *)
Lemma giniImpurity_exact (y : list Exact.xq) w :
  Forall is_number y ->
  giniImpurity iter_src y w
    = Ret (Exact.Fin (if len y =? 0 then Q2Qc 0 else gini y))
          (mkWorld (rand_pos w) (S (iter_pos w))).
Proof.
  intros Hnum. unfold giniImpurity, bind, range_map, ret. f_equal.
  destruct (len y =? 0) eqn:En.
  - apply len_zero in En. subst y. reflexivity.
  - apply Z.eqb_neq in En.
    change (of_int 0) with (Exact.Fin (Q2Qc 0)). rewrite gini_fold by exact En. f_equal.
    pose proof (range_order_perm (iter_src (iter_pos w)) (tally y)) as Hp.
    pose proof (tally_classes Hnum) as Hc.
    pose proof (Permutation_trans Hp Hc) as Hpc.
    rewrite (qsum_perm (Permutation_map (fun e => gini_term (len y) (snd e)) Hpc)).
    rewrite map_map. simpl.
    rewrite <- (map_map (fun c => count c y) (gini_term (len y))).
    rewrite qsum_gini_terms by exact En.
    assert (Htotal : fold_right Z.add 0 (map (fun c => count c y) (classes y)) = len y).
    { rewrite <- (total_tally y), (total_perm Hc). symmetry. apply total_map. }
    rewrite Htotal, map_map. unfold gini, proportion.
    assert (Hq : qz (len y) <> Q2Qc 0) by (rewrite qz_zero_iff; exact En).
    field. exact Hq.
Qed.


Lemma calculateScore_exact (dt : DecisionTree (F:=Exact.xq)) leftY rightY w :
  dtTask dt = "classification"%string ->
  Forall is_number leftY ->
  Forall is_number rightY ->
  leftY <> [] \/ rightY <> [] ->
  calculateScore iter_src dt leftY rightY w
    = Ret (Exact.Fin (- (weight leftY rightY * side_impurity leftY
                         + weight rightY leftY * side_impurity rightY))%Qc)
          (mkWorld (rand_pos w) (S (S (iter_pos w)))).
Proof.
  intros Htask Hl Hr Hne. unfold calculateScore. rewrite Htask.
  change (String.eqb "classification" "classification") with true. cbv iota.
  unfold bind. rewrite (giniImpurity_exact w Hl).
  rewrite (giniImpurity_exact _ Hr). unfold ret. cbn [rand_pos iter_pos].
  fold (side_impurity leftY) (side_impurity rightY). f_equal.
  assert (Htot : (qz (len leftY) + qz (len rightY))%Qc <> Q2Qc 0).
  { rewrite <- qz_add, qz_zero_iff. unfold len.
    destruct Hne as [H | H]; [destruct leftY | destruct rightY];
      try congruence; simpl length; lia. }
  assert (Ediv : forall n,
             fdiv (of_int n) (fadd (of_int (len leftY)) (of_int (len rightY)))
             = Exact.Fin (qz n / (qz (len leftY) + qz (len rightY)))%Qc).
  { intros n. apply (div_Fin (qz n) Htot). }
  rewrite !Ediv. unfold weight. cbn [fmul fadd fneg exact Exact.mul Exact.add Exact.neg].
  rewrite (Qcplus_comm (qz (len rightY)) (qz (len leftY))). reflexivity.
Qed.

End ExactGini.

Lemma exact_fadd_zero_l (x : Exact.xq) : fadd (of_int 0) x = x.
Proof.
  destruct x as [q| | |]; try reflexivity.
  change (@of_int Exact.xq _ 0) with (Exact.Fin (Q2Qc 0)).
  cbn [fadd exact Exact.add]. f_equal. ring.
Qed.

Lemma exact_fadd_zero_r (x : Exact.xq) : fadd x (of_int 0) = x.
Proof.
  destruct x as [q| | |]; try reflexivity.
  change (@of_int Exact.xq _ 0) with (Exact.Fin (Q2Qc 0)).
  cbn [fadd exact Exact.add]. f_equal. ring.
Qed.

Lemma exact_fdiv_size (c n : Z) :
  n <> 0 -> fdiv (of_int c) (of_int n) = Exact.Fin (qz c / qz n)%Qc.
Proof. intros Hn. apply div_Fin. rewrite qz_zero_iff. exact Hn. Qed.

#[export] Instance exact_WeightLaws : WeightLaws (F:=Exact.xq).
Proof.
  split.
  - intros n _. apply exact_fadd_zero_l.
  - intros n _. apply exact_fadd_zero_r.
  - intros n Hn. rewrite exact_fdiv_size by lia.
    change (@of_int Exact.xq _ 0) with (Exact.Fin (Q2Qc 0)). f_equal.
    change (qz 0) with (Q2Qc 0).
    assert (Hq : qz n <> Q2Qc 0) by (rewrite qz_zero_iff; lia).
    field. exact Hq.
  - intros n Hn. rewrite exact_fdiv_size by lia.
    change (@of_int Exact.xq _ 1) with (Exact.Fin (Q2Qc 1)). f_equal.
    assert (Hq : qz n <> Q2Qc 0) by (rewrite qz_zero_iff; lia).
    field. exact Hq.
  - vm_compute. reflexivity.
  - intros [q| | |]; try reflexivity.
    change (@of_int Exact.xq _ 1) with (Exact.Fin (Q2Qc 1)).
    cbn [fmul exact Exact.mul]. f_equal. ring.
  - vm_compute. reflexivity.
  - vm_compute. reflexivity.
  - intros acc t _. apply exact_fadd_zero_l.
  - intros x _. apply exact_fadd_zero_r.
  - intros c a b Hc Ha Hb.
    assert (E : fadd (of_int a) (of_int b) = of_int (a + b) :> Exact.xq).
    { change (Exact.Fin (qz a + qz b)%Qc = Exact.Fin (qz (a + b))). now rewrite qz_add. }
    rewrite E, exact_fdiv_size by lia.
    change (@of_int Exact.xq _ 0) with (Exact.Fin (Q2Qc 0)).
    cbn [fmul exact Exact.mul]. f_equal. ring.
  - vm_compute. reflexivity.
  - intros [q| | |]; try discriminate. intros _. unfold finite_value.
    change (@of_int Exact.xq _ 0) with (Exact.Fin (Q2Qc 0)).
    cbn [fneg fsub feq exact Exact.neg Exact.sub Exact.add Exact.eqb].
    destruct (Qc_eq_dec _ _) as [_ | Hn]; [reflexivity|].
    exfalso. apply Hn. ring.
Qed.

(** ** A split with an empty side *)

Section EmptySide.
Context {F : Type} {FO : Float64 F} {EL : EqLaws} {WL : WeightLaws}.
Variable iter_src : nat -> nat.









End EmptySide.

(** ** Further properties: splitting the rows *)

Section SplitRows.

Context {F : Type} {FO : Float64 F}.

Lemma splitData_filter X (y : list F) featureIndex threshold leftX leftY rightX rightY :
  splitData X y featureIndex threshold = Val (leftX, leftY, rightX, rightY) ->
  length leftX = length leftY /\ length rightX = length rightY /\
  (length X <= length y)%nat /\
  combine leftX leftY = filter (goes_left featureIndex threshold) (combine X y) /\
  combine rightX rightY
    = filter (fun e => negb (goes_left featureIndex threshold e)) (combine X y) /\
  Forall (fun row => exists v, index row featureIndex = Val v) X.
Proof.
  revert y leftX leftY rightX rightY.
  induction X as [|row X IH]; intros y lX lY rX rY H; simpl in H.
  - inversion H; subst. simpl. repeat split; auto; lia.
  - apply rbind_Val in H. destruct H as (v & Hv & H).
    destruct y as [|yi y]; [discriminate|].
    apply rbind_Val in H. destruct H as ([[[lX' lY'] rX'] rY'] & Hrec & H).
    apply IH in Hrec. destruct Hrec as (H1 & H2 & H3 & H4 & H5 & H6).
    assert (G : goes_left featureIndex threshold (row, yi) = flt v threshold)
      by (unfold goes_left; cbn [fst]; now rewrite Hv).
    cbn [combine filter]. rewrite G.
    destruct (flt v threshold); inversion H; subst; cbn [combine length negb];
      repeat split; try lia; try congruence; constructor; eauto.
Qed.

End SplitRows.


(** *** NaN, [0/0] and [-Inf] in both arithmetics *)

Lemma exact_isNaN (x : Exact.xq) : isNaN x = true <-> x = Exact.XNaN.
Proof.
  unfold isNaN. simpl. destruct x as [q| | |]; simpl; try (split; congruence).
  destruct (Qc_eq_dec q q); simpl; split; congruence.
Qed.

#[export] Instance exact_NaNLaws : NaNLaws (F:=Exact.xq).
Proof.
  split; try reflexivity.
  - intros a b H. apply exact_isNaN in H. subst a. reflexivity.
  - intros a b H. apply exact_isNaN in H. subst b. now destruct a.
  - intros a b H. apply exact_isNaN in H. subst b. now destruct a.
  - intros a H. apply exact_isNaN in H. subst a. reflexivity.
  - intros a b H. apply exact_isNaN in H. subst b. now destruct a.
  - intros a b H. apply exact_isNaN in H. subst a. reflexivity.
  - intros a. simpl. now destruct a.
Qed.

Lemma binary64_isNaN (x : float) : isNaN x = true <-> Prim2SF x = S754_nan.
Proof.
  unfold isNaN. simpl. rewrite negb_true_iff, FloatAxioms.eqb_spec.
  rewrite <- not_true_iff_false, SFeqb_compared_as.
  destruct (Prim2SF x); simpl; split; intros H; try reflexivity; try discriminate;
    try (exfalso; apply H; split; congruence).
  intros [_ E]. congruence.
Qed.

Lemma binary64_nan (x : float) : Prim2SF x = S754_nan -> isNaN x = true.
Proof. apply binary64_isNaN. Qed.

#[export] Instance binary64_NaNLaws : NaNLaws (F:=float).
Proof.
  split.
  - reflexivity.
  - vm_compute. reflexivity.
  - intros a b H. apply binary64_isNaN in H. apply binary64_nan. simpl.
    rewrite FloatAxioms.add_spec, H. reflexivity.
  - intros a b H. apply binary64_isNaN in H. apply binary64_nan. simpl.
    rewrite FloatAxioms.add_spec, H. now destruct (Prim2SF a).
  - intros a b H. apply binary64_isNaN in H. apply binary64_nan. simpl.
    rewrite FloatAxioms.mul_spec, H. now destruct (Prim2SF a).
  - intros a H. apply binary64_isNaN in H. apply binary64_nan. simpl.
    rewrite FloatAxioms.opp_spec, H. reflexivity.
  - intros a b H. apply binary64_isNaN in H. simpl.
    rewrite FloatAxioms.ltb_spec, H. unfold SFltb. now destruct (Prim2SF a).
  - intros a b H. apply binary64_isNaN in H. simpl.
    rewrite FloatAxioms.eqb_spec, H. reflexivity.
  - intros a. simpl. rewrite FloatAxioms.ltb_spec.
    change (Prim2SF (B64.Inf (-1))) with (S754_infinity true).
    unfold SFltb. destruct (Prim2SF a) as [s|s| |s m e]; simpl; try reflexivity;
      destruct s; reflexivity.
Qed.

Section SplitLabels.

Context {F : Type} {FO : Float64 F}.

(** X1. The labels that [findBestSplitForFeature] scores on the two sides
    of a threshold are the labels that [splitData] puts on the two sides
    for that threshold, and the two loops panic alike: the split that is
    scored is the split that is made. *)
Theorem partitionLabels_splitData X (y : list F) featureIndex threshold :
  partitionLabels X y featureIndex threshold =
  match splitData X y featureIndex threshold with
  | Val (_, leftY, _, rightY) => Val (leftY, rightY)
  | Fault p => Fault p
  end.
Proof.
  revert y. induction X as [|row X IH]; intros y; simpl; [reflexivity|].
  destruct (index row featureIndex) as [v|p]; simpl; [|reflexivity].
  destruct y as [|yi y]; [reflexivity|]. rewrite IH.
  destruct (splitData X y featureIndex threshold) as [[[[lX lY] rX] rY]|p]; simpl;
    [|reflexivity].
  destruct (flt v threshold); reflexivity.
Qed.

(** *** isSameValue *)

Lemma index_tl (x x' : list F) j :
  tl x = tl x' -> 1 <= j -> index x j = index x' j.
Proof.
  intros Htl Hj. unfold index. destruct (j <? 0); [reflexivity|].
  destruct (Z.to_nat j) as [|n] eqn:E; [lia|].
  destruct x as [|a x], x' as [|a' x']; simpl in *; subst; try reflexivity.
  - now destruct n.
  - now destruct n.
Qed.

Lemma sameFrom_tl (x0 x0' row : list F) j :
  tl x0 = tl x0' -> 1 <= j -> sameFrom x0 row j = sameFrom x0' row j.
Proof.
  intros Htl. revert j. induction row as [|v row IH]; intros j Hj; simpl; [reflexivity|].
  rewrite (index_tl _ _ Htl Hj). destruct (index x0' j) as [v0|p]; simpl; [|reflexivity].
  destruct (negb (feq v v0)); [reflexivity|]. apply IH. lia.
Qed.

(** X2. [isSameValue] does not look at the first column: two data sets
    whose rows agree from the second column on get the same answer, or the
    same panic. *)
Theorem isSameValue_ignores_first_column (X X' : list (list F)) :
  Forall2 (fun row row' => tl row = tl row') X X' ->
  isSameValue X = isSameValue X'.
Proof.
  intros H. destruct H as [|x0 x0' rows rows' H0 H]; [reflexivity|]. simpl.
  induction H as [|row row' rows rows' Hrow _ IH]; simpl; [reflexivity|].
  rewrite Hrow, (sameFrom_tl _ _ _ H0) by lia.
  destruct (sameFrom x0' (tl row') 1) as [[|]|p]; simpl; auto.
Qed.

End SplitLabels.

Section Majority.

Context {F : Type} {FO : Float64 F} {EL : EqLaws (F:=F)}.
Variable iter_src : nat -> nat.

(** X3. A label with strictly more votes than every other label wins the
    vote, in whatever order the run time visits the map of the counts (the
    votes being numbers, none NaN). *)
Theorem majorityVote_strict_majority (votes : list F) v w :
  Forall (fun u => feq u u = true) votes ->
  In v votes ->
  (forall u, In u votes -> feq u v = false -> count u votes < count v votes) ->
  exists p,
    majorityVote iter_src votes w = Ret p (mkWorld (rand_pos w) (S (iter_pos w))) /\
    In p votes /\ feq p v = true.
Proof.
  intros Hnum Hv Hmaj.
  assert (Hne : votes <> []) by (destruct votes; [destruct Hv | discriminate]).
  destruct (majorityVote_first_max iter_src w Hne Hnum) as (entries & _ & Hvc & Hfm & Hrun).
  destruct (first_max_most_frequent Hvc Hfm) as [Hp Hmax].
  exists (scan_votes entries). split; [exact Hrun|]. split; [exact Hp|].
  destruct (feq (scan_votes entries) v) eqn:E; [reflexivity|].
  specialize (Hmaj _ Hp E). specialize (Hmax _ Hv). lia.
Qed.

End Majority.

Section NoSplit.

Context {F : Type} {FO : Float64 F}.
Variable rand_src : nat -> Z.
Variable iter_src : nat -> nat.

Lemma stops_false_labels X (y : list F) depth : stops X y depth = Val false -> y <> [].
Proof.
  unfold stops. intros H E. subst y. simpl in H. rewrite orb_true_r in H. discriminate.
Qed.

Lemma splitData_negative X (y : list F) featureIndex threshold :
  X <> [] -> featureIndex < 0 ->
  splitData X y featureIndex threshold = Fault IndexOutOfRange.
Proof.
  intros HX Hf. destruct X as [|row X]; [congruence|]. simpl.
  unfold index. apply Z.ltb_lt in Hf. now rewrite Hf.
Qed.

(** X4. A build step that has to split (the stopping rule does not hold)
    panics when the tree may use no feature: on [makeslice] for a negative
    [MaxFeatures]; for [MaxFeatures = 0] no feature is drawn, [findBestSplit]
    answers the feature [-1], and [splitData] indexes a row at [-1]. *)
Theorem buildTree_no_feature fuel dt X (y : list F) depth w :
  stops X y depth = Val false ->
  dtMaxFeatures dt <= 0 ->
  buildTree rand_src iter_src (S fuel) dt X y depth w
    = Panic (if dtMaxFeatures dt <? 0 then MakeSliceLen else IndexOutOfRange).
Proof.
  intros Hs Hm. rewrite buildTree_step.
  assert (Hy := Hs). apply stops_false_labels in Hy. apply len_nonzero in Hy. rewrite Hy.
  assert (HX := Hs). apply stops_false_rows in HX.
  unfold bind at 1. rewrite Hs. simpl.
  destruct X as [|x0 X]; [congruence|].
  unfold bind at 1. simpl.
  unfold selectFeatures, make. destruct (dtMaxFeatures dt <? 0) eqn:E.
  - reflexivity.
  - apply Z.ltb_ge in E. replace (dtMaxFeatures dt) with 0 by lia. simpl.
    unfold bind. simpl. unfold index. simpl. reflexivity.
Qed.

Context {NL : NaNLaws (F:=F)}.

Lemma evaluateSplitPoints_unknown dt X (y : list F) featureIndex splitPoints best w r w' :
  String.eqb (dtTask dt) "classification" = false ->
  String.eqb (dtTask dt) "regression" = false ->
  evaluateSplitPoints iter_src dt X y featureIndex splitPoints best w = Ret r w' ->
  r = best.
Proof.
  intros Hc Hr. revert best w. induction splitPoints as [|t rest IH]; intros best w H; simpl in H.
  - now inv_run H.
  - apply bind_Ret in H. destruct H as ([lY rY] & w1 & _ & H).
    apply bind_Ret in H. destruct H as (score & w2 & Hscore & H).
    unfold calculateScore in Hscore. rewrite Hc, Hr in Hscore. inv_run Hscore.
    rewrite (flt_NaN_r _ _ isNaN_NaN) in H. now apply IH in H.
Qed.

Lemma evaluateFeatures_unknown dt X (y : list F) selected best w r w' :
  String.eqb (dtTask dt) "classification" = false ->
  String.eqb (dtTask dt) "regression" = false ->
  evaluateFeatures iter_src dt X y selected best w = Ret r w' ->
  r = best.
Proof.
  intros Hc Hr. revert best w. induction selected as [|fi rest IH]; intros best w H; simpl in H.
  - now inv_run H.
  - apply bind_Ret in H. destruct H as ([thr score] & w1 & Hf & H).
    unfold findBestSplitForFeature in Hf.
    apply bind_Ret in Hf. destruct Hf as (col & w2 & _ & Hf).
    apply bind_Ret in Hf. destruct Hf as (sp & w3 & _ & Hf).
    apply (evaluateSplitPoints_unknown _ _ _ _ _ _ _ Hc Hr) in Hf.
    inversion Hf; subst. rewrite flt_neg_Inf in H. now apply IH in H.
Qed.

(** X5. With a task that is neither "classification" nor "regression"
    every score is NaN and no split is ever chosen: a build step that has
    to split panics, it returns no node. *)
Theorem buildTree_unknown_task fuel dt X (y : list F) depth w :
  dtTask dt <> "classification"%string ->
  dtTask dt <> "regression"%string ->
  stops X y depth = Val false ->
  exists p, buildTree rand_src iter_src (S fuel) dt X y depth w = Panic p.
Proof.
  intros Hc Hr Hs. apply String.eqb_neq in Hc, Hr.
  rewrite buildTree_step.
  assert (Hy := Hs). apply stops_false_labels in Hy. apply len_nonzero in Hy. rewrite Hy.
  assert (HX := Hs). apply stops_false_rows in HX.
  unfold bind at 1. rewrite Hs. simpl.
  destruct (index X 0) as [x0|p] eqn:Ex; unfold bind at 1; simpl; [|eauto].
  unfold bind at 1.
  destruct (selectFeatures rand_src dt (len x0) w) as [sel w1|p|] eqn:Esel; [|eauto|].
  2:{ exfalso. revert Esel. apply fueled_selectFeatures. }
  unfold bind at 1.
  destruct (findBestSplit iter_src dt X y sel w1) as [[fi thr] w2|p|] eqn:Eb; [|eauto|].
  2:{ exfalso. revert Eb. apply fueled_findBestSplit. }
  unfold findBestSplit in Eb. apply bind_Ret in Eb. destruct Eb as (best & w3 & Hb & Eb).
  apply (evaluateFeatures_unknown _ _ _ _ _ _ Hc Hr) in Hb. subst best. inv_run Eb.
  simpl in E. inversion E; subst.
  unfold bind at 1. rewrite (splitData_negative y (Inf 1) HX) by lia. simpl. eauto.
Qed.

(** *** Regression: a split with an empty side *)

Lemma meanSquaredError_nil : isNaN (meanSquaredError ([] : list F)) = true.
Proof. unfold meanSquaredError. simpl. apply isNaN_zero_div_zero. Qed.

(** X6. For regression the score of a split with an empty side is NaN
    (the error of no value is [0/0]), and NaN is greater than no best
    score: such a split is never chosen. *)
Theorem calculateScore_regression_empty_side dt (side : list F) w :
  dtTask dt = "regression"%string ->
  exists s1 s2,
    calculateScore iter_src dt [] side w = Ret s1 w /\
    calculateScore iter_src dt side [] w = Ret s2 w /\
    isNaN s1 = true /\ isNaN s2 = true /\
    forall best, flt best s1 = false /\ flt best s2 = false.
Proof.
  intros Ht. unfold calculateScore. rewrite Ht.
  change (String.eqb "regression" "classification") with false.
  change (String.eqb "regression" "regression") with true. cbv iota.
  eexists. eexists. split; [reflexivity|]. split; [reflexivity|].
  assert (H1 : forall a b c : F, isNaN (fneg (fadd (fmul a (meanSquaredError [])) (fmul b c))) = true).
  { intros. apply isNaN_fneg, isNaN_fadd_l, isNaN_fmul_r, meanSquaredError_nil. }
  assert (H2 : forall a b c : F, isNaN (fneg (fadd (fmul b c) (fmul a (meanSquaredError [])))) = true).
  { intros. apply isNaN_fneg, isNaN_fadd_r, isNaN_fmul_r, meanSquaredError_nil. }
  split; [apply H1|]. split; [apply H2|].
  intros best. split; apply flt_NaN_r; [apply H1 | apply H2].
Qed.

End NoSplit.

(** ** Further properties: a trained tree *)

Section TrainedTree.

Context {F : Type} {FO : Float64 F}.
Variable rand_src : nat -> Z.
Variable iter_src : nat -> nat.

Lemma traverseNode_step (sample : list F) fi thr p l r :
  traverseNode sample (mkNode fi thr p l r) =
  match l, r with
  | None, None => Val p
  | _, _ =>
      x <-! index sample fi ;;
      if flt x thr then traverseTree sample l else traverseTree sample r
  end.
Proof. destruct l, r; reflexivity. Qed.

Lemma in_combine_ex {A B} (l : list A) (l' : list B) x :
  In x l -> (length l <= length l')%nat -> exists y, In (x, y) (combine l l').
Proof.
  revert l'. induction l as [|a l IH]; intros l' Hin Hlen; [destruct Hin|].
  destruct l' as [|b l']; simpl in Hlen; [lia|].
  destruct Hin as [-> | Hin].
  - exists b. simpl. auto.
  - destruct (IH l' Hin) as (y & Hy); [lia|]. exists y. simpl. auto.
Qed.

Lemma in_combine_ex_r {A B} (l : list A) (l' : list B) y :
  In y l' -> (length l' <= length l)%nat -> exists x, In (x, y) (combine l l').
Proof.
  revert l. induction l' as [|b l' IH]; intros l Hin Hlen; [destruct Hin|].
  destruct l as [|a l]; simpl in Hlen; [lia|].
  destruct Hin as [-> | Hin].
  - exists a. simpl. auto.
  - destruct (IH l Hin) as (x & Hx); [lia|]. exists x. simpl. auto.
Qed.

Lemma splitData_incl X (y : list F) featureIndex threshold leftX leftY rightX rightY :
  splitData X y featureIndex threshold = Val (leftX, leftY, rightX, rightY) ->
  incl leftX X /\ incl leftY y /\ incl rightX X /\ incl rightY y.
Proof.
  intros H. apply splitData_filter in H. destruct H as (H1 & H2 & H3 & H4 & H5 & H6).
  repeat split; intros a Ha.
  - destruct (in_combine_ex leftX leftY a Ha) as (b & Hb); [lia|].
    rewrite H4 in Hb. apply filter_In in Hb. destruct Hb as [Hb _].
    now apply in_combine_l in Hb.
  - destruct (in_combine_ex_r leftX leftY a Ha) as (b & Hb); [lia|].
    rewrite H4 in Hb. apply filter_In in Hb. destruct Hb as [Hb _].
    now apply in_combine_r in Hb.
  - destruct (in_combine_ex rightX rightY a Ha) as (b & Hb); [lia|].
    rewrite H5 in Hb. apply filter_In in Hb. destruct Hb as [Hb _].
    now apply in_combine_l in Hb.
  - destruct (in_combine_ex_r rightX rightY a Ha) as (b & Hb); [lia|].
    rewrite H5 in Hb. apply filter_In in Hb. destruct Hb as [Hb _].
    now apply in_combine_r in Hb.
Qed.

(** A row of the partition is sent to the side the node's test names, and
    that side is not empty. *)
Lemma splitData_side X (y : list F) featureIndex threshold leftX leftY rightX rightY row :
  splitData X y featureIndex threshold = Val (leftX, leftY, rightX, rightY) ->
  In row X ->
  exists v, index row featureIndex = Val v /\
            if flt v threshold then In row leftX /\ leftY <> []
            else In row rightX /\ rightY <> [].
Proof.
  intros H Hrow. apply splitData_filter in H. destruct H as (H1 & H2 & H3 & H4 & H5 & H6).
  rewrite Forall_forall in H6. destruct (H6 row Hrow) as (v & Hv). exists v. split; [exact Hv|].
  destruct (in_combine_ex X y row Hrow H3) as (yi & Hin).
  assert (G : goes_left featureIndex threshold (row, yi) = flt v threshold)
    by (unfold goes_left; cbn [fst]; now rewrite Hv).
  destruct (flt v threshold) eqn:E.
  - assert (Hl : In (row, yi) (combine leftX leftY))
      by (rewrite H4; apply filter_In; split; [exact Hin | exact G]).
    split; [now apply in_combine_l in Hl|].
    apply in_combine_r in Hl. intros ->. destruct Hl.
  - assert (Hr : In (row, yi) (combine rightX rightY))
      by (rewrite H5; apply filter_In; split; [exact Hin | now rewrite G]).
    split; [now apply in_combine_l in Hr|].
    apply in_combine_r in Hr. intros ->. destruct Hr.
Qed.

Lemma shaped_traverse X (y : list F) node row :
  shaped X y node -> y <> [] -> In row X ->
  exists v, traverseTree row node = Val v.
Proof.
  intros Hs. revert row. induction Hs as [X | X y p Hy | X y fi thr lX lY rX rY l r Hy Hsp Hl IHl Hr IHr];
    intros row Hne Hrow.
  - congruence.
  - exists p. reflexivity.
  - unfold traverseTree. rewrite traverseNode_step.
    destruct (splitData_side _ _ _ _ _ Hsp Hrow) as (v & Hv & Hside).
    assert (Hstep : exists u,
               (x <-! index row fi ;;
                if flt x thr then traverseTree row l else traverseTree row r) = Val u).
    { rewrite Hv. simpl. destruct (flt v thr); destruct Hside as [Hin Hn]; auto. }
    destruct l, r; try exact Hstep. eauto.
Qed.

(** X7. A tree trained on labels, not empty, returns a value on every
    row it was trained on: there the descent reads no missing feature and
    meets no nil child. *)
Theorem TrainDecisionTree_predicts_training_rows fuel dt X (y : list F) w dt' w' row :
  TrainDecisionTree rand_src iter_src fuel dt X y w = Ret dt' w' ->
  y <> [] ->
  In row X ->
  exists v, PredictDecisionTree (Some dt') row = Val v.
Proof.
  intros H Hy Hrow. unfold TrainDecisionTree in H.
  apply bind_Ret in H. destruct H as (root & w1 & Hb & H). inv_run H.
  apply buildTree_shaped in Hb. simpl.
  eapply shaped_traverse; eauto.
Qed.

Lemma shaped_leaves X (y : list F) node :
  shaped X y node -> (leaves_of node <= length y)%nat.
Proof.
  induction 1 as [X | X y p Hy | X y fi thr lX lY rX rY l r Hy Hsp Hl IHl Hr IHr]; simpl.
  - lia.
  - destruct y; [congruence | simpl; lia].
  - assert (Hsum : (length lY + length rY <= length y)%nat).
    { pose proof Hsp as Hf. apply splitData_filter in Hf.
      apply splitData_lengths in Hsp. lia. }
    unfold leaves_of in IHl, IHr.
    destruct l, r; simpl in *; try lia.
    destruct y; [congruence | simpl; lia].
Qed.

Lemma leaves_positive (node : Node (F:=F)) : (1 <= leaves node)%nat.
Proof.
  induction node as [fi thr p l r IHl IHr] using Node_induction.
  destruct l as [ln|], r as [rn|]; simpl; try lia.
  - specialize (IHl ln eq_refl). lia.
  - specialize (IHl ln eq_refl). lia.
  - specialize (IHr rn eq_refl). lia.
Qed.

(** X8. A tree built from labels has at most as many leaves as there are
    labels, and a leaf at least when there is a label. *)
Theorem buildTree_leaves fuel dt X (y : list F) depth w node w' :
  buildTree rand_src iter_src fuel dt X y depth w = Ret node w' ->
  (leaves_of node <= length y)%nat /\
  (y <> [] -> (1 <= leaves_of node)%nat).
Proof.
  intros H. apply buildTree_shaped in H. split; [now apply shaped_leaves in H|].
  intros Hy. destruct node as [n|]; [apply leaves_positive|].
  apply shaped_nil_iff in H. tauto.
Qed.

End TrainedTree.

(** ** Further properties: bootstrap samples and the training loop *)

Section Bootstrap.

Context {F : Type} {FO : Float64 F}.
Variable rand_src : nat -> Z.
Variable iter_src : nat -> nat.

Lemma index_Val {A} (l : list A) i a :
  index l i = Val a -> 0 <= i /\ nth_error l (Z.to_nat i) = Some a.
Proof.
  unfold index. destruct (i <? 0) eqn:E; [discriminate|]. apply Z.ltb_ge in E.
  destruct (nth_error l (Z.to_nat i)); [|discriminate]. intros H. inversion H. auto.
Qed.

Lemma index_In {A} (l : list A) i a : index l i = Val a -> In a l.
Proof. intros H. apply index_Val in H. destruct H as [_ H]. eapply nth_error_In; eauto. Qed.

Lemma index_lt {A} (l : list A) i :
  0 <= i < len l -> exists a, index l i = Val a /\ nth_error l (Z.to_nat i) = Some a.
Proof.
  intros Hi. unfold index, len in *. destruct (i <? 0) eqn:E; [apply Z.ltb_lt in E; lia|].
  destruct (nth_error l (Z.to_nat i)) as [a|] eqn:En; [eauto|].
  apply nth_error_None in En. lia.
Qed.

(** The draws of a bootstrap sample, one after the other. *)
Lemma bootstrapDraws X (y : list F) m w :
  X <> [] -> (length X <= length y)%nat ->
  exists rows,
    repeatM m (bootstrapDraw rand_src X y (len X)) w
      = Ret rows (mkWorld (rand_pos w + m) (iter_pos w)) /\
    length rows = m /\
    forall k, (k < m)%nat ->
      (drawn rand_src w (len X) k < length X)%nat /\
      nth_error (map fst rows) k = nth_error X (drawn rand_src w (len X) k) /\
      nth_error (map snd rows) k = nth_error y (drawn rand_src w (len X) k).
Proof.
  intros HX Hlen. revert w. induction m as [|m IH]; intros w.
  - exists []. simpl. rewrite Nat.add_0_r. destruct w. repeat split; try reflexivity; lia.
  - assert (Hn : 0 < len X) by (unfold len; destruct X; [congruence | simpl; lia]).
    assert (Hi : 0 <= rand_src (rand_pos w) mod len X < len X) by (apply Z.mod_pos_bound; lia).
    destruct (index_lt X Hi) as (x & Ex & Nx).
    assert (Hi' : 0 <= rand_src (rand_pos w) mod len X < len y) by (unfold len in *; lia).
    destruct (index_lt y Hi') as (v & Ey & Ny).
    destruct (IH (mkWorld (S (rand_pos w)) (iter_pos w))) as (rows & Hrun & Hl & Hk).
    exists ((x, v) :: rows). split; [|split].
    + cbn [repeatM]. unfold bind at 1. unfold bootstrapDraw at 1. unfold bind at 1.
      unfold Intn. destruct (len X <=? 0) eqn:E; [apply Z.leb_le in E; lia|].
      unfold bind at 1. rewrite Ex. simpl. unfold bind at 1. rewrite Ey. simpl.
      unfold bind at 1. unfold ret at 1. unfold bind. rewrite Hrun. unfold ret. simpl.
      do 2 f_equal. lia.
    + simpl. now rewrite Hl.
    + intros [|k] Hklt.
      * unfold drawn. rewrite Nat.add_0_r. simpl. repeat split; auto.
        unfold len in *. lia.
      * specialize (Hk k ltac:(lia)). unfold drawn in *. simpl in Hk |- *.
        replace (rand_pos w + S k)%nat with (S (rand_pos w + k)) by lia. exact Hk.
Qed.

(** X9. When every row has a label, [bootstrapSample] returns as many
    rows as the data has; its [k]-th row is the row that the [k]-th random
    number names, with the label of that row. It draws [len(X)] numbers and
    ranges over no map. *)
Theorem bootstrapSample_draws X (y : list F) w :
  (length X <= length y)%nat ->
  exists XSample ySample,
    bootstrapSample rand_src X y (len X) w
      = Ret (XSample, ySample) (mkWorld (rand_pos w + length X) (iter_pos w)) /\
    length XSample = length X /\ length ySample = length X /\
    forall k, (k < length X)%nat ->
      (drawn rand_src w (len X) k < length X)%nat /\
      nth_error XSample k = nth_error X (drawn rand_src w (len X) k) /\
      nth_error ySample k = nth_error y (drawn rand_src w (len X) k).
Proof.
  intros Hlen. unfold bootstrapSample, make.
  destruct (len X <? 0) eqn:E; [apply Z.ltb_lt in E; unfold len in E; lia|].
  unfold bind at 1. simpl. unfold len at 1. rewrite Nat2Z.id.
  destruct X as [|x0 X'] eqn:EX.
  - exists [], []. simpl. rewrite Nat.add_0_r. destruct w.
    repeat split; try reflexivity; lia.
  - rewrite <- EX in *.
    assert (HX : X <> []) by (rewrite EX; discriminate).
    destruct (@bootstrapDraws X y (length X) w HX Hlen) as (rows & Hrun & Hl & Hk).
    exists (map fst rows), (map snd rows). unfold bind. rewrite Hrun. unfold ret.
    rewrite !length_map. auto.
Qed.

Lemma repeatM_Forall {A} (P : A -> Prop) n (m : M A) w l w' :
  (forall w a w', m w = Ret a w' -> P a) ->
  repeatM n m w = Ret l w' -> Forall P l.
Proof.
  intros Hm. revert w l. induction n as [|n IH]; intros w l H; simpl in H.
  - inv_run H. constructor.
  - apply bind_Ret in H. destruct H as (a & w1 & Ha & H).
    apply bind_Ret in H. destruct H as (rest & w2 & Hrest & H). inv_run H.
    constructor; eauto.
Qed.

Lemma bootstrapSample_incl X (y : list F) n w XSample ySample w' :
  bootstrapSample rand_src X y n w = Ret (XSample, ySample) w' ->
  incl XSample X /\ incl ySample y.
Proof.
  unfold bootstrapSample. intros H.
  apply bind_Ret in H. destruct H as (z & w1 & _ & H).
  apply bind_Ret in H. destruct H as (rows & w2 & Hrows & H). inv_run H.
  inversion E; subst; clear E.
  assert (Hall : Forall (fun r => In (fst r) X /\ In (snd r) y) rows).
  { eapply repeatM_Forall; [|exact Hrows]. intros w0 [x v] w0' Hd. unfold bootstrapDraw in Hd.
    apply bind_Ret in Hd. destruct Hd as (i & w3 & _ & Hd).
    apply bind_Ret in Hd. destruct Hd as (x' & w4 & Hx & Hd).
    apply bind_Ret in Hd. destruct Hd as (v' & w5 & Hv & Hd).
    inv_run Hx. inv_run Hv. inv_run Hd. inversion E1; subst.
    simpl. split; eapply index_In; eauto. }
  rewrite Forall_forall in Hall.
  split; intros a Ha; apply in_map_iff in Ha; destruct Ha as (r & <- & Hr); now apply Hall.
Qed.

(** *** The training loop *)

Lemma nth_error_set_nth_eq {A} (l : list A) n a :
  (n < length l)%nat -> nth_error (set_nth n a l) n = Some a.
Proof.
  revert n. induction l as [|x l IH]; intros n Hn; simpl in *; [lia|].
  destruct n; simpl; [reflexivity | apply IH; lia].
Qed.

Lemma nth_error_set_nth_neq {A} (l : list A) n k a :
  n <> k -> nth_error (set_nth n a l) k = nth_error l k.
Proof.
  revert n k. induction l as [|x l IH]; intros n k Hnk; simpl.
  - now destruct n.
  - destruct n, k; simpl; try reflexivity; try congruence. apply IH. congruence.
Qed.

Lemma length_set_nth {A} (l : list A) n a : length (set_nth n a l) = length l.
Proof.
  revert n. induction l as [|x l IH]; intros n; simpl; [now destruct n|].
  destruct n; simpl; [reflexivity | now rewrite IH].
Qed.

Lemma assign_Val {A} (l l' : list A) i a :
  assign l i a = Val l' ->
  0 <= i < len l /\ l' = set_nth (Z.to_nat i) a l.
Proof.
  unfold assign. destruct ((i <? 0) || (len l <=? i)) eqn:E; [discriminate|].
  apply orb_false_iff in E. destruct E as [E1 E2].
  apply Z.ltb_ge in E1. apply Z.leb_gt in E2. intros H. inversion H. auto.
Qed.

Lemma trainLoop_slots fuel X (y : list F) n i rf w rf' w' :
  trainLoop rand_src iter_src fuel X y n (Z.of_nat i) rf w = Ret rf' w' ->
  NumTrees rf' = NumTrees rf /\ MaxDepth rf' = MaxDepth rf /\
  MaxFeatures rf' = MaxFeatures rf /\ Task rf' = Task rf /\
  length (Trees rf') = length (Trees rf) /\
  (n = O \/ i + n <= length (Trees rf))%nat /\
  forall k,
    ((k < i \/ i + n <= k)%nat -> nth_error (Trees rf') k = nth_error (Trees rf) k) /\
    ((i <= k < i + n)%nat ->
     exists slot, nth_error (Trees rf') k = Some slot /\
                  trained_on rand_src iter_src fuel rf X y slot).
Proof.
  revert i rf w. induction n as [|n IH]; intros i rf w H; simpl in H.
  - inv_run H. repeat split; auto; lia.
  - apply bind_Ret in H. destruct H as ([XS yS] & w1 & Hboot & H).
    apply bind_Ret in H. destruct H as (tree & w2 & Htree & H).
    apply bind_Ret in H. destruct H as (trees & w3 & Hassign & H).
    inv_run Hassign. apply assign_Val in E. destruct E as [Hi ->].
    rewrite Nat2Z.id in *. unfold len in Hi.
    replace (Z.of_nat i + 1) with (Z.of_nat (S i)) in H by lia.
    apply IH in H. cbn [setTrees NumTrees MaxDepth MaxFeatures Task Trees] in H.
    destruct H as (H1 & H2 & H3 & H4 & H5 & H6 & H7).
    rewrite length_set_nth in H5, H6.
    do 5 (split; [assumption|]). split; [right; destruct H6; lia|].
    intros k. split.
    + intros Hk. destruct (H7 k) as [Hout _]. rewrite Hout by lia.
      apply nth_error_set_nth_neq. lia.
    + intros Hk. destruct (Nat.eq_dec k i) as [-> | Hne].
      * destruct (H7 i) as [Hout _]. rewrite Hout by lia.
        rewrite nth_error_set_nth_eq by lia. eexists. split; [reflexivity|].
        unfold TrainDecisionTree in Htree.
        apply bind_Ret in Htree. destruct Htree as (root & w4 & Hroot & Htree).
        inv_run Htree. simpl. unfold trained_on. eauto 12.
      * destruct (H7 k) as [_ Hin]. destruct Hin as (slot & Hs & Ht); [lia|].
        exists slot. split; [exact Hs|].
        destruct Ht as (XS' & yS' & wa & wb & root & wc & Ha & Hb & Hc).
        exists XS', yS', wa, wb, root, wc. auto.
Qed.

(** X10. When training returns, there are [NumTrees] slots at least; each
    of the first [NumTrees] holds the tree built, with the parameters of
    the forest, from a bootstrap sample of the data; the other slots and the
    fields of the forest are as they were. *)
Theorem TrainRandomForest_slots fuel rf X (y : list F) w rf' w' :
  TrainRandomForest rand_src iter_src fuel rf X y w = Ret rf' w' ->
  NumTrees rf' = NumTrees rf /\ MaxDepth rf' = MaxDepth rf /\
  MaxFeatures rf' = MaxFeatures rf /\ Task rf' = Task rf /\
  length (Trees rf') = length (Trees rf) /\
  NumTrees rf <= len (Trees rf) /\
  forall k,
    (NumTrees rf <= Z.of_nat k -> nth_error (Trees rf') k = nth_error (Trees rf) k) /\
    (Z.of_nat k < NumTrees rf ->
     exists slot, nth_error (Trees rf') k = Some slot /\
                  trained_on rand_src iter_src fuel rf X y slot).
Proof.
  unfold TrainRandomForest. intros H.
  apply (trainLoop_slots fuel X y (Z.to_nat (NumTrees rf)) 0) in H.
  destruct H as (H1 & H2 & H3 & H4 & H5 & H6 & H7).
  repeat split; auto.
  - unfold len. destruct H6; lia.
  - intros Hk. apply H7. lia.
  - intros Hk. apply H7. lia.
Qed.

End Bootstrap.

(** ** Further properties: what a trained forest predicts *)

Section TrainedForest.

Context {F : Type} {FO : Float64 F}.
Variable rand_src : nat -> Z.
Variable iter_src : nat -> nat.

Lemma traverseNode_predicts (sample : list F) node v :
  traverseNode sample node = Val v -> predicts node v.
Proof.
  revert v. induction node as [fi thr p l r IHl IHr] using Node_induction.
  intros v H. rewrite traverseNode_step in H.
  destruct l as [ln|], r as [rn|].
  4:{ inversion H; subst. now apply (predicts_leaf (mkNode fi thr v None None)). }
  all: apply rbind_Val in H; destruct H as (x & _ & H);
    destruct (flt x thr); simpl in H; try discriminate.
  all: try solve [eapply predicts_left; [reflexivity | eauto]].
  all: try solve [eapply predicts_right; [reflexivity | eauto]].
Qed.

Lemma predictLoop_values (sample : list F) trees :
  forall done rest ps,
    length rest = length trees ->
    predictLoop sample trees (len done) (done ++ rest) = Val ps ->
    exists vs, ps = done ++ vs /\
               Forall2 (fun slot v => PredictDecisionTree slot sample = Val v) trees vs.
Proof.
  induction trees as [|slot trees IH]; intros done rest ps Hlen H; simpl in H.
  - destruct rest; [|discriminate]. inversion H. exists []. split; [reflexivity | constructor].
  - destruct rest as [|r0 rest]; [discriminate|].
    apply rbind_Val in H. destruct H as (v & Hv & H).
    rewrite assign_app_middle in H. simpl in H.
    replace (done ++ v :: rest) with ((done ++ [v]) ++ rest) in H
      by (rewrite <- app_assoc; reflexivity).
    replace (len done + 1) with (len (done ++ [v])) in H by (rewrite len_app; reflexivity).
    apply IH in H; [|simpl in Hlen; lia]. destruct H as (vs & -> & Hall).
    exists (v :: vs). split; [now rewrite <- app_assoc | now constructor].
Qed.

Context {EL : EqLaws (F:=F)}.

Lemma majorityVote_In (votes : list F) w p w' :
  votes <> [] ->
  Forall (fun u => feq u u = true) votes ->
  majorityVote iter_src votes w = Ret p w' -> In p votes.
Proof.
  intros Hne Hnum H.
  destruct (majorityVote_first_max iter_src w Hne Hnum) as (entries & _ & Hvc & Hfm & Hrun).
  rewrite Hrun in H. inversion H; subst.
  now destruct (first_max_most_frequent Hvc Hfm).
Qed.

Lemma Forall_incl {A} (P : A -> Prop) l l' : incl l l' -> Forall P l' -> Forall P l.
Proof.
  intros Hi Hl. rewrite Forall_forall in *. auto.
Qed.

(** Every leaf of a tree predicts what [getLeafPrediction] makes of some of
    its labels: a property [P] that the leaf prediction of labels with [P]
    has, every leaf has. *)
Lemma buildTree_predicts_all (P : F -> Prop) fuel dt X (y : list F) depth w node w' v :
  (forall y' p w w', y' <> [] -> Forall P y' ->
                     getLeafPrediction iter_src dt y' w = Ret p w' -> P p) ->
  Forall P y ->
  buildTree rand_src iter_src fuel dt X y depth w = Ret (Some node) w' ->
  predicts node v -> P v.
Proof.
  intros Hleafs. revert X y depth w node w' v.
  induction fuel as [|fuel IH]; intros X y depth w node w' v Hnum H Hp; [discriminate|].
  apply buildTree_cases in H.
  destruct H as [_ E _ | p Hy Hs Hleaf E | fi thr lX lY rX rY l r w1 w2 Hy Hs Hsp Hl Hr E];
    [discriminate | |]; inversion E; subst node; clear E.
  - apply (Hleafs _ _ _ _ Hy Hnum) in Hleaf.
    inversion Hp; subst; simpl in *; try discriminate. exact Hleaf.
  - pose proof (splitData_incl _ _ _ _ Hsp) as (_ & Hil & _ & Hir).
    inversion Hp as [n Hln Hrn | n l' v' Hln Hpl | n r' v' Hrn Hpr]; subst; simpl in *.
    + subst l r. apply buildTree_shaped in Hl, Hr.
      apply shaped_nil_iff in Hl, Hr.
      assert (lY = []) by tauto. assert (rY = []) by tauto. subst lY rY.
      apply splitData_lengths in Hsp. apply stops_false_rows in Hs.
      destruct X; [congruence | simpl in Hsp; lia].
    + subst l. eapply IH; [|exact Hl | exact Hpl]. eapply Forall_incl; eauto.
    + subst r. eapply IH; [|exact Hr | exact Hpr]. eapply Forall_incl; eauto.
Qed.

(** The property passes to the predictions of the trees of a trained
    forest, one for each of the [NumTrees] trees. *)
Lemma trained_predictions (P : F -> Prop) fuel rf X (y : list F) w trained w1 sample ps :
  (forall y' p w w', y' <> [] -> Forall P y' ->
     getLeafPrediction iter_src (NewDecisionTree (MaxDepth rf) (MaxFeatures rf) (Task rf))
       y' w = Ret p w' -> P p) ->
  NumTrees rf = len (Trees rf) ->
  Forall P y ->
  TrainRandomForest rand_src iter_src fuel rf X y w = Ret trained w1 ->
  predictLoop sample (Trees trained) 0 (repeat (of_int 0) (Z.to_nat (NumTrees rf))) = Val ps ->
  Forall P ps /\ len ps = NumTrees rf.
Proof.
  intros Hleafs Hn Hnum Htrain Hloop.
  unfold TrainRandomForest in Htrain.
  apply (@trainLoop_slots _ _ rand_src iter_src fuel X y (Z.to_nat (NumTrees rf)) O) in Htrain.
  destruct Htrain as (H1 & H2 & H3 & H4 & H5 & H6 & H7).
  apply (predictLoop_values sample (Trees trained) [] (repeat (of_int 0) (Z.to_nat (NumTrees rf))))
    in Hloop.
  2:{ rewrite repeat_length, H5, Hn. unfold len. now rewrite Nat2Z.id. }
  destruct Hloop as (vs & -> & Hall). simpl.
  assert (Hlen := Forall2_length Hall). split; [|unfold len in *; lia].
  rewrite Forall_forall. intros p Hp.
  destruct (In_nth_error _ _ Hp) as (k & Hk).
  assert (Hklt : (k < length vs)%nat) by (apply nth_error_Some; congruence).
  destruct (H7 k) as [_ Hin].
  destruct Hin as (slot & Hslot & Htr); [unfold len in Hn; lia|].
  destruct Htr as (XS & yS & wc & wd & root & we & Hboot & Hbuild & ->).
  assert (Hrow : PredictDecisionTree
                   (Some (mkDecisionTree root (MaxDepth rf) (MaxFeatures rf) (Task rf)))
                   sample = Val p).
  { clear - Hall Hslot Hk. revert k Hslot Hk.
    induction Hall as [|s u ts us Hsu _ IH]; intros [|k] Hs Hu; simpl in *;
      try discriminate; eauto.
    inversion Hs; inversion Hu; subst. exact Hsu. }
  simpl in Hrow. destruct root as [root|]; [|discriminate]. simpl in Hrow.
  apply traverseNode_predicts in Hrow.
  apply bootstrapSample_incl in Hboot. destruct Hboot as [_ Hincl].
  refine (@buildTree_predicts_all P fuel
            (NewDecisionTree (MaxDepth rf) (MaxFeatures rf) (Task rf))
            XS yS (MaxDepth rf) wd root we p Hleafs _ Hbuild Hrow).
  eapply Forall_incl; eauto.
Qed.

Lemma PredictRandomForest_votes rf (sample : list F) w v w' :
  PredictRandomForest iter_src rf sample w = Ret v w' ->
  exists ps,
    predictLoop sample (Trees rf) 0 (repeat (of_int 0) (Z.to_nat (NumTrees rf))) = Val ps /\
    (if String.eqb (Task rf) "classification" then rf_majorityVote iter_src ps
     else if String.eqb (Task rf) "regression" then ret (rf_mean ps)
     else ret NaN) w = Ret v w'.
Proof.
  unfold PredictRandomForest. intros H.
  apply bind_Ret in H. destruct H as (zeros & wa & Hz & H).
  apply bind_Ret in H. destruct H as (ps & wb & Hps & H).
  inv_run Hz. inv_run Hps. unfold make in E.
  destruct (NumTrees rf <? 0); [discriminate|]. inversion E; subst zeros.
  exists ps. auto.
Qed.

(** X11. A classification forest with a slot for each of its trees, one
    at least, trained on labels that are numbers, predicts (when it returns)
    one of the labels it was trained on. *)
Theorem PredictRandomForest_training_label fuel rf X (y : list F) w trained w1 sample w2 v w3 :
  Task rf = "classification"%string ->
  NumTrees rf = len (Trees rf) ->
  0 < NumTrees rf ->
  Forall (fun u => feq u u = true) y ->
  TrainRandomForest rand_src iter_src fuel rf X y w = Ret trained w1 ->
  PredictRandomForest iter_src trained sample w2 = Ret v w3 ->
  In v y.
Proof.
  intros Ht Hn Hpos Hnum Htrain Hpred.
  assert (Hfields : NumTrees trained = NumTrees rf /\ Task trained = Task rf).
  { pose proof Htrain as H. unfold TrainRandomForest in H.
    apply (@trainLoop_slots _ _ rand_src iter_src fuel X y (Z.to_nat (NumTrees rf)) O) in H. tauto. }
  destruct Hfields as [Hnt Htask].
  apply PredictRandomForest_votes in Hpred. destruct Hpred as (ps & Hloop & Hvote).
  rewrite Hnt in Hloop. rewrite Htask, Ht in Hvote.
  change (String.eqb "classification" "classification") with true in Hvote. cbv iota in Hvote.
  set (P := fun v : F => In v y /\ feq v v = true).
  assert (Hy : Forall P y).
  { rewrite Forall_forall in *. intros u Hu. split; auto. }
  destruct (@trained_predictions P fuel rf X y w trained w1 sample ps) as [Hps Hlen]; auto.
  { intros y' p wa wb Hne Hall Hleaf. unfold getLeafPrediction in Hleaf. simpl in Hleaf.
    rewrite Ht in Hleaf.
    change (String.eqb "classification" "classification") with true in Hleaf.
    cbv iota in Hleaf.
    assert (Hnum' : Forall (fun u => feq u u = true) y').
    { eapply Forall_impl; [|exact Hall]. intros a [_ Ha]. exact Ha. }
    apply (majorityVote_In Hne Hnum') in Hleaf.
    rewrite Forall_forall in Hall. now apply Hall. }
  assert (Hne : ps <> []) by (intros ->; unfold len in Hlen; simpl in Hlen; lia).
  assert (Hnum' : Forall (fun u => feq u u = true) ps).
  { eapply Forall_impl; [|exact Hps]. intros a [_ Ha]. exact Ha. }
  apply (majorityVote_In Hne Hnum') in Hvote.
  rewrite Forall_forall in Hps. now apply Hps.
Qed.

End TrainedForest.

Section EmptyData.

Context {F : Type} {FO : Float64 F}.
Variable rand_src : nat -> Z.
Variable iter_src : nat -> nat.

Lemma bind_run {A B} (m : M A) (k : A -> M B) w a w1 :
  m w = Ret a w1 -> bind m k w = k a w1.
Proof. intros H. unfold bind. now rewrite H. Qed.

Lemma trainLoop_empty fuel (y : list F) n i rf w :
  (i + n <= length (Trees rf))%nat ->
  exists rf', trainLoop rand_src iter_src (S fuel) [] y n (Z.of_nat i) rf w = Ret rf' w.
Proof.
  revert i rf. induction n as [|n IH]; intros i rf Hlen; simpl.
  - eexists. reflexivity.
  - assert (Hb : bootstrapSample rand_src [] y (len (@nil (list F))) w = Ret ([], []) w)
      by reflexivity.
    rewrite (@bind_run _ _ _ _ _ _ _ Hb).
    assert (Ht : TrainDecisionTree rand_src iter_src (S fuel)
                   (NewDecisionTree (MaxDepth rf) (MaxFeatures rf) (Task rf)) [] [] w
                 = Ret (mkDecisionTree None (MaxDepth rf) (MaxFeatures rf) (Task rf)) w)
      by reflexivity.
    rewrite (@bind_run _ _ _ _ _ _ _ Ht).
    assert (Ha : assign (Trees rf) (Z.of_nat i)
                   (Some (mkDecisionTree None (MaxDepth rf) (MaxFeatures rf) (Task rf)))
                 = Val (set_nth i (Some (mkDecisionTree None (MaxDepth rf) (MaxFeatures rf) (Task rf)))
                          (Trees rf))).
    { unfold assign, len. destruct (Z.of_nat i <? 0) eqn:E1; [apply Z.ltb_lt in E1; lia|].
      destruct (_ <=? _) eqn:E2; [apply Z.leb_le in E2; lia|]. simpl. now rewrite Nat2Z.id. }
    unfold bind at 1. unfold lift. rewrite Ha. unfold ret at 1.
    replace (Z.of_nat i + 1) with (Z.of_nat (S i)) by lia.
    apply IH. simpl. rewrite length_set_nth. lia.
Qed.

(** X12. Training on no row returns, drawing no number, every tree with a
    nil root; predicting with that forest panics on the nil root. *)
Theorem TrainRandomForest_empty_dataset fuel rf (y sample : list F) w w2 :
  NumTrees rf = len (Trees rf) ->
  0 < NumTrees rf ->
  exists trained,
    TrainRandomForest rand_src iter_src (S fuel) rf [] y w = Ret trained w /\
    length (Trees trained) = length (Trees rf) /\
    Forall (fun slot => slot = Some (NewDecisionTree (MaxDepth rf) (MaxFeatures rf) (Task rf)))
           (Trees trained) /\
    PredictRandomForest iter_src trained sample w2 = Panic NilDereference.
Proof.
  intros Hn Hpos.
  destruct (@trainLoop_empty fuel y (Z.to_nat (NumTrees rf)) 0 rf w) as (trained & Hrun).
  { unfold len in Hn. lia. }
  exists trained. split; [exact Hrun|].
  pose proof Hrun as Hs. unfold TrainRandomForest in Hs.
  apply (@trainLoop_slots _ _ rand_src iter_src (S fuel) [] y (Z.to_nat (NumTrees rf)) O) in Hs.
  destruct Hs as (H1 & H2 & H3 & H4 & H5 & H6 & H7).
  split; [exact H5|].
  assert (Hall : Forall (fun slot => slot = Some (NewDecisionTree (MaxDepth rf) (MaxFeatures rf) (Task rf)))
                        (Trees trained)).
  { rewrite Forall_forall. intros slot Hin.
    destruct (In_nth_error _ _ Hin) as (k & Hk).
    assert (Hklt : (k < length (Trees trained))%nat) by (apply nth_error_Some; congruence).
    destruct (H7 k) as [_ Htr].
    destruct Htr as (slot' & Hslot & XS & yS & wa & wb & root & wc & Hboot & Hbuild & ->);
      [unfold len in Hn; lia|].
    rewrite Hk in Hslot. inversion Hslot; subst slot.
    unfold bootstrapSample in Hboot. simpl in Hboot. unfold bind in Hboot. simpl in Hboot.
    inversion Hboot; subst. simpl in Hbuild. inversion Hbuild. reflexivity. }
  split; [exact Hall|].
  unfold PredictRandomForest, make. rewrite H1.
  destruct (NumTrees rf <? 0) eqn:E; [apply Z.ltb_lt in E; lia|].
  unfold bind at 1. simpl.
  destruct (Trees trained) as [|slot trees] eqn:Et.
  - simpl in H5. unfold len in Hn. lia.
  - inversion Hall; subst. unfold bind. simpl. reflexivity.
Qed.

End EmptyData.

(** ** Further properties: the split chosen *)

Section BestSplit.

Context {F : Type} {FO : Float64 F}.
Variable iter_src : nat -> nat.

Lemma insert_sorted_perm (x : F) l : Permutation (insert_sorted x l) (x :: l).
Proof.
  induction l as [|h t IH]; simpl; [apply Permutation_refl|].
  destruct (less x h); [apply Permutation_refl|].
  eapply Permutation_trans; [apply perm_skip, IH | apply perm_swap].
Qed.

(** Sorting keeps the values. *)
Lemma Float64s_perm (l : list F) : Permutation (Float64s l) l.
Proof.
  unfold Float64s. induction l as [|x l IH]; simpl; [constructor|].
  eapply Permutation_trans; [apply insert_sorted_perm | now apply perm_skip].
Qed.

Lemma midpoints_In (l : list F) t :
  In t (midpoints l) ->
  exists a b, In a l /\ In b l /\ t = fdiv (fadd a b) (of_int 2).
Proof.
  induction l as [|a l IH]; [intros []|].
  destruct l as [|b l]; [intros []|].
  intros [<- | Hin].
  - exists a, b. simpl. auto.
  - destruct (IH Hin) as (a' & b' & Ha & Hb & E). exists a', b'. simpl in *. tauto.
Qed.

Lemma evaluateSplitPoints_result dt X (y : list F) featureIndex splitPoints best w r w' :
  evaluateSplitPoints iter_src dt X y featureIndex splitPoints best w = Ret r w' ->
  r = best \/ In (fst r) splitPoints.
Proof.
  revert best w. induction splitPoints as [|t rest IH]; intros best w H; simpl in H.
  - inv_run H. now left.
  - apply bind_Ret in H. destruct H as ([lY rY] & w1 & _ & H).
    apply bind_Ret in H. destruct H as (score & w2 & _ & H).
    apply IH in H. destruct H as [-> | H]; [|right; simpl; auto].
    destruct (flt (snd best) score); [right; simpl; auto | now left].
Qed.

Lemma findBestSplitForFeature_result dt X (y : list F) featureIndex w thr score w' :
  findBestSplitForFeature iter_src dt X y featureIndex w = Ret (thr, score) w' ->
  (thr, score) = (of_int 0, Inf (-1)) \/ midpoint_of X featureIndex thr.
Proof.
  unfold findBestSplitForFeature. intros H.
  apply bind_Ret in H. destruct H as (col & w1 & Hcol & H).
  apply bind_Ret in H. destruct H as (sp & w2 & _ & H). inv_run Hcol.
  apply evaluateSplitPoints_result in H. destruct H as [H | H]; [now left | right].
  simpl in H. apply midpoints_In in H. destruct H as (a & b & Ha & Hb & Et).
  exists col, a, b. repeat split; auto.
  - apply (Permutation_in _ (Float64s_perm col)). exact Ha.
  - apply (Permutation_in _ (Float64s_perm col)). exact Hb.
Qed.

Context {NL : NaNLaws (F:=F)}.

Lemma evaluateFeatures_result dt X (y : list F) selected best w fi thr score w' :
  evaluateFeatures iter_src dt X y selected best w = Ret (fi, thr, score) w' ->
  (fi, thr, score) = best \/ (In fi selected /\ midpoint_of X fi thr).
Proof.
  revert best w. induction selected as [|f rest IH]; intros best w H; simpl in H.
  - inv_run H. now left.
  - apply bind_Ret in H. destruct H as ([t s] & w1 & Hf & H).
    apply IH in H. destruct H as [H | [Hin Hm]]; [|right; simpl; auto].
    destruct (flt (snd best) s) eqn:E; [|now left].
    right. inversion H; subst. split; [simpl; auto|].
    apply findBestSplitForFeature_result in Hf. destruct Hf as [Hf | Hf]; [|exact Hf].
    inversion Hf; subst. rewrite flt_neg_Inf in E. discriminate.
Qed.

(** X13. The split [findBestSplit] chooses: no feature at all ([-1], with
    the threshold [+Inf]), or one of the features drawn, at a threshold
    halfway between two values that feature takes in the rows. *)
Theorem findBestSplit_result dt X (y : list F) selected w featureIndex threshold w' :
  findBestSplit iter_src dt X y selected w = Ret (featureIndex, threshold) w' ->
  (featureIndex = -1 /\ threshold = Inf 1) \/
  (In featureIndex selected /\ midpoint_of X featureIndex threshold).
Proof.
  unfold findBestSplit. intros H.
  apply bind_Ret in H. destruct H as ([[fi thr] score] & w1 & Hb & H). inv_run H.
  simpl in E. inversion E; subst.
  apply evaluateFeatures_result in Hb. destruct Hb as [Hb | Hb]; [left | now right].
  inversion Hb. auto.
Qed.

End BestSplit.

(** ** Further properties: imputing missing values *)

Section Impute.

Context {F : Type} {FO : Float64 F}.

Lemma index_nat {A} (l : list A) (j : nat) d :
  (j < length l)%nat -> index l (Z.of_nat j) = Val (nth j l d).
Proof.
  intros H. rewrite (index_nth l d) by (unfold len; lia). now rewrite Nat2Z.id.
Qed.

Lemma index_short {A} (l : list A) (j : nat) :
  (length l <= j)%nat -> index l (Z.of_nat j) = Fault IndexOutOfRange.
Proof.
  intros H. unfold index. destruct (Z.of_nat j <? 0); [reflexivity|].
  rewrite Nat2Z.id. apply nth_error_None in H. now rewrite H.
Qed.

Lemma columnSum_observed (X : list (list F)) j s c :
  Forall (fun row => (j < length row)%nat) X ->
  Package.columnSum X (Z.of_nat j) (s, c)
    = Val (fold_left fadd (observed X j) s, c + len (observed X j)).
Proof.
  unfold observed. intros H. revert s c.
  induction H as [|row X Hrow _ IH]; intros s c; simpl.
  - unfold len. simpl. now rewrite Z.add_0_r.
  - rewrite (index_nat row (of_int 0) Hrow). simpl.
    destruct (isNaN (nth j row (of_int 0))); simpl.
    + apply IH.
    + rewrite IH. f_equal. f_equal. unfold len. simpl length. lia.
Qed.

Lemma columnSum_short (X : list (list F)) j acc :
  Exists (fun row => (length row <= j)%nat) X ->
  Package.columnSum X (Z.of_nat j) acc = Fault IndexOutOfRange.
Proof.
  intros H. revert acc. induction H as [row X Hrow | row X _ IH]; intros acc; simpl.
  - now rewrite (index_short row Hrow).
  - destruct (index row (Z.of_nat j)) as [v|p] eqn:E; simpl; [apply IH|].
    unfold index in E. destruct (Z.of_nat j <? 0); [congruence|].
    destruct (nth_error row (Z.to_nat (Z.of_nat j))); congruence.
Qed.

Lemma columnMeans_means (X : list (list F)) n j :
  Forall (fun row => (j + n <= length row)%nat) X ->
  Package.columnMeans X n (Z.of_nat j) = Val (column_means X n j).
Proof.
  revert j. induction n as [|n IH]; intros j H; simpl; [reflexivity|].
  rewrite columnSum_observed by (eapply Forall_impl; [|exact H]; simpl; intros; lia).
  simpl. replace (Z.of_nat j + 1) with (Z.of_nat (S j)) by lia.
  rewrite IH by (eapply Forall_impl; [|exact H]; simpl; intros; lia).
  simpl. unfold column_means. simpl. reflexivity.
Qed.

Lemma columnMeans_short (X : list (list F)) n j :
  Forall (fun row => (j <= length row)%nat) X ->
  Exists (fun row => (length row < j + n)%nat) X ->
  Package.columnMeans X n (Z.of_nat j) = Fault IndexOutOfRange.
Proof.
  revert j. induction n as [|n IH]; intros j Hall Hex; simpl.
  - exfalso. rewrite Forall_forall in Hall. apply Exists_exists in Hex.
    destruct Hex as (row & Hin & Hlt). specialize (Hall row Hin). lia.
  - destruct (Forall_Exists_dec (fun row : list F => (j < length row)%nat)
                (fun row => lt_dec j (length row)) X) as [Hlong | Hshort].
    + rewrite columnSum_observed by exact Hlong. simpl.
      replace (Z.of_nat j + 1) with (Z.of_nat (S j)) by lia.
      rewrite IH; [reflexivity | exact Hlong |].
      eapply Exists_impl; [|exact Hex]. simpl. intros; lia.
    + rewrite columnSum_short; [reflexivity|].
      eapply Exists_impl; [|exact Hshort]. simpl. intros; lia.
Qed.

Lemma imputeRow_fill (means done rest : list F) :
  (length means <= length rest)%nat ->
  Package.imputeRow means (len done) (done ++ rest) = Val (done ++ fill means rest).
Proof.
  revert done rest. induction means as [|m means IH]; intros done rest Hlen; simpl.
  - now destruct rest.
  - destruct rest as [|v rest]; simpl in Hlen; [lia|].
    rewrite index_app_middle. simpl.
    assert (Estep : (if isNaN v then assign (done ++ v :: rest) (len done) m
                     else Val (done ++ v :: rest))
                    = Val (done ++ (if isNaN v then m else v) :: rest)).
    { destruct (isNaN v); [apply assign_app_middle | reflexivity]. }
    rewrite Estep. simpl.
    replace (done ++ (if isNaN v then m else v) :: rest)
      with ((done ++ [if isNaN v then m else v]) ++ rest)
      by (rewrite <- app_assoc; reflexivity).
    replace (len done + 1) with (len (done ++ [if isNaN v then m else v]))
      by (rewrite len_app; reflexivity).
    rewrite IH by lia. now rewrite <- app_assoc.
Qed.

Lemma mapR_map {A B} (f : A -> res B) (g : A -> B) l :
  Forall (fun a => f a = Val (g a)) l -> mapR f l = Val (map g l).
Proof.
  induction 1 as [|a l Ha _ IH]; simpl; [reflexivity|]. now rewrite Ha, IH.
Qed.

Lemma length_column_means (X : list (list F)) n j : length (column_means X n j) = n.
Proof. unfold column_means. now rewrite length_map, length_seq. Qed.

Lemma imputeMissingValues_long (X : list (list F)) x0 :
  hd_error X = Some x0 ->
  Forall (fun row => (length x0 <= length row)%nat) X ->
  Package.imputeMissingValues X = Val (map (fill (column_means X (length x0) 0)) X).
Proof.
  intros Hhd Hall. destruct X as [|x X']; [discriminate|]. inversion Hhd; subst x.
  unfold Package.imputeMissingValues.
  change (index (x0 :: X') 0) with (Val x0). cbn [rbind].
  unfold make. destruct (len x0 <? 0) eqn:E; [apply Z.ltb_lt in E; unfold len in E; lia|].
  cbn [rbind]. unfold len at 1. rewrite Nat2Z.id.
  change 0 with (Z.of_nat 0) at 1. rewrite columnMeans_means by exact Hall. cbn [rbind].
  apply mapR_map. eapply Forall_impl; [|exact Hall]. simpl. intros row Hrow.
  apply (imputeRow_fill (column_means (x0 :: X') (length x0) 0) [] row).
  now rewrite length_column_means.
Qed.

Lemma length_fill (means row : list F) : length (fill means row) = length row.
Proof.
  revert row. induction means as [|m means IH]; intros [|v row]; simpl; auto.
Qed.

Lemma nth_fill (means row : list F) k d :
  (k < length means)%nat -> (k < length row)%nat ->
  nth k (fill means row) d = if isNaN (nth k row d) then nth k means d else nth k row d.
Proof.
  revert row k. induction means as [|m means IH]; intros [|v row] k Hm Hr; simpl in *; try lia.
  destruct k as [|k]; [reflexivity|]. apply IH; lia.
Qed.

Lemma nth_column_means (X : list (list F)) n k d :
  (k < n)%nat -> nth k (column_means X n 0) d = mean (observed X k).
Proof.
  intros Hk. unfold column_means.
  rewrite (nth_indep _ d (mean (observed X (nth n (seq 0 n) O))))
    by (now rewrite length_map, length_seq).
  rewrite (map_nth (fun k => mean (observed X k)) (seq 0 n) (nth n (seq 0 n) O) k).
  now rewrite seq_nth.
Qed.

(** X14. On rows as long as the first at least, [imputeMissingValues]
    returns; it replaces each NaN among the columns of the first row by the
    mean of the values of its column that are not NaN, and keeps every other
    value and the length of every row. *)
Theorem imputeMissingValues_fills (X : list (list F)) :
  X <> [] ->
  Forall (fun row => (length (hd [] X) <= length row)%nat) X ->
  exists X',
    Package.imputeMissingValues X = Val X' /\
    Forall2 (fun row row' =>
               length row' = length row /\
               forall k,
                 nth k row' (of_int 0) =
                 if (k <? length (hd [] X))%nat && isNaN (nth k row (of_int 0))
                 then mean (observed X k)
                 else nth k row (of_int 0)) X X'.
Proof.
  intros Hne Hall. destruct X as [|x0 X'] eqn:EX; [congruence|]. rewrite <- EX in *.
  assert (Hhd : hd_error X = Some x0) by (now rewrite EX).
  assert (Hx0 : hd [] X = x0) by (now rewrite EX). rewrite Hx0 in *.
  eexists. split; [apply (imputeMissingValues_long Hhd Hall)|].
  clear EX Hhd Hx0 Hne. set (means := column_means X (length x0) 0).
  set (mu := fun k => mean (observed X k)).
  change (Forall2 (fun row row' =>
                     length row' = length row /\
                     forall k, nth k row' (of_int 0) =
                               if (k <? length x0)%nat && isNaN (nth k row (of_int 0))
                               then mu k else nth k row (of_int 0))
                  X (map (fill means) X)).
  assert (Hm : forall k, (k < length x0)%nat -> nth k means (of_int 0) = mu k)
    by (intros; now apply nth_column_means).
  assert (Hl : length means = length x0) by apply length_column_means.
  clearbody means mu. induction Hall as [|row rows Hrow _ IH]; simpl; constructor; auto.
  split; [apply length_fill|]. intros k.
  destruct (k <? length x0)%nat eqn:Ek; simpl.
  - apply Nat.ltb_lt in Ek. rewrite nth_fill by lia. now rewrite Hm.
  - apply Nat.ltb_ge in Ek. clear - Hl Ek. revert row k Ek. rewrite <- Hl. clear Hl.
    induction means as [|m means IH]; intros [|v row] k Hk; simpl in *; try reflexivity.
    destruct k as [|k]; [lia|]. apply IH. lia.
Qed.

(** X15. [imputeMissingValues] panics on no row, and on a row shorter
    than the first. *)
Theorem imputeMissingValues_panics (X : list (list F)) :
  X = [] \/ Exists (fun row => (length row < length (hd [] X))%nat) X ->
  Package.imputeMissingValues X = Fault IndexOutOfRange.
Proof.
  intros [-> | Hex]; [reflexivity|].
  destruct X as [|x0 X']; [inversion Hex|]. simpl hd in Hex.
  unfold Package.imputeMissingValues.
  change (index (x0 :: X') 0) with (Val x0). cbn [rbind].
  unfold make. destruct (len x0 <? 0) eqn:E; [apply Z.ltb_lt in E; unfold len in E; lia|].
  cbn [rbind]. unfold len at 1. rewrite Nat2Z.id.
  change 0 with (Z.of_nat 0) at 1. rewrite columnMeans_short; [reflexivity | | exact Hex].
  rewrite Forall_forall. intros; lia.
Qed.

End Impute.

Section ImputeTwice.

Context {F : Type} {FO : Float64 F}.

Lemma fill_fill (means means' row : list F) :
  length means = length means' ->
  (forall k, (k < length means)%nat ->
             isNaN (nth k means (of_int 0)) = true ->
             nth k means' (of_int 0) = nth k means (of_int 0)) ->
  fill means' (fill means row) = fill means row.
Proof.
  revert means' row. induction means as [|m means IH]; intros [|m' means'] row Hlen Hk;
    simpl in Hlen; try lia.
  - now destruct row.
  - destruct row as [|v row]; [reflexivity|]. simpl. f_equal.
    + destruct (isNaN v) eqn:Ev.
      * destruct (isNaN m) eqn:Em; [|reflexivity].
        apply (Hk O); simpl; [lia | exact Em].
      * now rewrite Ev.
    + apply IH; [lia|]. intros k Hlt Hn. apply (Hk (S k)); simpl; [lia | exact Hn].
Qed.

Lemma observed_fill (X : list (list F)) means k :
  (k < length means)%nat ->
  Forall (fun row => (length means <= length row)%nat) X ->
  isNaN (nth k means (of_int 0)) = true ->
  observed (map (fill means) X) k = observed X k.
Proof.
  intros Hk Hall Hn. unfold observed.
  induction Hall as [|row rows Hrow _ IH]; simpl; [reflexivity|].
  rewrite nth_fill by lia.
  destruct (isNaN (nth k row (of_int 0))) eqn:Ev; simpl.
  - rewrite Hn. simpl. exact IH.
  - rewrite Ev. simpl. now rewrite IH.
Qed.

(** X16. Imputing twice is imputing once. *)
Theorem imputeMissingValues_idempotent (X : list (list F)) :
  X <> [] ->
  Forall (fun row => (length (hd [] X) <= length row)%nat) X ->
  exists X',
    Package.imputeMissingValues X = Val X' /\
    Package.imputeMissingValues X' = Val X'.
Proof.
  intros Hne Hall. destruct X as [|x0 rows] eqn:EX; [congruence|]. rewrite <- EX in *.
  assert (Hhd : hd_error X = Some x0) by (now rewrite EX).
  assert (Hx0 : hd [] X = x0) by (now rewrite EX). rewrite Hx0 in *.
  set (means := column_means X (length x0) 0).
  assert (Hl : length means = length x0) by apply length_column_means.
  exists (map (fill means) X). split; [apply (imputeMissingValues_long Hhd Hall)|].
  assert (Hhd' : hd_error (map (fill means) X) = Some (fill means x0)) by (now rewrite EX).
  assert (Hall' : Forall (fun row => (length (fill means x0) <= length row)%nat)
                         (map (fill means) X)).
  { rewrite Forall_map. eapply Forall_impl; [|exact Hall]. simpl. intros row Hrow.
    now rewrite !length_fill. }
  rewrite (imputeMissingValues_long Hhd' Hall'). f_equal.
  rewrite length_fill. rewrite map_map. apply map_ext_in. intros row Hrow.
  apply fill_fill.
  - now rewrite length_column_means.
  - intros k Hk Hn. rewrite Hl in Hk. unfold means in *.
    rewrite !nth_column_means in * by exact Hk.
    rewrite observed_fill; [reflexivity | | |].
    + now rewrite length_column_means.
    + now rewrite length_column_means.
    + now rewrite nth_column_means.
Qed.

Context {NL : NaNLaws (F:=F)}.

(** X17. A column with no value to average stays NaN: its mean is
    [0/0]. *)
Theorem imputeMissingValues_unobserved_column (X : list (list F)) k :
  X <> [] ->
  Forall (fun row => (length (hd [] X) <= length row)%nat) X ->
  (k < length (hd [] X))%nat ->
  Forall (fun row => isNaN (nth k row (of_int 0)) = true) X ->
  exists X',
    Package.imputeMissingValues X = Val X' /\
    Forall (fun row' => isNaN (nth k row' (of_int 0)) = true) X'.
Proof.
  intros Hne Hall Hk Hnan. destruct X as [|x0 rows] eqn:EX; [congruence|]. rewrite <- EX in *.
  assert (Hhd : hd_error X = Some x0) by (now rewrite EX).
  assert (Hx0 : hd [] X = x0) by (now rewrite EX). rewrite Hx0 in *.
  eexists. split; [apply (imputeMissingValues_long Hhd Hall)|].
  assert (Hobs : observed X k = []).
  { unfold observed. clear - Hnan. induction Hnan as [|row rows Hrow _ IH]; simpl; [reflexivity|].
    rewrite Hrow. simpl. exact IH. }
  rewrite Forall_map, Forall_forall. intros row Hrow.
  rewrite Forall_forall in Hall, Hnan.
  rewrite nth_fill; [| rewrite length_column_means; lia | specialize (Hall row Hrow); lia].
  rewrite (Hnan row Hrow), nth_column_means by exact Hk. rewrite Hobs.
  apply isNaN_zero_div_zero.
Qed.

End ImputeTwice.

(** ** Further properties: training and testing sets, accuracy *)

Section TrainTest.

Context {F : Type} {FO : Float64 F} {FI : IntConversion F}.
Variable conv_src : F -> Z.

(** X18. When [splitData] returns, the training and the testing set are
    the data cut in two, rows and labels at the same place, the place that
    [int(float64(len(X)) * splitRatio)] names. *)
Theorem Package_splitData_round_trip (X : list (list F)) (y : list F) splitRatio
  XTrain yTrain XTest yTest :
  Package.splitData conv_src X y splitRatio = Sliced (XTrain, yTrain, XTest, yTest) ->
  XTrain ++ XTest = X /\ yTrain ++ yTest = y /\
  len XTrain = Package.int conv_src (fmul (of_int (len X)) splitRatio) /\
  len yTrain = len XTrain.
Proof.
  unfold Package.splitData.
  set (numTrain := Package.int conv_src (fmul (of_int (len X)) splitRatio)).
  destruct ((numTrain <? 0) || (len X <? numTrain) || (len y <? numTrain)) eqn:E;
    [discriminate|].
  apply orb_false_iff in E. destruct E as [E E3]. apply orb_false_iff in E.
  destruct E as [E1 E2]. apply Z.ltb_ge in E1, E2, E3.
  intros H. inversion H; subst; clear H.
  rewrite !firstn_skipn. unfold len in *. rewrite !length_firstn.
  repeat split; lia.
Qed.

End TrainTest.

Section Evaluate.

Context {F : Type} {FO : Float64 F}.
Variable iter_src : nat -> nat.

Lemma evaluateLoop_count rf XTest (yTest : list F) i c w c' w' :
  0 <= i <= len yTest ->
  Package.evaluateLoop iter_src rf XTest yTest i c w = Ret c' w' ->
  c <= c' <= c + len XTest /\ i + len XTest <= len yTest.
Proof.
  revert i c w. induction XTest as [|sample rest IH]; intros i c w Hi H; simpl in H.
  - inv_run H. unfold len in *. simpl. lia.
  - apply bind_Ret in H. destruct H as (p & w1 & _ & H).
    apply bind_Ret in H. destruct H as (label & w2 & Hl & H). inv_run Hl.
    apply index_Val in E. destruct E as [_ E].
    assert (Z.to_nat i < length yTest)%nat by (apply nth_error_Some; congruence).
    apply IH in H; [|unfold len; lia]. unfold len in *. simpl length.
    destruct (feq p label); lia.
Qed.

Lemma skipn_index {A} (l : list A) i a :
  index l i = Val a -> skipn (Z.to_nat i) l = a :: skipn (Z.to_nat (i + 1)) l.
Proof.
  intros H. apply index_Val in H. destruct H as [Hi H].
  replace (Z.to_nat (i + 1)) with (S (Z.to_nat i)) by lia.
  revert H. generalize (Z.to_nat i). clear Hi i.
  induction l as [|x l IH]; intros n H; destruct n; simpl in *; try discriminate.
  - now inversion H.
  - now apply IH.
Qed.

Lemma correct_predictions_cons p (ps : list F) label labels :
  correct_predictions (p :: ps) (label :: labels)
  = (if feq p label then 1 else 0) + correct_predictions ps labels.
Proof.
  unfold correct_predictions. cbn [combine filter fst snd].
  destruct (feq p label); unfold len; simpl length; lia.
Qed.

Lemma correct_predictions_bounds (ps labels : list F) :
  0 <= correct_predictions ps labels <= len ps.
Proof.
  unfold correct_predictions, len. split; [lia|].
  apply inj_le. etransitivity; [apply filter_length_le|].
  rewrite length_combine. lia.
Qed.

Lemma predictions_length rf XTest w (ps : list F) w' :
  predictions iter_src rf XTest w = Ret ps w' -> length ps = length XTest.
Proof.
  revert w ps. induction XTest as [|sample rest IH]; intros w ps H; simpl in H.
  - inv_run H. reflexivity.
  - apply bind_Ret in H. destruct H as (p & w1 & _ & H).
    apply bind_Ret in H. destruct H as (ps' & w2 & Hps & H). inv_run H.
    simpl. f_equal. eapply IH; eauto.
Qed.

(** The loop counts the predictions that equal their label. *)
Lemma evaluateLoop_correct rf XTest (yTest : list F) i c w c' w' :
  Package.evaluateLoop iter_src rf XTest yTest i c w = Ret c' w' ->
  exists ps, predictions iter_src rf XTest w = Ret ps w' /\
    c' = c + correct_predictions ps (skipn (Z.to_nat i) yTest).
Proof.
  revert i c w. induction XTest as [|sample rest IH]; intros i c w H; simpl in H.
  - inv_run H. exists []. split; [reflexivity|]. unfold correct_predictions, len. simpl. lia.
  - apply bind_Ret in H. destruct H as (p & w1 & Hp & H).
    apply bind_Ret in H. destruct H as (label & w2 & Hl & H).
    apply lift_Ret in Hl. destruct Hl as [Hl ->].
    apply IH in H. destruct H as (ps & Hps & ->).
    exists (p :: ps). split.
    + simpl. rewrite (@bind_run _ _ _ _ _ _ _ Hp), (@bind_run _ _ _ _ _ _ _ Hps). reflexivity.
    + rewrite (skipn_index _ _ Hl), correct_predictions_cons.
      destruct (feq p label); lia.
Qed.

Lemma evaluateLoop_runs rf XTest (yTest : list F) i c w ps w' :
  0 <= i -> i + len XTest <= len yTest ->
  predictions iter_src rf XTest w = Ret ps w' ->
  Package.evaluateLoop iter_src rf XTest yTest i c w
    = Ret (c + correct_predictions ps (skipn (Z.to_nat i) yTest)) w'.
Proof.
  revert i c w ps. induction XTest as [|sample rest IH]; intros i c w ps Hi Hlen H; simpl in H.
  - inv_run H. simpl. unfold ret. f_equal. unfold correct_predictions, len. simpl. lia.
  - apply bind_Ret in H. destruct H as (p & w1 & Hp & H).
    apply bind_Ret in H. destruct H as (ps' & w2 & Hps & H). inv_run H.
    unfold len in Hlen. simpl length in Hlen.
    destruct (@index_lt _ yTest i) as (label & El & _); [unfold len; lia|].
    simpl. rewrite (@bind_run _ _ _ _ _ _ _ Hp).
    unfold bind at 1. rewrite El. simpl.
    rewrite (IH (i + 1) _ _ ps'); [|lia|unfold len; lia|exact Hps].
    f_equal. rewrite (skipn_index _ _ El), correct_predictions_cons.
    destruct (feq p label); lia.
Qed.

Lemma predictions_return rf XTest w :
  (forall sample w, In sample XTest ->
     exists v w', PredictRandomForest iter_src rf sample w = Ret v w') ->
  exists ps w', predictions iter_src rf XTest w = Ret ps w'.
Proof.
  revert w. induction XTest as [|sample rest IH]; intros w Hp; simpl.
  - eexists. eexists. reflexivity.
  - destruct (Hp sample w) as (v & w1 & Hv); [simpl; auto|].
    destruct (IH w1) as (ps & w2 & Hps); [intros s w0 Hs; apply Hp; simpl; auto|].
    rewrite (@bind_run _ _ _ _ _ _ _ Hv), (@bind_run _ _ _ _ _ _ _ Hps).
    eexists. eexists. reflexivity.
Qed.

(** X20. When [evaluateRandomForest] returns, there is a label for each
    sample, and the accuracy is the number of the samples whose prediction
    equals ([==]) the label at its place, the samples being predicted one
    after the other, divided by the number of samples. With a label for
    each sample it returns that value as soon as the predictions return,
    which they do when the forest predicts each sample. *)
Theorem evaluateRandomForest_accuracy rf XTest (yTest : list F) w :
  (forall v w', Package.evaluateRandomForest iter_src rf XTest yTest w = Ret v w' ->
     len XTest <= len yTest /\
     exists ps, predictions iter_src rf XTest w = Ret ps w' /\
       0 <= correct_predictions ps yTest <= len XTest /\
       v = fdiv (of_int (correct_predictions ps yTest)) (of_int (len XTest))) /\
  (len XTest <= len yTest ->
   forall ps w', predictions iter_src rf XTest w = Ret ps w' ->
     Package.evaluateRandomForest iter_src rf XTest yTest w
       = Ret (fdiv (of_int (correct_predictions ps yTest)) (of_int (len XTest))) w') /\
  (len XTest <= len yTest ->
   (forall sample w, In sample XTest ->
      exists v w', PredictRandomForest iter_src rf sample w = Ret v w') ->
   exists v w', Package.evaluateRandomForest iter_src rf XTest yTest w = Ret v w').
Proof.
  assert (Hrun : len XTest <= len yTest ->
            forall ps w', predictions iter_src rf XTest w = Ret ps w' ->
            Package.evaluateRandomForest iter_src rf XTest yTest w
            = Ret (fdiv (of_int (correct_predictions ps yTest)) (of_int (len XTest))) w').
  { intros Hlen ps w' Hps. unfold Package.evaluateRandomForest.
    rewrite (@bind_run _ _ _ _ _ _ _
               (@evaluateLoop_runs rf XTest yTest 0 0 w ps w' ltac:(lia) ltac:(lia) Hps)).
    reflexivity. }
  split; [|split; [exact Hrun|]].
  - intros v w' H. unfold Package.evaluateRandomForest in H.
    apply bind_Ret in H. destruct H as (c & w1 & Hc & H). inv_run H.
    assert (Hlen := Hc). apply evaluateLoop_count in Hlen; [|unfold len; lia].
    split; [lia|].
    apply evaluateLoop_correct in Hc. destruct Hc as (ps & Hps & ->).
    exists ps. split; [exact Hps|]. cbn [Z.to_nat skipn Z.add]. split; [|reflexivity].
    pose proof (correct_predictions_bounds ps yTest) as Hb.
    apply predictions_length in Hps. unfold len in *. lia.
  - intros Hlen Hp. destruct (predictions_return rf XTest w Hp) as (ps & w' & Hps).
    eexists. eexists. apply Hrun; eauto.
Qed.

Context {NL : NaNLaws (F:=F)}.

Lemma evaluateLoop_NaN rf XTest (yTest : list F) i c w c' w' :
  (forall sample w v w', PredictRandomForest iter_src rf sample w = Ret v w' ->
                         isNaN v = true) ->
  Package.evaluateLoop iter_src rf XTest yTest i c w = Ret c' w' ->
  c' = c.
Proof.
  intros Hp. revert i c w. induction XTest as [|sample rest IH]; intros i c w H; simpl in H.
  - now inv_run H.
  - apply bind_Ret in H. destruct H as (p & w1 & Hv & H).
    apply bind_Ret in H. destruct H as (label & w2 & _ & H).
    rewrite (feq_NaN_l _ label (Hp _ _ _ _ Hv)) in H. now apply IH in H.
Qed.

(** X21. A forest whose task is neither of the two predicts NaN, which
    equals no label: no prediction counts as correct. *)
Theorem evaluateRandomForest_unknown_task rf XTest (yTest : list F) w v w' :
  Task rf <> "classification"%string ->
  Task rf <> "regression"%string ->
  Package.evaluateRandomForest iter_src rf XTest yTest w = Ret v w' ->
  v = fdiv (of_int 0) (of_int (len XTest)) /\
  forall sample w1 p w2, PredictRandomForest iter_src rf sample w1 = Ret p w2 -> isNaN p = true.
Proof.
  intros Hc Hr H. apply String.eqb_neq in Hc, Hr.
  assert (Hp : forall sample w1 p w2,
             PredictRandomForest iter_src rf sample w1 = Ret p w2 -> isNaN p = true).
  { intros sample w1 p w2 Hrun. unfold PredictRandomForest in Hrun.
    apply bind_Ret in Hrun. destruct Hrun as (zs & wa & _ & Hrun).
    apply bind_Ret in Hrun. destruct Hrun as (ps & wb & _ & Hrun).
    rewrite Hc, Hr in Hrun. inv_run Hrun. apply isNaN_NaN. }
  split; [|exact Hp].
  unfold Package.evaluateRandomForest in H.
  apply bind_Ret in H. destruct H as (c & w1 & Hcount & H). inv_run H.
  eapply evaluateLoop_NaN in Hcount; [|exact Hp]. now subst c.
Qed.

End Evaluate.

(** ** Further properties: the split, completely; rows of one column *)

Section SplitComplete.

Context {F : Type} {FO : Float64 F}.

Lemma has_feature_index featureIndex (X : list (list F)) :
  has_feature featureIndex X = true <->
  Forall (fun row => exists v, index row featureIndex = Val v) X.
Proof.
  unfold has_feature. rewrite forallb_forall, Forall_forall.
  split; intros H row Hrow; specialize (H row Hrow).
  - apply andb_true_iff in H. destruct H as [H1 H2].
    apply Z.leb_le in H1. apply Z.ltb_lt in H2.
    destruct (@index_lt _ row featureIndex) as (v & Hv & _); [lia | eauto].
  - destruct H as (v & Hv). apply index_Val in Hv. destruct Hv as [H0 Hn].
    assert (Z.to_nat featureIndex < length row)%nat by (apply nth_error_Some; congruence).
    apply andb_true_iff. split; [apply Z.leb_le | apply Z.ltb_lt]; unfold len; lia.
Qed.

Lemma splitData_returns X (y : list F) featureIndex threshold :
  (length X <= length y)%nat ->
  Forall (fun row => exists v, index row featureIndex = Val v) X ->
  exists parts, splitData X y featureIndex threshold = Val parts.
Proof.
  intros Hlen Hall. revert y Hlen.
  induction Hall as [|row X (v & Hv) _ IH]; intros y Hlen; simpl.
  - eexists. reflexivity.
  - rewrite Hv. simpl. destruct y as [|yi y]; simpl in Hlen; [lia|].
    destruct (IH y) as ([[[lX lY] rX] rY] & E); [lia|]. rewrite E. simpl.
    destruct (flt v threshold); eexists; reflexivity.
Qed.

Lemma splitData_Fault X (y : list F) featureIndex threshold p :
  splitData X y featureIndex threshold = Fault p -> p = IndexOutOfRange.
Proof.
  revert y. induction X as [|row X IH]; intros y H; simpl in H; [discriminate|].
  destruct (index row featureIndex) as [v|q] eqn:Ev; simpl in H.
  - destruct y as [|yi y]; [now inversion H|].
    destruct (splitData X y featureIndex threshold) as [[[[lX lY] rX] rY]|q] eqn:E;
      simpl in H.
    + destruct (flt v threshold); discriminate.
    + inversion H; subst. eapply IH; eauto.
  - inversion H; subst. unfold index in Ev. destruct (featureIndex <? 0); [now inversion Ev|].
    destruct (nth_error row (Z.to_nat featureIndex)); [discriminate | now inversion Ev].
Qed.

(** X23. [splitData] sends each row, with its label, left when its
    feature is below the threshold and right otherwise, keeping the order of
    the rows; it returns when every row has a label and the feature, and
    panics on an index out of range otherwise. *)
Theorem splitData_partition X (y : list F) featureIndex threshold :
  if (length X <=? length y)%nat && has_feature featureIndex X then
    exists leftX leftY rightX rightY,
      splitData X y featureIndex threshold = Val (leftX, leftY, rightX, rightY) /\
      length leftX = length leftY /\ length rightX = length rightY /\
      combine leftX leftY = filter (goes_left featureIndex threshold) (combine X y) /\
      combine rightX rightY
        = filter (fun e => negb (goes_left featureIndex threshold e)) (combine X y)
  else splitData X y featureIndex threshold = Fault IndexOutOfRange.
Proof.
  destruct ((length X <=? length y)%nat && has_feature featureIndex X) eqn:E.
  - apply andb_true_iff in E. destruct E as [E1 E2].
    apply Nat.leb_le in E1. apply has_feature_index in E2.
    destruct (@splitData_returns X y featureIndex threshold E1 E2) as ([[[lX lY] rX] rY] & H).
    exists lX, lY, rX, rY. split; [exact H|].
    apply splitData_filter in H. tauto.
  - destruct (splitData X y featureIndex threshold) as [[[[lX lY] rX] rY]|p] eqn:H.
    + apply splitData_filter in H. destruct H as (_ & _ & H3 & _ & _ & H6).
      apply Nat.leb_le in H3. apply has_feature_index in H6.
      rewrite H3, H6 in E. discriminate.
    + apply splitData_Fault in H. now subst p.
Qed.

End SplitComplete.

Section SingleColumn.

Context {F : Type} {FO : Float64 F}.
Variable rand_src : nat -> Z.
Variable iter_src : nat -> nat.

Lemma isSameValue_single_column (X : list (list F)) :
  Forall (fun row => (length row <= 1)%nat) X -> isSameValue X = Val true.
Proof.
  intros H. destruct H as [|x0 rows _ H]; [reflexivity|]. simpl.
  induction H as [|row rows Hrow _ IH]; simpl; [reflexivity|].
  assert (E : tl row = []) by (destruct row as [|a [|b row]]; simpl in *; [reflexivity.. | lia]).
  rewrite E. simpl. exact IH.
Qed.

Lemma getLeafPrediction_returns dt (y : list F) w :
  exists prediction w', getLeafPrediction iter_src dt y w = Ret prediction w'.
Proof.
  unfold getLeafPrediction. destruct (String.eqb (dtTask dt) "classification").
  - eexists. eexists. reflexivity.
  - eexists. eexists. reflexivity.
Qed.

(** X24. Column 0 is never compared, so rows of one column count as
    identical: on such rows a build step with a label makes a leaf,
    whatever the depth and the labels, and the tree is a single leaf. *)
Theorem buildTree_single_column fuel dt X (y : list F) depth w :
  y <> [] ->
  Forall (fun row => (length row <= 1)%nat) X ->
  exists prediction w',
    getLeafPrediction iter_src dt y w = Ret prediction w' /\
    buildTree rand_src iter_src (S fuel) dt X y depth w = Ret (Some (leaf prediction)) w'.
Proof.
  intros Hy HX. destruct (getLeafPrediction_returns dt y w) as (p & w' & Hp).
  exists p, w'. split; [exact Hp|].
  rewrite buildTree_step. apply len_nonzero in Hy. rewrite Hy.
  assert (Hs : stops X y depth = Val true).
  { unfold stops. destruct ((depth =? 0) || isSameClass y); [reflexivity|].
    now apply isSameValue_single_column. }
  unfold bind at 1. rewrite Hs. simpl. unfold bind. rewrite Hp. reflexivity.
Qed.

End SingleColumn.

(** ** Concrete runs *)

(** C3 fails. Column 0 is constant, so its only split point, 5, sends both
    rows to the right; the builder returns a split node whose left child is
    nil: a node that is neither Leaf nor Internal in the data model. *)
Lemma buildTree_one_child_counterexample :
  let node := mkNode 0 5%float 0%float None (Some (leaf 0%float)) in
  buildTree (always 0) (always 0%nat) 2 (classifier 1 1) X_const0 y_01 1 w0
    = Ret (Some node) (mkWorld 1 3) /\
  splitData X_const0 y_01 0 5%float = Val ([], [], X_const0, y_01) /\
  Left node = None /\ Right node <> None /\
  tree_of node = None.
Proof.
  intros node. split; [vm_compute; reflexivity|]. split; [vm_compute; reflexivity|].
  simpl. repeat split. discriminate.
Qed.

Lemma buildTree_children_witness :
  let run := buildTree (always 0) (always 0%nat) 2 (classifier 1 1) X_const0 y_01 1 w0 in
  let node := Some (mkNode 0 5%float 0%float None (Some (leaf 0%float))) in
  run = Ret node (mkWorld 1 3) /\
  (node = None <-> y_01 = []).
Proof.
  intros run node.
  assert (H : run = Ret node (mkWorld 1 3)) by (vm_compute; reflexivity).
  split; [exact H|].
  exact (proj1 (proj2 (buildTree_children _ _ _ _ _ _ _ _ H))).
Defined.

(** C4 fails. With no label the build step returns (nil): it does not fail. *)
Lemma buildTree_empty_counterexample :
  buildTree (always 0) (always 0%nat) 1 (classifier 3 1) [[1]]%float [] 3 w0
    = Ret None w0 /\
  failed (buildTree (always 0) (always 0%nat) 1 (classifier 3 1) [[1]]%float [] 3 w0)
    = false.
Proof. split; reflexivity. Qed.

Lemma TrainDecisionTree_depth_bound_witness :
  0 <= dtMaxDepth (classifier 1 1) /\
  TrainDecisionTree (always 0) (always 0%nat) 2 (classifier 1 1) X_const0 y_01 w0
    <> OutOfFuel.
Proof.
  assert (H : 0 <= dtMaxDepth (classifier 1 1)) by (simpl; lia).
  split; [exact H|].
  apply (proj2 (TrainDecisionTree_depth_bound (always 0) (always 0%nat) 2
                  (classifier 1 1) X_const0 y_01 w0 H)).
  simpl. lia.
Defined.

(** C1 fails. Five rows with four labels, a negative depth and more
    features asked for than there are: training returns a forest. The
    bootstrap draws the rows 0, 1, 2, 3, 0, the features drawn are 1, 0, 1,
    and the tree splits on feature 1 at 0.5. Training with [NumTrees = 0]
    returns as well. *)
Lemma TrainRandomForest_unvalidated_counterexample :
  let root := mkNode 1 0.5%float 0%float (Some (leaf 0%float)) (Some (leaf 1%float)) in
  len y_four <> len X_five /\
  MaxDepth forest_unvalidated < 0 /\
  MaxFeatures forest_unvalidated = len [0; 0]%float + 1 /\
  TrainRandomForest cycle4 (always 0%nat) 3 forest_unvalidated X_five y_four w0
    = Ret (mkRandomForest [Some (mkDecisionTree (Some root) (-1) 3 "classification")]
             1 (-1) 3 "classification")
          (mkWorld 8 26) /\
  failed (TrainRandomForest cycle4 (always 0%nat) 3 forest_unvalidated X_five y_four w0)
    = false /\
  TrainRandomForest cycle4 (always 0%nat) 3
    (mkRandomForest [] 0 (-1) 3 "classification") X_five y_four w0
    = Ret (mkRandomForest [] 0 (-1) 3 "classification") w0.
Proof.
  intros root. split; [discriminate|]. split; [reflexivity|]. split; [reflexivity|].
  repeat split; vm_compute; reflexivity.
Qed.

Lemma TrainRandomForest_unvalidated_witness :
  let rf := mkRandomForest (F:=float) [] 0 (-1) 3 "classification" in
  NumTrees rf <= 0 /\
  TrainRandomForest cycle4 (always 0%nat) 3 rf X_five y_four w0 = Ret rf w0 /\
  0 < 2 <= dtMaxFeatures (classifier 1 3) /\
  exists selected w',
    selectFeatures cycle4 (classifier 1 3) 2 w0 = Ret selected w' /\
    len selected = dtMaxFeatures (classifier 1 3) /\
    Forall (fun f => 0 <= f < 2) selected.
Proof.
  intros rf.
  assert (H1 : NumTrees rf <= 0) by (simpl; lia).
  assert (H2 : 0 < 2 <= dtMaxFeatures (classifier 1 3)) by (simpl; lia).
  split; [exact H1|]. split.
  - exact (proj1 (TrainRandomForest_unvalidated cycle4 (always 0%nat) 3 rf
                    X_five y_four w0) H1).
  - split; [exact H2|].
    exact (proj2 (proj2 (TrainRandomForest_unvalidated cycle4 (always 0%nat) 3 rf
                           X_five y_four w0)) (classifier 1 3) 2 H2).
Defined.

Lemma forest_trained_run :
  TrainRandomForest step3 (always 0%nat) 3
    (mkRandomForest [None; None] 2 2 2 "classification") X_four y_0011 w0
  = Ret forest_trained (mkWorld 12 28).
Proof. vm_compute. reflexivity. Qed.

(** C2 fails. A forest of no tree predicts 0, and a forest trained on two
    features predicts on samples of one feature and of three. *)
Lemma PredictRandomForest_unvalidated_counterexample :
  PredictRandomForest (always 0%nat)
    (mkRandomForest (F:=float) [] 0 2 2 "classification") [3]%float w0
  = Ret 0%float (mkWorld 0 1) /\
  PredictRandomForest (always 0%nat) forest_trained [3]%float w0
  = Ret 1%float (mkWorld 0 1) /\
  PredictRandomForest (always 0%nat) forest_trained [3; 0; 7]%float w0
  = Ret 1%float (mkWorld 0 1) /\
  failed (PredictRandomForest (always 0%nat)
            (mkRandomForest (F:=float) [] 0 2 2 "classification") [3]%float w0)
  = false /\
  failed (PredictRandomForest (always 0%nat) forest_trained [3]%float w0) = false.
Proof. repeat split; vm_compute; reflexivity. Qed.

Lemma PredictRandomForest_unvalidated_witness :
  let rf := mkRandomForest (F:=float) [None; None] 2 2 2 "classification" in
  NewRandomForest 2 2 2 "classification" = Val rf /\
  0 < 2 /\
  PredictRandomForest (always 0%nat) rf [3; 0]%float w0 = Panic NilDereference.
Proof.
  intros rf.
  assert (H : NewRandomForest 2 2 2 "classification" = Val rf) by reflexivity.
  assert (H2 : 0 < 2) by lia.
  split; [exact H|]. split; [exact H2|].
  exact (proj1 (PredictRandomForest_unvalidated (always 0%nat) 2 2 2 "classification"
                  [3; 0]%float [] w0 H) H2).
Defined.

(** C5 fails. The same inputs and the same random numbers, with the map of
    the leaf's vote visited in two different orders: the leaf predicts 0
    in one ensemble and 1 in the other. *)
Lemma TrainRandomForest_map_order_counterexample :
  let rf := mkRandomForest (F:=float) [None] 1 0 1 "classification" in
  let trained prediction :=
    mkRandomForest [Some (mkDecisionTree (Some (leaf prediction)) 0 1 "classification")]
      1 0 1 "classification" in
  TrainRandomForest counting (always 0%nat) 1 rf [[0]; [1]]%float y_01 w0
    = Ret (trained 0%float) (mkWorld 2 1) /\
  TrainRandomForest counting (always 1%nat) 1 rf [[0]; [1]]%float y_01 w0
    = Ret (trained 1%float) (mkWorld 2 1) /\
  trained 0%float <> trained 1%float.
Proof.
  intros rf trained.
  split; [vm_compute; reflexivity|]. split; [vm_compute; reflexivity|].
  intros E. inversion E.
Qed.

Lemma TrainRandomForest_deterministic_witness :
  let rf := mkRandomForest (F:=float) [None] 1 1 1 "regression" in
  agree_from (rand_pos w0) counting counting /\
  TrainRandomForest counting (always 0%nat) 2 rf X_const0 y_01 w0
    = TrainRandomForest counting (always 1%nat) 2 rf X_const0 y_01 w0.
Proof.
  intros rf.
  assert (H : agree_from (rand_pos w0) counting counting) by (intros n _; reflexivity).
  split; [exact H|].
  apply (TrainRandomForest_deterministic (is1 := always 0%nat) (is2 := always 1%nat)
           2 rf X_const0 y_01 w0 H).
  intros E. discriminate E.
Defined.

(** C6 fails. At depth 0 the labels 0 and 1 tie; the map of the counts is
    visited from its second entry, and the leaf predicts 1, not the label
    met first in row order. *)
Lemma buildTree_leaf_tie_counterexample :
  buildTree (always 0) (always 1%nat) 1 (classifier 0 1) [[0]; [1]]%float y_01 0 w0
    = Ret (Some (leaf 1%float)) (mkWorld 0 1) /\
  firstMostFrequent y_01 = 0%float /\
  feq 1%float (firstMostFrequent y_01) = false.
Proof. repeat split; vm_compute; reflexivity. Qed.

Lemma buildTree_leaf_witness :
  y_01 <> [] /\
  Forall (fun v => feq v v = true) y_01 /\
  exists prediction w',
    buildTree (always 0) (always 1%nat) 1 (classifier 0 1) [[0]; [1]]%float y_01 0 w0
      = Ret (Some (leaf prediction)) w' /\
    (forall v, In v y_01 -> count v y_01 <= count prediction y_01) /\
    exists entries,
      entries = range_order 1 (tally y_01) /\
      vote_counts y_01 entries /\
      first_max entries prediction.
Proof.
  assert (H1 : y_01 <> []) by discriminate.
  assert (H2 : Forall (fun v => feq v v = true) y_01)
    by (repeat constructor).
  split; [exact H1|]. split; [exact H2|].
  destruct (buildTree_leaf (always 0) (always 1%nat) 0 (classifier 0 1)
              [[0]; [1]]%float (depth := 0) w0 H1 (or_introl eq_refl))
    as (prediction & w' & Hrun & Hvote).
  exists prediction, w'. split; [exact Hrun | exact (Hvote H2)].
Defined.

Lemma PredictRandomForest_aggregates_witness :
  let ts := [Internal 0 2.5%float (Leaf 0%float) (Leaf 1%float);
             Internal 0 2.5%float (Leaf 0%float) (Leaf 1%float)] in
  NumTrees forest_trained = len (Trees forest_trained) /\
  Forall2 holds_tree (Trees forest_trained) ts /\
  Forall (covers [3; 0]%float) ts /\
  exists entries,
    entries = range_order 0 (tally (map (descend [3; 0]%float) ts)) /\
    vote_counts (map (descend [3; 0]%float) ts) entries /\
    first_max entries (scan_votes entries) /\
    PredictRandomForest (always 0%nat) forest_trained [3; 0]%float w0
      = Ret (scan_votes entries) (mkWorld 0 1).
Proof.
  intros ts.
  assert (H1 : NumTrees forest_trained = len (Trees forest_trained)) by reflexivity.
  assert (H2 : Forall2 holds_tree (Trees forest_trained) ts).
  { repeat constructor; eexists; eexists; repeat split; reflexivity. }
  assert (H3 : Forall (covers [3; 0]%float) ts).
  { repeat constructor; unfold len; simpl; lia. }
  assert (H4 : ts <> []) by discriminate.
  assert (H5 : Forall (fun v => feq v v = true) (map (descend [3; 0]%float) ts))
    by (repeat constructor).
  split; [exact H1|]. split; [exact H2|]. split; [exact H3|].
  exact (PredictRandomForest_aggregates (always 0%nat) forest_trained [3; 0]%float
           w0 H1 H2 H3 H4 H5).
Defined.

Lemma buildTree_empty_returns_nil_witness :
  buildTree counting (always 0%nat) 2 (classifier 1 1) X_const0 y_01 1 w0
    = Ret (Some (mkNode 0 5%float 0%float None (Some (leaf 0%float)))) (mkWorld 1 3) /\
  (Some (mkNode 0 5%float 0%float None (Some (leaf 0%float))) = None <-> y_01 = []).
Proof.
  assert (H : buildTree counting (always 0%nat) 2 (classifier 1 1) X_const0 y_01 1 w0
              = Ret (Some (mkNode 0 5%float 0%float None (Some (leaf 0%float))))
                    (mkWorld 1 3))
    by (vm_compute; reflexivity).
  split; [exact H|].
  exact (proj2 (buildTree_empty_returns_nil counting (always 0%nat) 1 (classifier 1 1)
                  X_const0 1 w0) y_01 _ _ H).
Defined.

(** C7 fails on a trained forest. Training on two rows whose first feature
    is constant (the bootstrap draws the rows 0 and 1, the feature drawn is
    0) builds a split node whose left child is nil. A sample of two
    features with [sample[0] < 5] is sent to that child, and the prediction
    panics on the nil pointer: no leaf is reached, nothing is aggregated. *)
Lemma PredictRandomForest_nil_child :
  let root := mkNode 0 5%float 0%float None (Some (leaf 0%float)) in
  let trained :=
    mkRandomForest [Some (mkDecisionTree (Some root) 1 1 "classification")]
      1 1 1 "classification" in
  NewRandomForest (F:=float) 1 1 1 "classification"
    = Val (mkRandomForest [None] 1 1 1 "classification") /\
  TrainRandomForest counting (always 0%nat) 2
    (mkRandomForest [None] 1 1 1 "classification") X_const0 y_01 w0
    = Ret trained (mkWorld 3 3) /\
  len [4; 0]%float = len (hd [] X_const0) /\
  PredictRandomForest (always 0%nat) trained [4; 0]%float (mkWorld 3 3)
    = Panic NilDereference.
Proof.
  intros root trained. split; [reflexivity|].
  split; [vm_compute; reflexivity|]. split; reflexivity.
Qed.

(** [isSameValue] starts both of its loops at 1: the first column is never
    compared. Two rows of one feature count as identical, and the builder
    makes a leaf of them at depth 3 although their labels differ. *)
Remark isSameValue_skips_first_column :
  isSameValue [[0]; [1]]%float = Val true /\
  exists prediction w',
    buildTree (always 0) (always 0%nat) 4 (classifier 3 1) [[0]; [1]]%float y_01 3 w0
      = Ret (Some (leaf prediction)) w'.
Proof.
  split; [reflexivity|]. do 2 eexists. vm_compute. reflexivity.
Qed.




(** ** Concrete runs of the further properties *)

Lemma isSameValue_ignores_first_column_witness :
  Forall2 (fun row row' : list float => tl row = tl row')
          [[1; 0]; [2; 0]]%float [[5; 0]; [5; 0]]%float /\
  isSameValue [[1; 0]; [2; 0]]%float = isSameValue [[5; 0]; [5; 0]]%float.
Proof.
  assert (H : Forall2 (fun row row' : list float => tl row = tl row')
                      [[1; 0]; [2; 0]]%float [[5; 0]; [5; 0]]%float)
    by (repeat constructor).
  split; [exact H | exact (isSameValue_ignores_first_column H)].
Defined.

Lemma majorityVote_strict_majority_witness :
  In 1%float [1; 0; 1]%float /\
  exists p,
    majorityVote (always 0%nat) [1; 0; 1]%float w0 = Ret p (mkWorld 0 1) /\
    In p [1; 0; 1]%float /\ feq p 1%float = true.
Proof.
  assert (H1 : Forall (fun u : float => feq u u = true) [1; 0; 1]%float)
    by (repeat constructor).
  assert (H2 : In 1%float [1; 0; 1]%float) by (simpl; auto).
  assert (H3 : forall u : float, In u [1; 0; 1]%float -> feq u 1%float = false ->
                                 count u [1; 0; 1]%float < count 1%float [1; 0; 1]%float).
  { intros u [<- | [<- | [<- | []]]] E; vm_compute in E |- *; try discriminate; reflexivity. }
  split; [exact H2|].
  exact (majorityVote_strict_majority (always 0%nat) 1%float w0 H1 H2 H3).
Defined.

Lemma buildTree_no_feature_witness :
  stops X_four y_0011 1 = Val false /\
  buildTree (always 0) (always 0%nat) 1 (classifier 1 0) X_four y_0011 1 w0
    = Panic IndexOutOfRange.
Proof.
  assert (H1 : stops X_four y_0011 1 = Val false) by (vm_compute; reflexivity).
  assert (H2 : dtMaxFeatures (classifier 1 0) <= 0) by (simpl; lia).
  split; [exact H1|].
  exact (buildTree_no_feature (always 0) (always 0%nat) 0 (classifier 1 0) X_four y_0011 1 w0 H1 H2).
Defined.

Lemma buildTree_unknown_task_witness :
  stops X_four y_0011 1 = Val false /\
  exists p, buildTree (always 0) (always 0%nat) 1 (ranker 1 1) X_four y_0011 1 w0 = Panic p.
Proof.
  assert (H1 : stops X_four y_0011 1 = Val false) by (vm_compute; reflexivity).
  assert (H2 : dtTask (ranker 1 1) <> "classification"%string) by discriminate.
  assert (H3 : dtTask (ranker 1 1) <> "regression"%string) by discriminate.
  split; [exact H1|].
  exact (buildTree_unknown_task (always 0) (always 0%nat) 0 (ranker 1 1) X_four y_0011 1 w0 H2 H3 H1).
Defined.

Lemma calculateScore_regression_empty_side_witness :
  exists s1 s2,
    calculateScore (always 0%nat) (regressor 1 1) [] [1; 2]%float w0 = Ret s1 w0 /\
    calculateScore (always 0%nat) (regressor 1 1) [1; 2]%float [] w0 = Ret s2 w0 /\
    isNaN s1 = true /\ isNaN s2 = true /\
    forall best, flt best s1 = false /\ flt best s2 = false.
Proof.
  exact (calculateScore_regression_empty_side (always 0%nat) (regressor 1 1)
           [1; 2]%float w0 eq_refl).
Defined.

Lemma buildTree_leaves_witness :
  let node := Some (mkNode 0 5%float 0%float None (Some (leaf 0%float))) in
  buildTree (always 0) (always 0%nat) 2 (classifier 1 1) X_const0 y_01 1 w0
    = Ret node (mkWorld 1 3) /\
  (leaves_of node <= length y_01)%nat /\
  (y_01 <> [] -> (1 <= leaves_of node)%nat).
Proof.
  intros node.
  assert (H : buildTree (always 0) (always 0%nat) 2 (classifier 1 1) X_const0 y_01 1 w0
              = Ret node (mkWorld 1 3)) by (vm_compute; reflexivity).
  split; [exact H|].
  exact (buildTree_leaves (always 0) (always 0%nat) 2 (classifier 1 1) X_const0 y_01 1 w0 H).
Defined.

Lemma TrainDecisionTree_predicts_training_rows_witness :
  let root := mkNode 0 5%float 0%float None (Some (leaf 0%float)) in
  let trained := mkDecisionTree (Some root) 1 1 "classification" in
  TrainDecisionTree (always 0) (always 0%nat) 2 (classifier 1 1) X_const0 y_01 w0
    = Ret trained (mkWorld 1 3) /\
  In [5; 1]%float X_const0 /\
  exists v, PredictDecisionTree (Some trained) [5; 1]%float = Val v.
Proof.
  intros root trained.
  assert (H1 : TrainDecisionTree (always 0) (always 0%nat) 2 (classifier 1 1) X_const0 y_01 w0
               = Ret trained (mkWorld 1 3)) by (vm_compute; reflexivity).
  assert (H2 : y_01 <> []) by discriminate.
  assert (H3 : In [5; 1]%float X_const0) by (simpl; auto).
  split; [exact H1|]. split; [exact H3|].
  exact (TrainDecisionTree_predicts_training_rows (always 0) (always 0%nat) 2
           (classifier 1 1) X_const0 w0 [5; 1]%float H1 H2 H3).
Defined.

Lemma bootstrapSample_draws_witness :
  (length X_four <= length y_0011)%nat /\
  exists XSample ySample,
    bootstrapSample step3 X_four y_0011 (len X_four) w0
      = Ret (XSample, ySample) (mkWorld (rand_pos w0 + length X_four) (iter_pos w0)) /\
    length XSample = length X_four /\ length ySample = length X_four /\
    forall k, (k < length X_four)%nat ->
      (drawn step3 w0 (len X_four) k < length X_four)%nat /\
      nth_error XSample k = nth_error X_four (drawn step3 w0 (len X_four) k) /\
      nth_error ySample k = nth_error y_0011 (drawn step3 w0 (len X_four) k).
Proof.
  assert (H : (length X_four <= length y_0011)%nat) by (simpl; lia).
  split; [exact H|].
  exact (bootstrapSample_draws step3 X_four y_0011 w0 H).
Defined.

Lemma TrainRandomForest_slots_witness :
  let rf := mkRandomForest (F:=float) [None; None] 2 2 2 "classification" in
  TrainRandomForest step3 (always 0%nat) 3 rf X_four y_0011 w0
    = Ret forest_trained (mkWorld 12 28) /\
  length (Trees forest_trained) = length (Trees rf) /\
  NumTrees rf <= len (Trees rf).
Proof.
  intros rf.
  assert (H : TrainRandomForest step3 (always 0%nat) 3 rf X_four y_0011 w0
              = Ret forest_trained (mkWorld 12 28)) by (vm_compute; reflexivity).
  split; [exact H|].
  pose proof (TrainRandomForest_slots step3 (always 0%nat) 3 rf X_four y_0011 w0 H)
    as (_ & _ & _ & _ & H5 & H6 & _).
  split; [exact H5 | exact H6].
Defined.

Lemma TrainRandomForest_empty_dataset_witness :
  let rf := mkRandomForest (F:=float) [None] 1 1 1 "classification" in
  NumTrees rf = len (Trees rf) /\
  exists trained,
    TrainRandomForest (always 0) (always 0%nat) 1 rf [] y_01 w0 = Ret trained w0 /\
    length (Trees trained) = length (Trees rf) /\
    Forall (fun slot => slot = Some (NewDecisionTree (MaxDepth rf) (MaxFeatures rf) (Task rf)))
           (Trees trained) /\
    PredictRandomForest (always 0%nat) trained [1]%float w0 = Panic NilDereference.
Proof.
  intros rf.
  assert (H1 : NumTrees rf = len (Trees rf)) by reflexivity.
  assert (H2 : 0 < NumTrees rf) by (simpl; lia).
  split; [exact H1|].
  exact (TrainRandomForest_empty_dataset (always 0) (always 0%nat) 0 rf y_01 [1]%float
           w0 w0 H1 H2).
Defined.

Lemma PredictRandomForest_training_label_witness :
  let rf := mkRandomForest (F:=float) [None; None] 2 2 2 "classification" in
  TrainRandomForest step3 (always 0%nat) 3 rf X_four y_0011 w0
    = Ret forest_trained (mkWorld 12 28) /\
  PredictRandomForest (always 0%nat) forest_trained [3; 0]%float w0
    = Ret 1%float (mkWorld 0 1) /\
  In 1%float y_0011.
Proof.
  intros rf.
  assert (H1 : Task rf = "classification"%string) by reflexivity.
  assert (H2 : NumTrees rf = len (Trees rf)) by reflexivity.
  assert (H3 : 0 < NumTrees rf) by (simpl; lia).
  assert (H4 : Forall (fun u : float => feq u u = true) y_0011) by (repeat constructor).
  assert (H5 : TrainRandomForest step3 (always 0%nat) 3 rf X_four y_0011 w0
               = Ret forest_trained (mkWorld 12 28)) by (vm_compute; reflexivity).
  assert (H6 : PredictRandomForest (always 0%nat) forest_trained [3; 0]%float w0
               = Ret 1%float (mkWorld 0 1)) by (vm_compute; reflexivity).
  split; [exact H5|]. split; [exact H6|].
  exact (PredictRandomForest_training_label step3 (always 0%nat) 3 rf X_four w0
           [3; 0]%float w0 H1 H2 H3 H4 H5 H6).
Defined.

Lemma findBestSplit_result_witness :
  findBestSplit (always 0%nat) (classifier 1 1) X_four y_0011 [0] w0
    = Ret (0, 2.5%float) (mkWorld 0 6) /\
  ((0 = -1 /\ 2.5%float = Inf 1) \/
   (In 0 [0] /\ midpoint_of X_four 0 2.5%float)).
Proof.
  assert (H : findBestSplit (always 0%nat) (classifier 1 1) X_four y_0011 [0] w0
              = Ret (0, 2.5%float) (mkWorld 0 6)) by (vm_compute; reflexivity).
  split; [exact H|].
  exact (findBestSplit_result (always 0%nat) (classifier 1 1) X_four y_0011 [0] w0 H).
Defined.

Lemma X_missing_rows :
  X_missing <> [] /\
  Forall (fun row : list float => (length (hd [] X_missing) <= length row)%nat) X_missing.
Proof. split; [discriminate | repeat constructor]. Qed.

Lemma imputeMissingValues_fills_witness :
  X_missing <> [] /\
  exists X',
    Package.imputeMissingValues X_missing = Val X' /\
    Forall2 (fun row row' : list float =>
               length row' = length row /\
               forall k,
                 nth k row' (of_int 0) =
                 if (k <? length (hd [] X_missing))%nat && isNaN (nth k row (of_int 0))
                 then mean (observed X_missing k)
                 else nth k row (of_int 0)) X_missing X'.
Proof.
  split; [exact (proj1 X_missing_rows)|].
  exact (imputeMissingValues_fills (proj1 X_missing_rows) (proj2 X_missing_rows)).
Defined.

Lemma imputeMissingValues_panics_witness :
  Exists (fun row : list float => (length row < length (hd [] [[1; 2]; [3]]%float))%nat)
         [[1; 2]; [3]]%float /\
  Package.imputeMissingValues [[1; 2]; [3]]%float = Fault IndexOutOfRange.
Proof.
  assert (H : Exists (fun row : list float =>
                        (length row < length (hd [] [[1; 2]; [3]]%float))%nat)
                     [[1; 2]; [3]]%float).
  { apply Exists_cons_tl, Exists_cons_hd. simpl. lia. }
  split; [exact H|].
  exact (imputeMissingValues_panics (or_intror H)).
Defined.

Lemma imputeMissingValues_idempotent_witness :
  X_missing <> [] /\
  exists X',
    Package.imputeMissingValues X_missing = Val X' /\
    Package.imputeMissingValues X' = Val X'.
Proof.
  split; [exact (proj1 X_missing_rows)|].
  exact (imputeMissingValues_idempotent (proj1 X_missing_rows) (proj2 X_missing_rows)).
Defined.

Lemma imputeMissingValues_unobserved_column_witness :
  Forall (fun row : list float => isNaN (nth 1 row (of_int 0)) = true) X_unobserved /\
  exists X',
    Package.imputeMissingValues X_unobserved = Val X' /\
    Forall (fun row' : list float => isNaN (nth 1 row' (of_int 0)) = true) X'.
Proof.
  assert (H1 : X_unobserved <> []) by discriminate.
  assert (H2 : Forall (fun row : list float =>
                         (length (hd [] X_unobserved) <= length row)%nat) X_unobserved)
    by (repeat constructor).
  assert (H3 : (1 < length (hd [] X_unobserved))%nat) by (simpl; lia).
  assert (H4 : Forall (fun row : list float => isNaN (nth 1 row (of_int 0)) = true)
                      X_unobserved) by (repeat constructor).
  split; [exact H4|].
  exact (imputeMissingValues_unobserved_column H1 H2 H3 H4).
Defined.

Lemma Package_splitData_round_trip_witness :
  let XTrain := [[1; 0]; [2; 1]; [3; 0]]%float in
  let XTest := [[4; 1]]%float in
  Package.splitData conv_zero X_four y_0011 0.75%float
    = Sliced (XTrain, [0; 0; 1]%float, XTest, [1]%float) /\
  XTrain ++ XTest = X_four /\ [0; 0; 1]%float ++ [1]%float = y_0011 /\
  len XTrain = Package.int conv_zero (fmul (of_int (len X_four)) 0.75%float) /\
  len [0; 0; 1]%float = len XTrain.
Proof.
  intros XTrain XTest.
  assert (H : Package.splitData conv_zero X_four y_0011 0.75%float
              = Sliced (XTrain, [0; 0; 1]%float, XTest, [1]%float))
    by (vm_compute; reflexivity).
  split; [exact H|].
  exact (Package_splitData_round_trip conv_zero X_four y_0011 0.75%float H).
Defined.

Lemma evaluateRandomForest_accuracy_witness :
  let XTest := [[1; 0]; [4; 1]; [3; 0]]%float in
  let yTest := [0; 1; 0]%float in
  Package.evaluateRandomForest (always 0%nat) forest_trained XTest yTest w0
    = Ret (fdiv 2 3)%float (mkWorld 0 3) /\
  len XTest <= len yTest /\
  exists ps,
    predictions (always 0%nat) forest_trained XTest w0 = Ret ps (mkWorld 0 3) /\
    0 <= correct_predictions ps yTest <= len XTest /\
    fdiv 2%float 3%float
      = fdiv (of_int (correct_predictions ps yTest)) (of_int (len XTest)).
Proof.
  intros XTest yTest.
  assert (H : Package.evaluateRandomForest (always 0%nat) forest_trained XTest yTest w0
              = Ret (fdiv 2 3)%float (mkWorld 0 3)) by (vm_compute; reflexivity).
  split; [exact H|].
  exact (proj1 (evaluateRandomForest_accuracy (always 0%nat) forest_trained XTest yTest w0)
           _ _ H).
Defined.

Lemma evaluateRandomForest_unknown_task_witness :
  Package.evaluateRandomForest (always 0%nat) forest_ranking [[0]]%float [1]%float w0
    = Ret 0%float w0 /\
  0%float = fdiv (of_int 0) (of_int (len [[0%float]])).
Proof.
  assert (H1 : Task forest_ranking <> "classification"%string) by discriminate.
  assert (H2 : Task forest_ranking <> "regression"%string) by discriminate.
  assert (H3 : Package.evaluateRandomForest (always 0%nat) forest_ranking
                 [[0]]%float [1]%float w0 = Ret 0%float w0) by (vm_compute; reflexivity).
  split; [exact H3|].
  exact (proj1 (evaluateRandomForest_unknown_task (always 0%nat) forest_ranking
                  [[0]]%float [1]%float w0 H1 H2 H3)).
Defined.

Lemma buildTree_single_column_witness :
  Forall (fun row : list float => (length row <= 1)%nat) X_single /\
  exists prediction w',
    getLeafPrediction (always 0%nat) (classifier 5 1) y_0011 w0 = Ret prediction w' /\
    buildTree (always 0) (always 0%nat) 1 (classifier 5 1) X_single y_0011 5 w0
      = Ret (Some (leaf prediction)) w'.
Proof.
  assert (H1 : y_0011 <> []) by discriminate.
  assert (H2 : Forall (fun row : list float => (length row <= 1)%nat) X_single)
    by (repeat constructor).
  split; [exact H2|].
  exact (buildTree_single_column (always 0) (always 0%nat) 0 (classifier 5 1) 5 w0 H1 H2).
Defined.
